(** * go-toolbox / i18n: the per-locale translator, its verifier and the
      TOML import/export bridge, as a shallow embedding.

    Sources embedded here:
    - [i18n/translator.go]: [transText], [translator], [newTranslator],
      [Add], [AddCardinal], [AddOrdinal], [AddRange], [T], [C], [O], [R],
      [VerifyTranslations];
    - [i18n/universalTranslator.go]: [NewUniversalTranslator],
      [FindTranslator], first with the map of translators only, then in
      module [Registry] with the fallback and the pointers:
      [NewUniversalTranslator], [FindTranslator], [GetTranslator],
      [GetFallback], [AddTranslator], [VerifyTranslations];
    - the import/export file of package i18n: [translation], [Export]
      (one locale, then the whole registry), [exportPlurals],
      [ImportFromReader];
    - [gin/middleware], the [Localizer] middleware: its lookup loop.

    Conventions.  Go's [int] is [Z] (no text here is long enough to wrap).
    A Go [string] is a [string] of bytes.  A run-time panic is an explicit
    outcome, distinct from a returned [error].  A method with a pointer
    receiver takes the translator and returns the updated one.  A [range]
    over a Go map visits the entries in an order the language leaves
    open: the order is an explicit list argument, and the theorems hold
    for every order. *)

From Stdlib Require Import ZArith Lia Ascii DecimalString Sorted.
From stdpp Require Import base option list gmap strings.

Local Open Scope Z_scope.

(** ** Run-time outcomes *)

Inductive panic : Type :=
| IndexOutOfRange (i len : Z)
| SliceBoundsOutOfRange (lo hi len : Z)
| NilDereference.

Inductive outcome (A : Type) : Type :=
| Returns (a : A)
| Panics (p : panic).
Arguments Returns {A} a.
Arguments Panics {A} p.

Definition obind {A B} (m : outcome A) (f : A -> outcome B) : outcome B :=
  match m with
  | Returns a => f a
  | Panics p => Panics p
  end.

#[global] Instance outcome_ret : MRet outcome := fun _ a => Returns a.
#[global] Instance outcome_bind : MBind outcome := fun _ _ f m => obind m f.

(** ** Go strings *)

Module GoString.

Definition len (s : string) : Z := Z.of_nat (String.length s).

(** [strings.Count(s, c)] for a one-byte separator. *)
Fixpoint Count (s : string) (c : ascii) : nat :=
  match s with
  | EmptyString => 0%nat
  | String a s' => ((if Ascii.eqb a c then 1 else 0) + Count s' c)%nat
  end.

(** [strings.Index(s, substr)]: the offset of the first occurrence, or -1. *)
Fixpoint Index (s substr : string) : Z :=
  if String.prefix substr s then 0
  else match s with
       | EmptyString => -1
       | String _ s' =>
           let r := Index s' substr in
           if r =? -1 then -1 else r + 1
       end.

(** [strconv.Itoa(i)] for a loop counter [i >= 0]. *)
Definition Itoa (i : nat) : string := NilZero.string_of_uint (Nat.to_uint i).

(** [s[lo:hi]]: panics unless [0 <= lo <= hi <= len(s)]. *)
Definition slice (s : string) (lo hi : Z) : outcome string :=
  if (0 <=? lo) && (lo <=? hi) && (hi <=? len s)
  then Returns (String.substring (Z.to_nat lo) (Z.to_nat (hi - lo)) s)
  else Panics (SliceBoundsOutOfRange lo hi (len s)).

(** [s[lo:]] *)
Definition slice_from (s : string) (lo : Z) : outcome string :=
  slice s lo (len s).

(** [s[:hi]] *)
Definition slice_to (s : string) (hi : Z) : outcome string :=
  slice s 0 hi.

Definition lower_ascii (a : ascii) : ascii :=
  let n := Ascii.N_of_ascii a in
  if ((65 <=? n) && (n <=? 90))%N then Ascii.ascii_of_N (n + 32) else a.

(** [strings.ToLower(s)] on ASCII text: the letters A-Z are mapped to
    a-z and every other byte is kept. *)
Fixpoint ToLower (s : string) : string :=
  match s with
  | EmptyString => EmptyString
  | String a s' => String (lower_ascii a) (ToLower s')
  end.

End GoString.
Import GoString.

(** [xs[i]] on a slice: panics when [i] is out of range. *)
Definition index {A} (xs : list A) (i : Z) : outcome A :=
  if (0 <=? i) && (i <? Z.of_nat (length xs))
  then match xs !! Z.to_nat i with
       | Some x => Returns x
       | None => Panics (IndexOutOfRange i (Z.of_nat (length xs)))
       end
  else Panics (IndexOutOfRange i (Z.of_nat (length xs))).

(** [xs[i] = v] on a slice. *)
Definition store {A} (xs : list A) (i : Z) (v : A) : outcome (list A) :=
  if (0 <=? i) && (i <? Z.of_nat (length xs))
  then Returns (<[Z.to_nat i := v]> xs)
  else Panics (IndexOutOfRange i (Z.of_nat (length xs))).

(** ** Plural rules and the locale provider (package [locales]) *)

Inductive PluralRule : Type :=
| PluralRuleUnknown
| PluralRuleZero
| PluralRuleOne
| PluralRuleTwo
| PluralRuleFew
| PluralRuleMany
| PluralRuleOther.

#[global] Instance PluralRule_eq_dec : EqDecision PluralRule.
Proof. solve_decision. Defined.

(** The rule's integer value ([iota] order), used as the slot index. *)
Definition rule_index (r : PluralRule) : Z :=
  match r with
  | PluralRuleUnknown => 0
  | PluralRuleZero => 1
  | PluralRuleOne => 2
  | PluralRuleTwo => 3
  | PluralRuleFew => 4
  | PluralRuleMany => 5
  | PluralRuleOther => 6
  end.

(** [PluralRule.String()] *)
Definition PluralRule_String (r : PluralRule) : string :=
  match r with
  | PluralRuleUnknown => "Unknown"
  | PluralRuleZero => "Zero"
  | PluralRuleOne => "One"
  | PluralRuleTwo => "Two"
  | PluralRuleFew => "Few"
  | PluralRuleMany => "Many"
  | PluralRuleOther => "Other"
  end.

(** [locales.PluralRule(i)] for a slot index [i]. *)
Definition rule_of_index (i : nat) : option PluralRule :=
  match i with
  | 0 => Some PluralRuleUnknown
  | 1 => Some PluralRuleZero
  | 2 => Some PluralRuleOne
  | 3 => Some PluralRuleTwo
  | 4 => Some PluralRuleFew
  | 5 => Some PluralRuleMany
  | 6 => Some PluralRuleOther
  | _ => None
  end%nat.

(** [float64] and [uint64] arguments are only handed on to the locale. *)
Definition float64 : Type := Z.
Definition uint64 : Type := N.

(** The part of the [locales.Translator] interface the engine calls. *)
Record LocaleTranslator : Type := {
  Locale : string;
  PluralsCardinal : list PluralRule;
  PluralsOrdinal : list PluralRule;
  PluralsRange : list PluralRule;
  CardinalPluralRule : float64 -> uint64 -> PluralRule;
  OrdinalPluralRule : float64 -> uint64 -> PluralRule;
  RangePluralRule : float64 -> uint64 -> float64 -> uint64 -> PluralRule
}.

(** ** Keys and errors *)

(** An [interface{}] key: a string, or a value of another type. *)
Inductive iface : Type :=
| IString (s : string)
| IInt (n : Z).

#[global] Instance iface_eq_dec : EqDecision iface.
Proof. solve_decision. Defined.

#[global] Instance iface_countable : Countable iface.
Proof.
  refine (inj_countable'
            (fun k => match k with IString s => inl s | IInt n => inr n end)
            (fun x => match x with inl s => IString s | inr n => IInt n end) _).
  by intros [].
Defined.

(** [k.(string)] *)
Definition as_string (k : iface) : option string :=
  match k with
  | IString s => Some s
  | IInt _ => None
  end.

Inductive error : Type :=
| ErrKeyIsNotString
| ErrUnknownTranslation (Key : string)
| ErrConflictingTranslation (Loc Key : string) (Rule : PluralRule) (Text : string)
| ErrRangeTranslation (Text : string)
| ErrOrdinalTranslation (Text : string)
| ErrCardinalTranslation (Text : string)
| ErrMissingPluralTranslation (Loc Key : string) (Rule : PluralRule)
    (TranslationType : string)
| ErrMissingBrace (Loc : string) (Key : iface) (Text : string)
| ErrBadParamSyntax (Loc Param Key Text : string)
| ErrLocaleNotRegistered (Loc : string)
| ErrInvalidRuleType (RuleType : string).

#[global] Instance error_eq_dec : EqDecision error.
Proof. solve_decision. Defined.

(** ** The translator *)

Definition paramZero : string := "{0}".
Definition paramOne : string := "{1}".
Definition unknownTranslation : string := EmptyString.

Record transText : Type := mkTransText {
  text : string;
  indexes : list Z
}.

#[global] Instance transText_eq_dec : EqDecision transText.
Proof. solve_decision. Defined.

(** A plural slot array: index = rule value, [None] = nil pointer. *)
Abbreviation slots := (list (option transText)).

Record translator : Type := mkTranslator {
  locale : LocaleTranslator;
  translations : gmap iface transText;
  cardinalTanslations : gmap iface slots;
  ordinalTanslations : gmap iface slots;
  rangeTanslations : gmap iface slots
}.

Definition newTranslator (trans : LocaleTranslator) : translator :=
  {| locale := trans;
     translations := ∅;
     cardinalTanslations := ∅;
     ordinalTanslations := ∅;
     rangeTanslations := ∅ |}.

Definition with_translations (t : translator) (m : gmap iface transText) :=
  {| locale := locale t;
     translations := m;
     cardinalTanslations := cardinalTanslations t;
     ordinalTanslations := ordinalTanslations t;
     rangeTanslations := rangeTanslations t |}.

(** *** Add *)

(** The loop [for i := 0; i < lb; i++] of [Add], with [n] iterations left. *)
Fixpoint Add_loop (t : translator) (key text : string) (n i : nat)
    (idxs : list Z) : list Z + error :=
  match n with
  | 0%nat => inl idxs
  | S n' =>
      let s := "{" +:+ Itoa i +:+ "}" in
      let idx := Index text s in
      if idx =? -1
      then inr (ErrBadParamSyntax (Locale (locale t)) s key text)
      else Add_loop t key text n' (S i) (idxs ++ [idx; idx + len s])
  end.

Definition Add (t : translator) (k : iface) (text : string) (override : bool)
    : outcome (translator * option error) :=
  match as_string k with
  | None => Returns (t, Some ErrKeyIsNotString)
  | Some key =>
      if bool_decide (is_Some (translations t !! IString key)) && negb override
      then Returns (t, Some (ErrConflictingTranslation
                               (Locale (locale t)) key PluralRuleUnknown text))
      else
        let lb := Count text "{" in
        let rb := Count text "}" in
        if negb (lb =? rb)%nat
        then Returns (t, Some (ErrMissingBrace (Locale (locale t)) (IString key) text))
        else
          match Add_loop t key text lb 0 [] with
          | inr e => Returns (t, Some e)
          | inl idxs =>
              Returns (with_translations t
                         (<[IString key := mkTransText text idxs]> (translations t)),
                       None)
          end
  end.

(** *** AddCardinal, AddOrdinal, AddRange

    The three Go functions share their text up to the category: the rule
    list consulted, the map written, the error type and its messages, and
    for the range category the second placeholder.  [addPlural] is that
    text with the category as an argument. *)

Inductive category : Type := Cardinal | Ordinal | Range.

#[global] Instance category_eq_dec : EqDecision category.
Proof. solve_decision. Defined.

Definition plurals (c : category) (l : LocaleTranslator) : list PluralRule :=
  match c with
  | Cardinal => PluralsCardinal l
  | Ordinal => PluralsOrdinal l
  | Range => PluralsRange l
  end.

Definition pluralTanslations (c : category) (t : translator)
    : gmap iface slots :=
  match c with
  | Cardinal => cardinalTanslations t
  | Ordinal => ordinalTanslations t
  | Range => rangeTanslations t
  end.

Definition with_pluralTanslations (c : category) (t : translator)
    (m : gmap iface slots) : translator :=
  match c with
  | Cardinal =>
      {| locale := locale t; translations := translations t;
         cardinalTanslations := m;
         ordinalTanslations := ordinalTanslations t;
         rangeTanslations := rangeTanslations t |}
  | Ordinal =>
      {| locale := locale t; translations := translations t;
         cardinalTanslations := cardinalTanslations t;
         ordinalTanslations := m;
         rangeTanslations := rangeTanslations t |}
  | Range =>
      {| locale := locale t; translations := translations t;
         cardinalTanslations := cardinalTanslations t;
         ordinalTanslations := ordinalTanslations t;
         rangeTanslations := m |}
  end.

(** The category's error type. *)
Definition ErrPluralTranslation (c : category) (msg : string) : error :=
  match c with
  | Cardinal => ErrCardinalTranslation msg
  | Ordinal => ErrOrdinalTranslation msg
  | Range => ErrRangeTranslation msg
  end.

Definition category_word (c : category) : string :=
  match c with
  | Cardinal => "cardinal"
  | Ordinal => "ordinal"
  | Range => "range"
  end.

(** The [fmt.Sprintf] texts of the three functions. *)
Definition msg_rule_missing (c : category) (t : translator) (key text : string)
    (rule : PluralRule) : string :=
  category_word c +:+ " plural rule '" +:+ PluralRule_String rule
    +:+ "' does not exist for locale '" +:+ Locale (locale t)
    +:+ "' key: '" +:+ key +:+ "' text: '" +:+ text +:+ "'".

Definition msg_param_missing (c : category) (t : translator) (key text : string)
    (param : string) : string :=
  "parameter '" +:+ param +:+ "' not found, " +:+
  match c, String.eqb param paramZero with
  | Cardinal, _ => "may want to use 'Add' instead of 'AddCardinal'. "
  | Ordinal, _ => "may want to use 'Add' instead of 'AddOrdinal'. "
  | Range, true => "are you sure you're adding a Range Translation?  "
  | Range, false => "a Range Translation requires two parameters. "
  end +:+ "locale: '" +:+ Locale (locale t)
    +:+ "' key: '" +:+ key +:+ "' text: '" +:+ text +:+ "'".

(** [tarr[rule] = v], seen through the map: the slice stored under [k]
    shares its backing array with [tarr]. *)
Definition set_slot (c : category) (t : translator) (k : iface)
    (tarr : slots) (rule : PluralRule) (v : option transText)
    : outcome (slots * translator) :=
  tarr' ← store tarr (rule_index rule) v;
  Returns (tarr',
           with_pluralTanslations c t (<[k := tarr']> (pluralTanslations c t))).

(** From [trans := &transText{...}] to the end of the function. *)
Definition addPlural_fill (c : category) (t : translator) (key text : string)
    (tarr : slots) (rule : PluralRule)
    : outcome (translator * option error) :=
  let k := IString key in
  let n := match c with Range => 4%nat | _ => 2%nat end in
  '(tarr, t) ← set_slot c t k tarr rule (Some (mkTransText text (replicate n 0)));
  let idx := Index text paramZero in
  if idx =? -1 then
    '(_, t) ← set_slot c t k tarr rule None;
    Returns (t, Some (ErrPluralTranslation c (msg_param_missing c t key text paramZero)))
  else
    match c with
    | Range =>
        let idx1 := Index text paramOne in
        if idx1 =? -1 then
          '(_, t) ← set_slot c t k tarr rule None;
          Returns (t, Some (ErrPluralTranslation c
                              (msg_param_missing c t key text paramOne)))
        else
          '(_, t) ← set_slot c t k tarr rule
             (Some (mkTransText text
                      [idx; idx + len paramZero; idx1; idx1 + len paramOne]));
          Returns (t, None)
    | _ =>
        '(_, t) ← set_slot c t k tarr rule
           (Some (mkTransText text [idx; idx + len paramZero]));
        Returns (t, None)
    end.

Definition addPlural (c : category) (t : translator) (k : iface) (text : string)
    (rule : PluralRule) (override : bool)
    : outcome (translator * option error) :=
  match as_string k with
  | None => Returns (t, Some ErrKeyIsNotString)
  | Some key =>
      (* verify plural rule exists for locale *)
      if negb (bool_decide (rule ∈ plurals c (locale t)))
      then Returns (t, Some (ErrPluralTranslation c (msg_rule_missing c t key text rule)))
      else
        match pluralTanslations c t !! IString key with
        | Some tarr =>
            (* verify not adding a conflicting record *)
            conflict ←
              (if (0 <? Z.of_nat (length tarr))
               then (slot ← index tarr (rule_index rule);
                     Returns (bool_decide (is_Some slot) && negb override))
               else Returns false);
            if conflict : bool
            then Returns (t, Some (ErrConflictingTranslation
                                     (Locale (locale t)) key rule text))
            else addPlural_fill c t key text tarr rule
        | None =>
            let tarr := replicate 7 None in
            let t := with_pluralTanslations c t
                       (<[IString key := tarr]> (pluralTanslations c t)) in
            addPlural_fill c t key text tarr rule
        end
  end.

Definition AddCardinal := addPlural Cardinal.
Definition AddOrdinal := addPlural Ordinal.
Definition AddRange := addPlural Range.

(** *** T, C, O, R *)

(** The loop of [T]: [idxs] is what is left of [trans.indexes] from
    position [i] on, and [n] is [len(trans.indexes)]. *)
Fixpoint T_loop (txt : string) (params : list string) (idxs : list Z)
    (i n start count : Z) (b : string) : outcome (string * Z) :=
  match idxs with
  | [] => Returns (b, start)
  | e :: rest =>
      seg ← slice txt start e;
      p ← index params count;
      match rest with
      | [] => Panics (IndexOutOfRange (i + 1) n)
      | s :: rest' =>
          T_loop txt params rest' (i + 2) n s (count + 1) (b +:+ seg +:+ p)
      end
  end.

Definition T (t : translator) (k : iface) (params : list string)
    : outcome (string * option error) :=
  match as_string k with
  | None => Returns (unknownTranslation, Some ErrKeyIsNotString)
  | Some key =>
      match translations t !! IString key with
      | None => Returns (unknownTranslation, Some (ErrUnknownTranslation key))
      | Some trans =>
          '(b, start) ← T_loop (text trans) params (indexes trans)
                          0 (Z.of_nat (length (indexes trans))) 0 0 EmptyString;
          tail ← slice_from (text trans) start;
          Returns (b +:+ tail, None)
      end
  end.

(** [*p] for a slot. *)
Definition deref (slot : option transText) : outcome transText :=
  match slot with
  | Some trans => Returns trans
  | None => Panics NilDereference
  end.

(** The splice shared by [C] and [O]. *)
Definition splice1 (trans : transText) (param : string) : outcome string :=
  i0 ← index (indexes trans) 0;
  head ← slice_to (text trans) i0;
  i1 ← index (indexes trans) 1;
  tail ← slice_from (text trans) i1;
  Returns (head +:+ param +:+ tail).

Definition splice2 (trans : transText) (param1 param2 : string) : outcome string :=
  i0 ← index (indexes trans) 0;
  head ← slice_to (text trans) i0;
  i1 ← index (indexes trans) 1;
  i2 ← index (indexes trans) 2;
  mid ← slice (text trans) i1 i2;
  i3 ← index (indexes trans) 3;
  tail ← slice_from (text trans) i3;
  Returns (head +:+ param1 +:+ mid +:+ param2 +:+ tail).

Definition C (t : translator) (k : iface) (num : float64) (digits : uint64)
    (param : string) : outcome (string * option error) :=
  match as_string k with
  | None => Returns (unknownTranslation, Some ErrKeyIsNotString)
  | Some key =>
      match cardinalTanslations t !! IString key with
      | None => Returns (unknownTranslation, Some (ErrUnknownTranslation key))
      | Some tarr =>
          let rule := CardinalPluralRule (locale t) num digits in
          slot ← index tarr (rule_index rule);
          trans ← deref slot;
          b ← splice1 trans param;
          Returns (b, None)
      end
  end.

Definition O (t : translator) (k : iface) (num : float64) (digits : uint64)
    (param : string) : outcome (string * option error) :=
  match as_string k with
  | None => Returns (unknownTranslation, Some ErrKeyIsNotString)
  | Some key =>
      match ordinalTanslations t !! IString key with
      | None => Returns (unknownTranslation, Some (ErrUnknownTranslation key))
      | Some tarr =>
          let rule := OrdinalPluralRule (locale t) num digits in
          slot ← index tarr (rule_index rule);
          trans ← deref slot;
          b ← splice1 trans param;
          Returns (b, None)
      end
  end.

Definition R (t : translator) (k : iface) (num1 : float64) (digits1 : uint64)
    (num2 : float64) (digits2 : uint64) (param1 param2 : string)
    : outcome (string * option error) :=
  match as_string k with
  | None => Returns (unknownTranslation, Some ErrKeyIsNotString)
  | Some key =>
      match rangeTanslations t !! IString key with
      | None => Returns (unknownTranslation, Some (ErrUnknownTranslation key))
      | Some tarr =>
          let rule := RangePluralRule (locale t) num1 digits1 num2 digits2 in
          slot ← index tarr (rule_index rule);
          trans ← deref slot;
          b ← splice2 trans param1 param2;
          Returns (b, None)
      end
  end.

(** *** VerifyTranslations *)

(** The [TranslationType] written into [ErrMissingPluralTranslation]. *)
Definition translationType (c : category) : string :=
  match c with
  | Cardinal => "plural"
  | Ordinal => "ordinal"
  | Range => "range"
  end.

(** [for _, rule := range t.PluralsX() { if v[rule] == nil {...} }] *)
Fixpoint verify_rules (t : translator) (c : category) (key : string)
    (v : slots) (rules : list PluralRule) : outcome (option error) :=
  match rules with
  | [] => Returns None
  | rule :: rest =>
      slot ← index v (rule_index rule);
      match slot with
      | None => Returns (Some (ErrMissingPluralTranslation
                                 (Locale (locale t)) key rule (translationType c)))
      | Some _ => verify_rules t c key v rest
      end
  end.

(** [for k, v := range t.xTanslations {...}], visiting [entries] in order. *)
Fixpoint verify_entries (t : translator) (c : category)
    (entries : list (iface * slots)) : outcome (option error) :=
  match entries with
  | [] => Returns None
  | (k, v) :: rest =>
      match as_string k with
      | None => Returns (Some ErrKeyIsNotString)
      | Some key =>
          r ← verify_rules t c key v (plurals c (locale t));
          match r with
          | Some e => Returns (Some e)
          | None => verify_entries t c rest
          end
      end
  end.

(** The visiting orders of one call: one list per map ranged over. *)
Record visit : Type := mkVisit {
  visit_plain : list (iface * transText);
  visit_cardinal : list (iface * slots);
  visit_ordinal : list (iface * slots);
  visit_range : list (iface * slots)
}.

(** [v] lists each map of [t] once, in some order. *)
Definition visits (t : translator) (v : visit) : Prop :=
  visit_plain v ≡ₚ map_to_list (translations t) ∧
  visit_cardinal v ≡ₚ map_to_list (cardinalTanslations t) ∧
  visit_ordinal v ≡ₚ map_to_list (ordinalTanslations t) ∧
  visit_range v ≡ₚ map_to_list (rangeTanslations t).

(** The order [map_to_list] happens to give. *)
Definition visit_default (t : translator) : visit :=
  {| visit_plain := map_to_list (translations t);
     visit_cardinal := map_to_list (cardinalTanslations t);
     visit_ordinal := map_to_list (ordinalTanslations t);
     visit_range := map_to_list (rangeTanslations t) |}.

Definition VerifyTranslations (t : translator) (v : visit)
    : outcome (option error) :=
  r ← verify_entries t Cardinal (visit_cardinal v);
  match r with
  | Some e => Returns (Some e)
  | None =>
      r ← verify_entries t Ordinal (visit_ordinal v);
      match r with
      | Some e => Returns (Some e)
      | None => verify_entries t Range (visit_range v)
      end
  end.

(** ** The registry (universalTranslator.go)

    Only the map of registered translators is modelled.  The [fallback]
    pointer is read by none of the functions below except as the value
    [FindTranslator] returns with [found = false], which its caller here
    discards. *)

Record UniversalTranslator : Type := mkUniversalTranslator {
  translators : gmap string translator
}.

(** [NewUniversalTranslator(fallback, supportedLocales...)], the
    [translators] map it builds. *)
Definition NewUniversalTranslator (supportedLocales : list LocaleTranslator)
    : UniversalTranslator :=
  {| translators :=
       foldl (fun m v => <[ToLower (Locale v) := newTranslator v]> m)
             ∅ supportedLocales |}.

(** [FindTranslator(locales...)]: the map key of the translator found,
    or [None] for [(t.fallback, false)]. *)
Fixpoint FindTranslator (ut : UniversalTranslator) (locales : list string)
    : option string :=
  match locales with
  | [] => None
  | l :: rest =>
      if bool_decide (is_Some (translators ut !! ToLower l))
      then Some (ToLower l)
      else FindTranslator ut rest
  end.

(** ** Import and export *)

Definition RuleTypePlain : string := "plain".
Definition RuleTypeCardinal : string := "cardinal".
Definition RuleTypeOrdinal : string := "ordinal".
Definition RuleTypeRange : string := "range".

Record translation : Type := mkTranslation {
  tLocale : string;
  OverrideExisting : bool;
  RuleType : string;
  Zero : string;
  One : string;
  Two : string;
  Few : string;
  Many : string;
  Other : string
}.

#[global] Instance translation_eq_dec : EqDecision translation.
Proof. solve_decision. Defined.

(** [&translation{}] *)
Definition translation_zero : translation :=
  mkTranslation EmptyString false EmptyString EmptyString EmptyString EmptyString EmptyString EmptyString EmptyString.

Definition set_tLocale (r : translation) (l : string) : translation :=
  mkTranslation l (OverrideExisting r) (RuleType r)
    (Zero r) (One r) (Two r) (Few r) (Many r) (Other r).

Definition set_RuleType (r : translation) (ty : string) : translation :=
  mkTranslation (tLocale r) (OverrideExisting r) ty
    (Zero r) (One r) (Two r) (Few r) (Many r) (Other r).

Definition set_Other (r : translation) (s : string) : translation :=
  mkTranslation (tLocale r) (OverrideExisting r) (RuleType r)
    (Zero r) (One r) (Two r) (Few r) (Many r) s.

(** The [switch] of [exportPlurals] on the lower-cased rule name. *)
Definition set_plural_field (r : translation) (name txt : string) : translation :=
  if String.eqb name "zero" then
    mkTranslation (tLocale r) (OverrideExisting r) (RuleType r)
      txt (One r) (Two r) (Few r) (Many r) (Other r)
  else if String.eqb name "one" then
    mkTranslation (tLocale r) (OverrideExisting r) (RuleType r)
      (Zero r) txt (Two r) (Few r) (Many r) (Other r)
  else if String.eqb name "two" then
    mkTranslation (tLocale r) (OverrideExisting r) (RuleType r)
      (Zero r) (One r) txt (Few r) (Many r) (Other r)
  else if String.eqb name "few" then
    mkTranslation (tLocale r) (OverrideExisting r) (RuleType r)
      (Zero r) (One r) (Two r) txt (Many r) (Other r)
  else if String.eqb name "many" then
    mkTranslation (tLocale r) (OverrideExisting r) (RuleType r)
      (Zero r) (One r) (Two r) (Few r) txt (Other r)
  else if String.eqb name "other" then set_Other r txt
  else r.

(** [locales.PluralRule(i).String()] for any slot index. *)
Definition rule_name (i : nat) : string :=
  match rule_of_index i with
  | Some r => PluralRule_String r
  | None => "PluralRule(" +:+ Itoa i +:+ ")"
  end.

(** [if _, ok := trans[key]; !ok { trans[key] = &translation{} }] *)
Definition ensure_record (trans : gmap string translation) (key : string)
    : gmap string translation :=
  match trans !! key with
  | Some _ => trans
  | None => <[key := translation_zero]> trans
  end.

(** [for i, plural := range pluralTrans {...}] from slot index [i] on,
    applied to the record of the key. *)
Fixpoint export_slots (r : translation) (l ruleType : string) (i : nat)
    (pluralTrans : slots) : translation :=
  match pluralTrans with
  | [] => r
  | None :: rest => export_slots r l ruleType (S i) rest
  | Some plural :: rest =>
      let r := set_RuleType (set_tLocale r l) ruleType in
      let r := set_plural_field r (ToLower (rule_name i)) (text plural) in
      export_slots r l ruleType (S i) rest
  end.

Fixpoint exportPlurals (trans : gmap string translation) (l ruleType : string)
    (entries : list (iface * slots)) : gmap string translation * option error :=
  match entries with
  | [] => (trans, None)
  | (k, pluralTrans) :: rest =>
      match as_string k with
      | None => (trans, Some ErrKeyIsNotString)
      | Some key =>
          let trans := ensure_record trans key in
          let trans :=
            match trans !! key with
            | Some r => <[key := export_slots r l ruleType 0 pluralTrans]> trans
            | None => trans
            end in
          exportPlurals trans l ruleType rest
      end
  end.

(** The loop over the plain [translations] map in [Export]. *)
Fixpoint export_plain (trans : gmap string translation) (l : string)
    (entries : list (iface * transText))
    : gmap string translation * option error :=
  match entries with
  | [] => (trans, None)
  | (k, v) :: rest =>
      match as_string k with
      | None => (trans, Some ErrKeyIsNotString)
      | Some key =>
          let trans := ensure_record trans key in
          let trans :=
            match trans !! key with
            | Some r => <[key := set_Other (set_tLocale r l) (text v)]> trans
            | None => trans
            end in
          export_plain trans l rest
      end
  end.

(** The body of [Export]'s loop for one registered locale, up to the table
    handed to the TOML encoder; an error ends [Export] before anything is
    written for this locale. *)
Definition Export_locale (t : translator) (v : visit)
    : gmap string translation + error :=
  let l := Locale (locale t) in
  match export_plain ∅ l (visit_plain v) with
  | (_, Some e) => inr e
  | (trans, None) =>
      match exportPlurals trans l RuleTypeCardinal (visit_cardinal v) with
      | (_, Some e) => inr e
      | (trans, None) =>
          match exportPlurals trans l RuleTypeOrdinal (visit_ordinal v) with
          | (_, Some e) => inr e
          | (trans, None) =>
              match exportPlurals trans l RuleTypeRange (visit_range v) with
              | (_, Some e) => inr e
              | (trans, None) => inl trans
              end
          end
      end
  end.

(** Run [f] unless an error was already returned. *)
Definition and_then (m : outcome (translator * option error))
    (f : translator -> outcome (translator * option error))
    : outcome (translator * option error) :=
  '(t, e) ← m;
  match e with
  | Some _ => Returns (t, e)
  | None => f t
  end.

(** One guarded call: [addFn(key, field, rule, override)] unless the
    field is the empty string. *)
Definition add_field
    (addFn : translator -> iface -> string -> PluralRule -> bool ->
             outcome (translator * option error))
    (key field : string) (rule : PluralRule) (override : bool)
    (t : translator) : outcome (translator * option error) :=
  if String.eqb field EmptyString then Returns (t, None)
  else addFn t (IString key) field rule override.

(** The six guarded calls at the end of the loop body. *)
Definition add_fields
    (addFn : translator -> iface -> string -> PluralRule -> bool ->
             outcome (translator * option error))
    (key : string) (r : translation) (t : translator)
    : outcome (translator * option error) :=
  let ov := OverrideExisting r in
  and_then (and_then (and_then (and_then (and_then
    (add_field addFn key (Zero r) PluralRuleZero ov t)
    (add_field addFn key (One r) PluralRuleOne ov))
    (add_field addFn key (Two r) PluralRuleTwo ov))
    (add_field addFn key (Few r) PluralRuleFew ov))
    (add_field addFn key (Many r) PluralRuleMany ov))
    (add_field addFn key (Other r) PluralRuleOther ov).

(** What one record asks of the translator found for its locale. *)
Definition import_into (t : translator) (key : string) (r : translation)
    : outcome (translator * option error) :=
  let ruleType := ToLower (RuleType r) in
  if String.eqb ruleType EmptyString || String.eqb ruleType RuleTypePlain
  then Add t (IString key) (Other r) (OverrideExisting r)
  else if String.eqb ruleType RuleTypeCardinal then add_fields AddCardinal key r t
  else if String.eqb ruleType RuleTypeOrdinal then add_fields AddOrdinal key r t
  else if String.eqb ruleType RuleTypeRange then add_fields AddRange key r t
  else Returns (t, Some (ErrInvalidRuleType (RuleType r))).

(** One iteration of [for key, t := range trans]. *)
Definition import_record (ut : UniversalTranslator) (key : string)
    (r : translation) : outcome (UniversalTranslator * option error) :=
  match FindTranslator ut [tLocale r] with
  | None => Returns (ut, Some (ErrLocaleNotRegistered (tLocale r)))
  | Some lc =>
      match translators ut !! lc with
      | None => Panics NilDereference
      | Some t =>
          '(t', e) ← import_into t key r;
          Returns ({| translators := <[lc := t']> (translators ut) |}, e)
      end
  end.

(** [ImportFromReader] after the TOML decoder: [recs] is the decoded table
    in the order the loop visits it. *)
Fixpoint ImportFromReader (ut : UniversalTranslator)
    (recs : list (string * translation))
    : outcome (UniversalTranslator * option error) :=
  match recs with
  | [] => Returns (ut, None)
  | (key, r) :: rest =>
      '(ut', e) ← import_record ut key r;
      match e with
      | Some _ => Returns (ut', e)
      | None => ImportFromReader ut' rest
      end
  end.

(** ** Specification vocabulary *)

(** The entry at [(key, rule)] of a plural category; [None] when the key
    is absent or the slot is nil. *)
Definition slot_at (c : category) (t : translator) (key : string)
    (rule : PluralRule) : option transText :=
  match pluralTanslations c t !! IString key with
  | Some tarr =>
      match tarr !! Z.to_nat (rule_index rule) with
      | Some slot => slot
      | None => None
      end
  | None => None
  end.

(** The offsets [Add]'s loop computes, without the error value. *)
Fixpoint plain_offsets (text : string) (n i : nat) (idxs : list Z)
    : option (list Z) :=
  match n with
  | 0%nat => Some idxs
  | S n' =>
      let s := "{" +:+ Itoa i +:+ "}" in
      let idx := Index text s in
      if idx =? -1 then None
      else plain_offsets text n' (S i) (idxs ++ [idx; idx + len s])
  end.

(** The entry [Add] stores for a text, if it accepts the text. *)
Definition plain_compile (text : string) : option transText :=
  if (Count text "{" =? Count text "}")%nat
  then mkTransText text <$> plain_offsets text (Count text "{") 0 []
  else None.

(** The entry a plural add stores for a text, if it accepts the text. *)
Definition plural_compile (c : category) (text : string) : option transText :=
  let idx := Index text paramZero in
  if idx =? -1 then None
  else match c with
       | Range =>
           let idx1 := Index text paramOne in
           if idx1 =? -1 then None
           else Some (mkTransText text
                        [idx; idx + len paramZero; idx1; idx1 + len paramOne])
       | _ => Some (mkTransText text [idx; idx + len paramZero])
       end.

(** The placeholder a plural add reports as not found. *)
Definition missing_param (text : string) : string :=
  if Index text paramZero =? -1 then paramZero else paramOne.

(** The invariant of every translator built by the Add family. *)
Record wf (t : translator) : Prop := {
  wf_plain : forall k e, translations t !! k = Some e ->
      is_Some (as_string k) /\ plain_compile (text e) = Some e;
  wf_key : forall c k tarr, pluralTanslations c t !! k = Some tarr ->
      is_Some (as_string k);
  wf_len : forall c k tarr, pluralTanslations c t !! k = Some tarr ->
      length tarr = 7%nat;
  wf_nonempty : forall c k tarr, pluralTanslations c t !! k = Some tarr ->
      plurals c (locale t) <> [];
  wf_slot : forall c key rule e, slot_at c t key rule = Some e ->
      rule ∈ plurals c (locale t) /\ plural_compile c (text e) = Some e
}.

(** A test locale with the plural lists of English. *)
Definition en : LocaleTranslator :=
  {| Locale := "en";
     PluralsCardinal := [PluralRuleOne; PluralRuleOther];
     PluralsOrdinal := [PluralRuleOne; PluralRuleTwo; PluralRuleFew; PluralRuleOther];
     PluralsRange := [PluralRuleOne; PluralRuleOther];
     CardinalPluralRule :=
       fun num digits => if (num =? 1) && (digits =? 0)%N
                         then PluralRuleOne else PluralRuleOther;
     OrdinalPluralRule := fun num digits => PluralRuleOther;
     RangePluralRule := fun num1 digits1 num2 digits2 => PluralRuleOther |}.

(** The translator an accepted or rolled-back plural add leaves. *)
Definition put_slot (c : category) (t : translator) (key : string)
    (rule : PluralRule) (v : option transText) : translator :=
  let m := pluralTanslations c t in
  let tarr := default (replicate 7 None) (m !! IString key) in
  with_pluralTanslations c t
    (<[IString key := <[Z.to_nat (rule_index rule) := v]> tarr]> m).

(** Every way [Add] can end. *)
Inductive Add_result (t : translator) (key text : string) (ov : bool)
    : translator * option error -> Prop :=
| Add_conflict :
    is_Some (translations t !! IString key) -> ov = false ->
    Add_result t key text ov
      (t, Some (ErrConflictingTranslation (Locale (locale t)) key
                  PluralRuleUnknown text))
| Add_missing_brace :
    (translations t !! IString key = None \/ ov = true) ->
    Count text "{" <> Count text "}" ->
    Add_result t key text ov
      (t, Some (ErrMissingBrace (Locale (locale t)) (IString key) text))
| Add_bad_param p :
    (translations t !! IString key = None \/ ov = true) ->
    Count text "{" = Count text "}" ->
    plain_compile text = None ->
    Add_result t key text ov
      (t, Some (ErrBadParamSyntax (Locale (locale t)) p key text))
| Add_stored e :
    (translations t !! IString key = None \/ ov = true) ->
    plain_compile text = Some e ->
    Add_result t key text ov
      (with_translations t (<[IString key := e]> (translations t)), None).

(** The translator a call leaves behind ([t] itself after a panic). *)
Definition after (t : translator) (m : outcome (translator * option error))
    : translator :=
  match m with
  | Returns (t', _) => t'
  | Panics _ => t
  end.

(** The text has no [{0}], or for the range category no [{1}]. *)
Definition lacks_placeholder (c : category) (txt : string) : Prop :=
  Index txt paramZero = -1 \/ (c = Range /\ Index txt paramOne = -1).

(** The translators of the examples. *)
Definition t_empty : translator := newTranslator en.

Definition t_days : translator :=
  after t_empty (AddCardinal t_empty (IString "days") "{0} day" PluralRuleOne false).

Definition t_greeting : translator :=
  after t_empty (Add t_empty (IString "greeting") "Hello {0}" false).

Definition t_swapped : translator :=
  after t_empty (Add t_empty (IString "k") "{1} {0}" false).

Definition t_range_swapped : translator :=
  after t_empty (AddRange t_empty (IString "k") "{1}-{0}" PluralRuleOther false).

(** Where an Add-family call writes: the plain map, or one slot of a
    plural category. *)
Inductive target : Type :=
| Plain
| Plural (c : category) (rule : PluralRule).

Definition entry_at (tg : target) (t : translator) (key : string)
    : option transText :=
  match tg with
  | Plain => translations t !! IString key
  | Plural c rule => slot_at c t key rule
  end.

Definition add_to (tg : target) (t : translator) (k : iface) (txt : string)
    (override : bool) : outcome (translator * option error) :=
  match tg with
  | Plain => Add t k txt override
  | Plural c rule => addPlural c t k txt rule override
  end.

Definition compile (tg : target) (txt : string) : option transText :=
  match tg with
  | Plain => plain_compile txt
  | Plural c _ => plural_compile c txt
  end.

(** The [Rule] field of [ErrConflictingTranslation]; [Add] leaves it at
    the zero value. *)
Definition target_rule (tg : target) : PluralRule :=
  match tg with
  | Plain => PluralRuleUnknown
  | Plural _ rule => rule
  end.

(** What [T] returns for a stored entry. *)
Definition render_plain (trans : transText) (params : list string)
    : outcome (string * option error) :=
  '(b, start) ← T_loop (text trans) params (indexes trans)
                  0 (Z.of_nat (length (indexes trans))) 0 0 EmptyString;
  tail ← slice_from (text trans) start;
  Returns (b +:+ tail, None).


(** [idxs] is a sequence of pairs [(lo, hi)], each a non-empty span
    inside [txt]. *)
Fixpoint spans (txt : string) (idxs : list Z) : Prop :=
  match idxs with
  | [] => True
  | lo :: hi :: rest => 0 <= lo /\ lo < hi <= len txt /\ spans txt rest
  | _ => False
  end.

(** [v[rule] == nil] *)
Definition slot_is_nil (v : slots) (rule : PluralRule) : bool :=
  match v !! Z.to_nat (rule_index rule) with
  | Some (Some _) => false
  | _ => true
  end.

(** The slots [VerifyTranslations] looks at for one category, in the
    order it looks at them: key by key as visited, and for each key the
    rules of the locale's list in order. *)
Definition checks (t : translator) (c : category)
    (entries : list (iface * slots))
    : list (category * string * slots * PluralRule) :=
  '(k, v) ← entries;
  match as_string k with
  | Some key => (fun rule => (c, key, v, rule)) <$> plurals c (locale t)
  | None => []
  end.

Definition all_checks (t : translator) (v : visit)
    : list (category * string * slots * PluralRule) :=
  checks t Cardinal (visit_cardinal v)
  ++ checks t Ordinal (visit_ordinal v)
  ++ checks t Range (visit_range v).

(** The first empty slot of the traversal, if there is one. *)
Definition first_empty_slot (t : translator) (v : visit)
    : option (category * string * slots * PluralRule) :=
  List.find (fun '(c, key, v, rule) => slot_is_nil v rule) (all_checks t v).

(** Every stored key has an entry for every rule of the locale's list. *)
Definition fully_populated (t : translator) : Prop :=
  forall c key rule,
    is_Some (pluralTanslations c t !! IString key) ->
    rule ∈ plurals c (locale t) ->
    is_Some (slot_at c t key rule).

(** The scenario of the specification: key "days" with only the [other]
    form, then with both forms. *)
Definition t_days_other : translator :=
  after t_empty
    (AddCardinal t_empty (IString "days") "{0} days" PluralRuleOther false).

Definition t_days_both : translator :=
  after t_days_other
    (AddCardinal t_days_other (IString "days") "{0} day" PluralRuleOne false).

(** The error [VerifyTranslations] builds for an empty slot. *)
Definition missing_error (t : translator)
    (x : option (category * string * slots * PluralRule)) : option error :=
  match x with
  | Some (c, key, _, rule) =>
      Some (ErrMissingPluralTranslation (Locale (locale t)) key rule (translationType c))
  | None => None
  end.

(** ** The calls of an import

    [ImportFromReader] amounts to a sequence of Add-family calls, each on
    the translator registered under some map key, interleaved with the
    two failures it raises itself. *)

Record call : Type := mkCall {
  call_locale : string;
  call_target : target;
  call_key : string;
  call_text : string;
  call_override : bool
}.

Inductive step : Type :=
| StepCall (cl : call)
| StepFail (e : error).

(** One Add-family call on the registered translator, written back. *)
Definition do_call (ut : UniversalTranslator) (cl : call)
    : outcome (UniversalTranslator * option error) :=
  match translators ut !! call_locale cl with
  | None => Panics NilDereference
  | Some t =>
      '(t', e) ← add_to (call_target cl) t (IString (call_key cl))
                   (call_text cl) (call_override cl);
      Returns ({| translators := <[call_locale cl := t']> (translators ut) |}, e)
  end.

(** Run the steps in order and stop at the first error. *)
Fixpoint run_steps (ut : UniversalTranslator) (steps : list step)
    : outcome (UniversalTranslator * option error) :=
  match steps with
  | [] => Returns (ut, None)
  | StepFail e :: _ => Returns (ut, Some e)
  | StepCall cl :: rest =>
      '(ut', e) ← do_call ut cl;
      match e with
      | Some _ => Returns (ut', e)
      | None => run_steps ut' rest
      end
  end.

Definition field_call (lc : string) (c : category) (key : string)
    (override : bool) (rule : PluralRule) (field : string) : list call :=
  if String.eqb field EmptyString then []
  else [mkCall lc (Plural c rule) key field override].

(** The calls for the six plural fields of a record, in field order. *)
Definition field_calls (lc : string) (c : category) (key : string)
    (r : translation) : list call :=
  let ov := OverrideExisting r in
  field_call lc c key ov PluralRuleZero (Zero r)
  ++ field_call lc c key ov PluralRuleOne (One r)
  ++ field_call lc c key ov PluralRuleTwo (Two r)
  ++ field_call lc c key ov PluralRuleFew (Few r)
  ++ field_call lc c key ov PluralRuleMany (Many r)
  ++ field_call lc c key ov PluralRuleOther (Other r).

(** The steps of one record. *)
Definition record_steps (ut : UniversalTranslator) (key : string)
    (r : translation) : list step :=
  match FindTranslator ut [tLocale r] with
  | None => [StepFail (ErrLocaleNotRegistered (tLocale r))]
  | Some lc =>
      let ruleType := ToLower (RuleType r) in
      if String.eqb ruleType EmptyString || String.eqb ruleType RuleTypePlain
      then [StepCall (mkCall lc Plain key (Other r) (OverrideExisting r))]
      else if String.eqb ruleType RuleTypeCardinal
      then StepCall <$> field_calls lc Cardinal key r
      else if String.eqb ruleType RuleTypeOrdinal
      then StepCall <$> field_calls lc Ordinal key r
      else if String.eqb ruleType RuleTypeRange
      then StepCall <$> field_calls lc Range key r
      else [StepFail (ErrInvalidRuleType (RuleType r))]
  end.

(** The steps of a whole import, in the order the records are visited. *)
Definition plan (ut : UniversalTranslator) (recs : list (string * translation))
    : list step :=
  '(key, r) ← recs; record_steps ut key r.

(** The calls among the steps. *)
Definition calls (steps : list step) : list call :=
  omap (fun s => match s with StepCall cl => Some cl | StepFail _ => None end) steps.

(** The entry a call is aimed at, in the current registry. *)
Definition entry_of (ut : UniversalTranslator) (cl : call) : option transText :=
  match translators ut !! call_locale cl with
  | Some t => entry_at (call_target cl) t (call_key cl)
  | None => None
  end.

(** The entry the call committed is in the registry. *)
Definition committed (ut : UniversalTranslator) (cl : call) : Prop :=
  is_Some (entry_of ut cl)
  /\ entry_of ut cl = compile (call_target cl) (call_text cl).

(** Every registered translator satisfies the invariant. *)
Definition wf_registry (ut : UniversalTranslator) : Prop :=
  forall lc t, translators ut !! lc = Some t -> wf t.

(** The calls of one record, threaded through the translator. *)
Fixpoint run_calls_on (t : translator) (cls : list call)
    : outcome (translator * option error) :=
  match cls with
  | [] => Returns (t, None)
  | cl :: rest =>
      and_then (add_to (call_target cl) t (IString (call_key cl))
                  (call_text cl) (call_override cl))
               (fun t' => run_calls_on t' rest)
  end.

(** The same locales are registered. *)
Definition same_locales (ut ut' : UniversalTranslator) : Prop :=
  forall lc, is_Some (translators ut !! lc) <-> is_Some (translators ut' !! lc).

(** What a call writes to, up to the translator: target and key. *)
Definition call_id (cl : call) : target * string :=
  (call_target cl, call_key cl).

(** The registry a run leaves behind ([ut] itself after a panic). *)
Definition after_import (ut : UniversalTranslator)
    (m : outcome (UniversalTranslator * option error)) : UniversalTranslator :=
  match m with
  | Returns (ut', _) => ut'
  | Panics _ => ut
  end.

(** A plain record for the test locale. *)
Definition plain_record (txt : string) : translation :=
  mkTranslation "en" false EmptyString
    EmptyString EmptyString EmptyString EmptyString EmptyString txt.

Definition ut_en : UniversalTranslator := NewUniversalTranslator [en].

(** Three records; the second has unbalanced braces. *)
Definition recs_bad_second : list (string * translation) :=
  [("a", plain_record "Hi {0}");
   ("b", plain_record "bad {0");
   ("c", plain_record "never")].

Definition call_a : call := mkCall "en" Plain "a" "Hi {0}" false.
Definition call_b : call := mkCall "en" Plain "b" "bad {0" false.
Definition call_c : call := mkCall "en" Plain "c" "never" false.

Definition ut_en_a : UniversalTranslator := after_import ut_en (do_call ut_en call_a).

(** ** Round trip vocabulary *)










(** The rule of a plural target is one of the locale's rules. *)
Definition rule_ok (l : LocaleTranslator) (tg : target) : Prop :=
  match tg with
  | Plain => True
  | Plural c rule => rule ∈ plurals c l
  end.

(** A verified store with one plain key and one cardinal key. *)
Definition t_sample : translator :=
  after t_days_both (Add t_days_both (IString "greeting") "Hello, {0}!" false).







(** ** Templates in index order *)

(** The placeholder number [i]. *)
Definition placeholder (i : nat) : string := "{" +:+ Itoa i +:+ "}".




(** The two offsets [Add] stores for the placeholder number [i]. *)
Definition span (txt : string) (i : nat) : list Z :=
  [Index txt (placeholder i); Index txt (placeholder i) + len (placeholder i)].




(** ** Stores built by the Add family *)

(** The translators a program can hold: [newTranslator] followed by calls
    of [Add], [AddCardinal], [AddOrdinal] and [AddRange] that returned. *)
Inductive built : translator -> Prop :=
| built_new l : built (newTranslator l)
| built_add tg t k txt ov t' e :
    built t -> add_to tg t k txt ov = Returns (t', e) -> built t'.

(** A range entry with its placeholders in order. *)
Definition t_span : translator :=
  after t_empty (AddRange t_empty (IString "span") "{0}-{1} days" PluralRuleOther false).

(** ** What [Export] writes for a key

    The four loops of [Export] write to the record of a key one after the
    other: the plain loop, then [exportPlurals] for the cardinal, the
    ordinal and the range map. *)

Definition merge_plain (l : string) (r : option translation)
    (e : option transText) : option translation :=
  match e with
  | Some e => Some (set_Other (set_tLocale (default translation_zero r) l) (text e))
  | None => r
  end.

Definition merge_plural (l ruleType : string) (r : option translation)
    (tarr : option slots) : option translation :=
  match tarr with
  | Some tarr => Some (export_slots (default translation_zero r) l ruleType 0 tarr)
  | None => r
  end.

Definition merged_record (t : translator) (key : string) : option translation :=
  let l := Locale (locale t) in
  merge_plural l RuleTypeRange
    (merge_plural l RuleTypeOrdinal
       (merge_plural l RuleTypeCardinal
          (merge_plain l None (translations t !! IString key))
          (cardinalTanslations t !! IString key))
       (ordinalTanslations t !! IString key))
    (rangeTanslations t !! IString key).



(** A record for a locale that is not registered, one with a rule type
    that does not exist, and a good one. *)
Definition recs_unregistered : list (string * translation) :=
  [("a", plain_record "Hi {0}");
   ("b", mkTranslation "fr" false EmptyString
           EmptyString EmptyString EmptyString EmptyString EmptyString "Salut")].

(** The same maps ranged over in the opposite order. *)
Definition visit_reverse (v : visit) : visit :=
  {| visit_plain := reverse (visit_plain v);
     visit_cardinal := reverse (visit_cardinal v);
     visit_ordinal := reverse (visit_ordinal v);
     visit_range := reverse (visit_range v) |}.

(** A store with two plain keys and the cardinal key of [t_sample]. *)
Definition t_two_keys : translator :=
  after t_sample (Add t_sample (IString "farewell") "Bye, {0}!" false).

(** The store a successful Add-family call leaves: the compiled entry
    written at the target. *)
Definition write (tg : target) (t : translator) (key : string) (e : transText)
    : translator :=
  match tg with
  | Plain => with_translations t (<[IString key := e]> (translations t))
  | Plural c rule => put_slot c t key rule (Some e)
  end.

(** Two plain records and a cardinal one, and the same in another order. *)
Definition recs_three : list (string * translation) :=
  [("a", plain_record "Hi {0}");
   ("days", mkTranslation "en" false "Cardinal"
              EmptyString "{0} day" EmptyString EmptyString EmptyString "{0} days");
   ("c", plain_record "never")].

Definition recs_three' : list (string * translation) :=
  [("c", plain_record "never");
   ("a", plain_record "Hi {0}");
   ("days", mkTranslation "en" false "Cardinal"
              EmptyString "{0} day" EmptyString EmptyString EmptyString "{0} days")].

Definition ut_three : UniversalTranslator :=
  after_import ut_en (ImportFromReader ut_en recs_three).

(** ** The registry with its fallback (universalTranslator.go)

    [UniversalTranslator] holds pointers: the translators in the map and
    the fallback may be one and the same object.  The objects created by
    [newTranslator] are the cells of [objects], a pointer is an index
    into it, and the nil pointer is [None].  The fallback argument of
    [NewUniversalTranslator] may be nil; the supported locales and the
    argument of [AddTranslator] are taken to be non-nil.  Logging is left
    out. *)

Module Registry.

(** A pointer to a translator object. *)
Abbreviation ptr := nat.

Record UniversalTranslator : Type := mkUniversalTranslator {
  objects : list translator;
  translators : gmap string ptr;
  fallback : option ptr
}.

Inductive ErrExistingTranslator : Type :=
| mkErrExistingTranslator (Loc : string).

(** [newTranslator(v)]: a new object and the pointer to it. *)
Definition alloc (ut : UniversalTranslator) (t : translator)
    : ptr * UniversalTranslator :=
  (length (objects ut),
   {| objects := objects ut ++ [t];
      translators := translators ut;
      fallback := fallback ut |}).

(** [t.translators[lc] = trans] *)
Definition set_translator (ut : UniversalTranslator) (lc : string) (trans : ptr)
    : UniversalTranslator :=
  {| objects := objects ut;
     translators := <[lc := trans]> (translators ut);
     fallback := fallback ut |}.

(** [t.fallback = trans] *)
Definition set_fallback (ut : UniversalTranslator) (trans : ptr)
    : UniversalTranslator :=
  {| objects := objects ut;
     translators := translators ut;
     fallback := Some trans |}.

(** [*p] for a translator pointer. *)
Definition object (ut : UniversalTranslator) (p : option ptr) : outcome translator :=
  match p with
  | None => Panics NilDereference
  | Some p =>
      match objects ut !! p with
      | Some t => Returns t
      | None => Panics NilDereference
      end
  end.

(** [for _, v := range supportedLocales {...}] *)
Fixpoint New_loop (fb : option LocaleTranslator) (ut : UniversalTranslator)
    (supportedLocales : list LocaleTranslator) : outcome UniversalTranslator :=
  match supportedLocales with
  | [] => Returns ut
  | v :: rest =>
      let '(trans, ut) := alloc ut (newTranslator v) in
      let ut := set_translator ut (ToLower (Locale v)) trans in
      match fb with
      | None => Panics NilDereference
      | Some f =>
          let ut := if String.eqb (Locale f) (Locale v)
                    then set_fallback ut trans else ut in
          New_loop fb ut rest
      end
  end.

Definition NewUniversalTranslator (fb : option LocaleTranslator)
    (supportedLocales : list LocaleTranslator) : outcome UniversalTranslator :=
  ut ← New_loop fb {| objects := []; translators := ∅; fallback := None |}
         supportedLocales;
  match fallback ut, fb with
  | None, Some f =>
      let '(trans, ut) := alloc ut (newTranslator f) in
      Returns (set_fallback ut trans)
  | _, _ => Returns ut
  end.

(** [FindTranslator(locales...)]: the pair [(trans, found)]. *)
Fixpoint FindTranslator (ut : UniversalTranslator) (locales : list string)
    : option ptr * bool :=
  match locales with
  | [] => (fallback ut, false)
  | l :: rest =>
      match translators ut !! ToLower l with
      | Some trans => (Some trans, true)
      | None => FindTranslator ut rest
      end
  end.

Definition GetTranslator (ut : UniversalTranslator) (l : string)
    : option ptr * bool :=
  match translators ut !! ToLower l with
  | Some trans => (Some trans, true)
  | None => (fallback ut, false)
  end.

Definition GetFallback (ut : UniversalTranslator) : option ptr := fallback ut.

Definition AddTranslator (ut : UniversalTranslator) (translator : LocaleTranslator)
    (override : bool)
    : outcome (UniversalTranslator * option ErrExistingTranslator) :=
  let lc := ToLower (Locale translator) in
  if bool_decide (is_Some (translators ut !! lc)) && negb override
  then Returns (ut, Some (mkErrExistingTranslator (Locale translator)))
  else
    let '(trans, ut') := alloc ut (newTranslator translator) in
    fb ← object ut' (fallback ut');
    if String.eqb (Locale (locale fb)) (Locale translator) then
      if negb override
      then Returns (ut, Some (mkErrExistingTranslator (Locale translator)))
      else Returns (set_translator (set_fallback ut' trans) lc trans, None)
    else Returns (set_translator ut' lc trans, None).

(** [for _, trans := range t.translators {...}], visiting [entries] in
    order; [vs] gives the order in which the translator behind a pointer
    ranges over its own maps. *)
Fixpoint verify_loop (ut : UniversalTranslator) (entries : list (string * ptr))
    (vs : ptr -> visit) : outcome (option error) :=
  match entries with
  | [] => Returns None
  | (_, p) :: rest =>
      trans ← object ut (Some p);
      err ← VerifyTranslations trans (vs p);
      match err with
      | Some e => Returns (Some e)
      | None => verify_loop ut rest vs
      end
  end.

Definition VerifyTranslations (ut : UniversalTranslator)
    (entries : list (string * ptr)) (vs : ptr -> visit) : outcome (option error) :=
  verify_loop ut entries vs.

(** The invariant: the map points to objects that exist and is keyed by
    their lower-cased locale names; the fallback points to an object;
    a registry without fallback has no translator. *)
Record wf (ut : UniversalTranslator) : Prop := {
  wf_translators : forall lc p, translators ut !! lc = Some p ->
      exists t, objects ut !! p = Some t /\ ToLower (Locale (locale t)) = lc;
  wf_fallback : forall p, fallback ut = Some p -> is_Some (objects ut !! p);
  wf_no_fallback : fallback ut = None -> translators ut = ∅
}.

(** The translator registered under a key, if any. *)
Definition registered (ut : UniversalTranslator) (lc : string) : option translator :=
  p ← translators ut !! lc; objects ut !! p.

End Registry.

(** The lookup loop of the [Localizer] middleware (gin/middleware):
    [GetTranslator] for each requested language until one is found. *)
Fixpoint Localizer_loop (ut : Registry.UniversalTranslator) (langs : list string)
    (trans : option Registry.ptr) (found : bool) : option Registry.ptr * bool :=
  match langs with
  | [] => (trans, found)
  | lang :: rest =>
      let '(trans, found) := Registry.GetTranslator ut lang in
      if found then (trans, found) else Localizer_loop ut rest trans found
  end.

(** The translator [Localizer] stores in the context: [langs] is the
    [lang] form value followed by the tags of [Accept-Language]. *)
Definition Localizer_translator (ut : Registry.UniversalTranslator)
    (lang : string) (tags : list string) : option Registry.ptr :=
  (Localizer_loop ut (lang :: tags) None false).1.

(** [p] is the last position of [ls] whose element satisfies [Q]. *)
Definition last_at {A} (Q : A -> Prop) (ls : list A) (p : nat) : Prop :=
  (exists v, ls !! p = Some v /\ Q v)
  /\ forall j v, ls !! j = Some v -> Q v -> (j <= p)%nat.

(** A locale that differs from [en] by the case of its name only. *)
Definition EN : LocaleTranslator :=
  {| Locale := "EN";
     PluralsCardinal := PluralsCardinal en;
     PluralsOrdinal := PluralsOrdinal en;
     PluralsRange := PluralsRange en;
     CardinalPluralRule := CardinalPluralRule en;
     OrdinalPluralRule := OrdinalPluralRule en;
     RangePluralRule := RangePluralRule en |}.

(** The registry of [NewUniversalTranslator(en, en)]. *)
Definition reg_en : Registry.UniversalTranslator :=
  match Registry.NewUniversalTranslator (Some en) [en] with
  | Returns ut => ut
  | Panics _ => Registry.mkUniversalTranslator [] ∅ None
  end.

(** What the loop of [NewUniversalTranslator] has built after the locales
    [ls]: one object per locale, in order; the map holds for each key the
    last locale with that lower-cased name, and the fallback is the last
    locale with the name of the fallback argument. *)
Definition New_inv (f : LocaleTranslator) (ls : list LocaleTranslator)
    (ut : Registry.UniversalTranslator) : Prop :=
  Registry.objects ut = newTranslator <$> ls
  /\ (forall lc p, Registry.translators ut !! lc = Some p
                   <-> last_at (fun v => ToLower (Locale v) = lc) ls p)
  /\ (forall p, Registry.fallback ut = Some p
                <-> last_at (fun v => Locale v = Locale f) ls p).

(** [reg_en] after English has served a translation. *)
Definition reg_en_used : Registry.UniversalTranslator :=
  {| Registry.objects := [t_greeting];
     Registry.translators := Registry.translators reg_en;
     Registry.fallback := Registry.fallback reg_en |}.

(** ** Export of the whole registry (the import/export file)

    [Export] creates the directory, then for every registered translator
    builds the table, encodes it and writes the file [<locale>.toml].
    The file system and the TOML encoder are outside the program:
    [path_ok] says whether the directory exists or can be created and
    [write_ok] whether a table can be encoded and its file written.  The
    files written are the trace of the call. *)

Inductive export_error : Type :=
| ErrExportPathFailure
| ErrExportWriteFailure
| ErrExportTable (e : error).

Record export_env : Type := mkExportEnv {
  path_ok : bool;
  write_ok : string -> gmap string translation -> bool
}.

(** [for _, locale := range ut.translators {...}], visiting [entries] in
    order, with the files written so far. *)
Fixpoint Export_loop (env : export_env) (ut : Registry.UniversalTranslator)
    (entries : list (string * Registry.ptr)) (vs : Registry.ptr -> visit)
    (files : list (string * gmap string translation))
    : outcome (list (string * gmap string translation) * option export_error) :=
  match entries with
  | [] => Returns (files, None)
  | (_, p) :: rest =>
      t ← Registry.object ut (Some p);
      match Export_locale t (vs p) with
      | inr e => Returns (files, Some (ErrExportTable e))
      | inl trans =>
          let file := Locale (locale t) +:+ ".toml" in
          if write_ok env file trans
          then Export_loop env ut rest vs (files ++ [(file, trans)])
          else Returns (files, Some ErrExportWriteFailure)
      end
  end.

Definition Export (env : export_env) (ut : Registry.UniversalTranslator)
    (entries : list (string * Registry.ptr)) (vs : Registry.ptr -> visit)
    : outcome (list (string * gmap string translation) * option export_error) :=
  if path_ok env then Export_loop env ut entries vs []
  else Returns ([], Some ErrExportPathFailure).

(** The table of a translator, in the order [map_to_list] gives. *)
Definition export_table (t : translator) : gmap string translation :=
  match Export_locale t (visit_default t) with
  | inl trans => trans
  | inr _ => ∅
  end.

(** The file of a registry entry. *)
Definition export_file (ut : Registry.UniversalTranslator)
    (e : string * Registry.ptr) : string * gmap string translation :=
  match Registry.objects ut !! e.2 with
  | Some t => (Locale (locale t) +:+ ".toml", export_table t)
  | None => (EmptyString, ∅)
  end.

(** A file system on which everything succeeds. *)
Definition env_ok : export_env :=
  {| path_ok := true; write_ok := fun _ _ => true |}.

(** The entry stored for [(tg, key)] by the translator registered under
    [lc], if any. *)
Definition registry_entry (ut : UniversalTranslator) (lc : string) (tg : target)
    (key : string) : option transText :=
  t ← translators ut !! lc; entry_at tg t key.

(** * Properties *)

(** ** Strings *)

Lemma len_nonneg s : 0 <= len s.
Proof. unfold len; lia. Qed.

Lemma prefix_length s1 s2 :
  String.prefix s1 s2 = true -> (String.length s1 <= String.length s2)%nat.
Proof.
  revert s2. induction s1 as [|a s1 IH]; intros [|b s2]; simpl; try lia; try done.
  destruct (ascii_dec a b); [|done]. intros H. apply IH in H. lia.
Qed.

Lemma Index_range s substr :
  Index s substr = -1 \/ (0 <= Index s substr /\ Index s substr + len substr <= len s).
Proof.
  induction s as [|a s IH].
  - unfold Index. destruct (String.prefix substr EmptyString) eqn:E; [right|by left].
    apply prefix_length in E. unfold len; simpl in *; lia.
  - cbn [Index]. destruct (String.prefix substr (String a s)) eqn:E.
    + right. apply prefix_length in E. unfold len; simpl in *; lia.
    + destruct (Z.eqb_spec (Index s substr) (-1)); [by left|].
      right. destruct IH as [?|[? ?]]; [done|].
      unfold len in *; simpl String.length; lia.
Qed.

(** ** Records and maps *)

Lemma pluralTanslations_with c t m :
  pluralTanslations c (with_pluralTanslations c t m) = m.
Proof. by destruct c. Qed.

Lemma pluralTanslations_with_ne c c' t m :
  c <> c' ->
  pluralTanslations c' (with_pluralTanslations c t m) = pluralTanslations c' t.
Proof. by destruct c, c'. Qed.

Lemma with_pluralTanslations_twice c t m1 m2 :
  with_pluralTanslations c (with_pluralTanslations c t m1) m2
  = with_pluralTanslations c t m2.
Proof. by destruct c. Qed.

Lemma translations_with_plural c t m :
  translations (with_pluralTanslations c t m) = translations t.
Proof. by destruct c. Qed.

Lemma locale_with_plural c t m :
  locale (with_pluralTanslations c t m) = locale t.
Proof. by destruct c. Qed.

Lemma with_pluralTanslations_id c t :
  with_pluralTanslations c t (pluralTanslations c t) = t.
Proof. by destruct c, t. Qed.

(** ** The Add family *)

Lemma rule_index_range rule : 0 <= rule_index rule < 7.
Proof. destruct rule; simpl; lia. Qed.

Lemma rule_index_inj r1 r2 : rule_index r1 = rule_index r2 -> r1 = r2.
Proof. by destruct r1, r2. Qed.

Lemma store_ok {A} (xs : list A) rule v :
  length xs = 7%nat ->
  store xs (rule_index rule) v = Returns (<[Z.to_nat (rule_index rule) := v]> xs).
Proof.
  intros Hl. unfold store. rewrite Hl.
  pose proof (rule_index_range rule).
  destruct (Z.leb_spec 0 (rule_index rule)); [|lia].
  destruct (Z.ltb_spec (rule_index rule) (Z.of_nat 7)); [done|lia].
Qed.

Lemma index_ok {A} (xs : list A) rule :
  length xs = 7%nat ->
  exists x, xs !! Z.to_nat (rule_index rule) = Some x /\
            index xs (rule_index rule) = Returns x.
Proof.
  intros Hl. unfold index. rewrite Hl.
  pose proof (rule_index_range rule).
  destruct (Z.leb_spec 0 (rule_index rule)); [|lia].
  destruct (Z.ltb_spec (rule_index rule) (Z.of_nat 7)); [|lia]. simpl.
  destruct (lookup_lt_is_Some_2 xs (Z.to_nat (rule_index rule))) as [x Hx]; [lia|].
  exists x. by rewrite Hx.
Qed.

Lemma msg_param_missing_with c t m key text p :
  msg_param_missing c (with_pluralTanslations c t m) key text p
  = msg_param_missing c t key text p.
Proof. unfold msg_param_missing. by rewrite locale_with_plural. Qed.

Lemma addPlural_fill_spec c t key text tarr rule :
  length tarr = 7%nat ->
  addPlural_fill c t key text tarr rule =
    let m := pluralTanslations c t in
    let i := Z.to_nat (rule_index rule) in
    match plural_compile c text with
    | Some e =>
        Returns (with_pluralTanslations c t (<[IString key := <[i := Some e]> tarr]> m),
                 None)
    | None =>
        Returns (with_pluralTanslations c t (<[IString key := <[i := None]> tarr]> m),
                 Some (ErrPluralTranslation c
                         (msg_param_missing c t key text (missing_param text))))
    end.
Proof.
  intros Hl. unfold addPlural_fill, set_slot, plural_compile, missing_param.
  destruct c; destruct (Index text paramZero =? -1) eqn:E0;
    try destruct (Index text paramOne =? -1) eqn:E1;
    repeat (rewrite store_ok by (by rewrite ?length_insert);
            cbn [mbind outcome_bind obind]);
    rewrite ?pluralTanslations_with, ?with_pluralTanslations_twice,
      ?insert_insert_eq, ?list_insert_insert_eq, ?msg_param_missing_with;
    reflexivity.
Qed.

Lemma addPlural_spec c t key text rule ov :
  rule ∈ plurals c (locale t) ->
  (forall tarr, pluralTanslations c t !! IString key = Some tarr ->
                length tarr = 7%nat) ->
  addPlural c t (IString key) text rule ov =
    if bool_decide (is_Some (slot_at c t key rule)) && negb ov
    then Returns (t, Some (ErrConflictingTranslation (Locale (locale t)) key rule text))
    else match plural_compile c text with
         | Some e => Returns (put_slot c t key rule (Some e), None)
         | None => Returns (put_slot c t key rule None,
                            Some (ErrPluralTranslation c
                                    (msg_param_missing c t key text (missing_param text))))
         end.
Proof.
  intros Hrule Hlen. unfold addPlural, slot_at, put_slot. cbn [as_string].
  rewrite bool_decide_eq_true_2 by done. cbn [negb].
  destruct (pluralTanslations c t !! IString key) as [tarr|] eqn:Hk.
  - specialize (Hlen tarr eq_refl). rewrite Hlen. cbn [Z.ltb Z.of_nat Z.compare Pos.of_succ_nat].
    destruct (index_ok tarr rule Hlen) as (slot & Hs & ->). rewrite Hs.
    cbn [mbind outcome_bind obind option.default].
    destruct (bool_decide (is_Some slot) && negb ov); [reflexivity|].
    rewrite addPlural_fill_spec by done. reflexivity.
  - cbn [option.default].
    rewrite (bool_decide_eq_false_2 (is_Some None)) by (by intros [? ?]).
    cbn [andb]. rewrite addPlural_fill_spec by done. cbn zeta.
    destruct (plural_compile c text);
      rewrite !pluralTanslations_with, !with_pluralTanslations_twice,
        !insert_insert_eq, ?msg_param_missing_with; reflexivity.
Qed.

Lemma slot_at_put_slot c t key rule v c' key' rule' :
  (forall tarr, pluralTanslations c t !! IString key = Some tarr ->
                length tarr = 7%nat) ->
  slot_at c' (put_slot c t key rule v) key' rule' =
    if decide (c' = c /\ key' = key /\ rule' = rule) then v
    else slot_at c' t key' rule'.
Proof.
  intros Hlen. unfold slot_at, put_slot.
  destruct (decide (c' = c)) as [->|Hc].
  2:{ rewrite pluralTanslations_with_ne by done.
      rewrite decide_False by (by intros [? _]). done. }
  rewrite pluralTanslations_with.
  destruct (decide (key' = key)) as [->|Hk].
  2:{ rewrite lookup_insert_ne by congruence.
      rewrite decide_False by (by intros (_ & ? & _)). done. }
  rewrite lookup_insert_eq.
  assert (Hl : length (default (replicate 7 None)
                 (pluralTanslations c t !! IString key)) = 7%nat).
  { destruct (pluralTanslations c t !! IString key) eqn:E; [by apply Hlen|done]. }
  pose proof (rule_index_range rule). pose proof (rule_index_range rule').
  destruct (decide (rule' = rule)) as [->|Hr].
  - rewrite decide_True by done.
    rewrite list_lookup_insert_eq by lia. done.
  - rewrite decide_False by (by intros (_ & _ & ?)).
    rewrite list_lookup_insert_ne.
    2:{ intros E. apply Hr. apply rule_index_inj. lia. }
    destruct (pluralTanslations c t !! IString key) eqn:E; [done|].
    cbn [option.default]. 
    destruct rule'; done.
Qed.

Lemma Add_loop_offsets t key text n i acc :
  match plain_offsets text n i acc with
  | Some l => Add_loop t key text n i acc = inl l
  | None => exists p, Add_loop t key text n i acc
                      = inr (ErrBadParamSyntax (Locale (locale t)) p key text)
  end.
Proof.
  revert i acc. induction n as [|n IH]; intros i acc; simpl; [done|].
  destruct (Index text _ =? -1); [by eexists|]. apply IH.
Qed.

Lemma Add_spec t key text ov :
  exists r, Add t (IString key) text ov = Returns r /\ Add_result t key text ov r.
Proof.
  unfold Add. cbn [as_string].
  destruct (decide (is_Some (translations t !! IString key) /\ ov = false))
    as [[Hk ->]|Hn].
  { rewrite bool_decide_eq_true_2 by done. cbn [negb andb].
    eexists; split; [reflexivity|]. by constructor. }
  assert (Hc : translations t !! IString key = None \/ ov = true).
  { destruct ov; [by right|]. left. apply eq_None_not_Some. tauto. }
  assert (bool_decide (is_Some (translations t !! IString key)) && negb ov = false)
    as ->.
  { destruct Hc as [->| ->]; [|by rewrite andb_false_r].
    rewrite bool_decide_eq_false_2; [done|]. by intros [? ?]. }
  destruct (Nat.eqb_spec (Count text "{") (Count text "}")) as [E|E]; cbn [negb].
  2:{ eexists; split; [reflexivity|]. by constructor. }
  pose proof (Add_loop_offsets t key text (Count text "{") 0 []) as H.
  destruct (plain_offsets _ _ _ _) as [l|] eqn:Ho.
  + rewrite H. eexists; split; [reflexivity|]. apply Add_stored; [done|].
    unfold plain_compile. rewrite E, Nat.eqb_refl. rewrite <- E, Ho. done.
  + destruct H as [p ->]. eexists; split; [reflexivity|]. apply Add_bad_param; [done..|].
    unfold plain_compile. rewrite E, Nat.eqb_refl. rewrite <- E, Ho. done.
Qed.

Lemma Add_not_string t n text ov :
  Add t (IInt n) text ov = Returns (t, Some ErrKeyIsNotString).
Proof. done. Qed.

Lemma wf_newTranslator l : wf (newTranslator l).
Proof.
  split.
  - intros k e H. cbn in H. by rewrite lookup_empty in H.
  - intros [] k tarr H; cbn in H; by rewrite lookup_empty in H.
  - intros [] k tarr H; cbn in H; by rewrite lookup_empty in H.
  - intros [] k tarr H; cbn in H; by rewrite lookup_empty in H.
  - intros c key rule e. unfold slot_at. destruct c; cbn; by rewrite lookup_empty.
Qed.

Lemma slot_at_with_translations c t m key rule :
  slot_at c (with_translations t m) key rule = slot_at c t key rule.
Proof. by destruct c. Qed.

Lemma plain_compile_text txt e : plain_compile txt = Some e -> text e = txt.
Proof.
  unfold plain_compile. destruct (_ =? _)%nat; [|done].
  destruct (plain_offsets _ _ _ _); cbn; intros; by simplify_eq.
Qed.

Lemma plural_compile_text c txt e : plural_compile c txt = Some e -> text e = txt.
Proof.
  unfold plural_compile. destruct (_ =? _); [done|].
  destruct c; try (intros; by simplify_eq).
  destruct (_ =? _); [done|]. intros; by simplify_eq.
Qed.

Lemma wf_Add t k txt ov t' e :
  wf t -> Add t k txt ov = Returns (t', e) -> wf t'.
Proof.
  intros Hwf HA. destruct k as [key|n].
  2:{ rewrite Add_not_string in HA. by simplify_eq. }
  destruct (Add_spec t key txt ov) as (r & Hr & Hres).
  rewrite Hr in HA. simplify_eq. inversion Hres; subst; try done.
  destruct Hwf as [Hp Hk Hl Hn Hs]. split.
  - intros k e' H. cbn in H. destruct (decide (k = IString key)) as [->|Hne].
    + rewrite lookup_insert_eq in H. simplify_eq. split; [by eexists|].
      match goal with Hc : plain_compile _ = Some _ |- _ =>
        by rewrite (plain_compile_text _ _ Hc) end.
    + rewrite lookup_insert_ne in H by done. by apply Hp.
  - intros c k tarr H. apply (Hk c k tarr). by destruct c.
  - intros c k tarr H. apply (Hl c k tarr). by destruct c.
  - intros c k tarr H. apply (Hn c k tarr). by destruct c.
  - intros c key' rule e' H. rewrite slot_at_with_translations in H.
    apply (Hs _ _ _ _ H).
Qed.

Lemma wf_put_slot c t key rule v :
  wf t -> rule ∈ plurals c (locale t) ->
  (forall e, v = Some e -> plural_compile c (text e) = Some e) ->
  wf (put_slot c t key rule v).
Proof.
  intros Hwf Hrule Hv.
  assert (Hlen : forall tarr, pluralTanslations c t !! IString key = Some tarr ->
                              length tarr = 7%nat) by (intros; by eapply wf_len).
  destruct Hwf as [Hp Hk Hl Hn Hs]. split.
  - intros k e H. unfold put_slot in H. rewrite translations_with_plural in H. by apply Hp.
  - intros c' k tarr H. unfold put_slot in H.
    destruct (decide (c' = c)) as [->|Hc].
    + rewrite pluralTanslations_with in H.
      destruct (decide (k = IString key)) as [->|Hne]; [by eexists|].
      rewrite lookup_insert_ne in H by done. by eapply Hk.
    + rewrite pluralTanslations_with_ne in H by done. by eapply Hk.
  - intros c' k tarr H. unfold put_slot in H.
    destruct (decide (c' = c)) as [->|Hc].
    + rewrite pluralTanslations_with in H.
      destruct (decide (k = IString key)) as [->|Hne].
      * rewrite lookup_insert_eq in H. simplify_eq. rewrite length_insert.
        destruct (pluralTanslations c t !! IString key) eqn:E; [by eapply Hl|done].
      * rewrite lookup_insert_ne in H by done. by eapply Hl.
    + rewrite pluralTanslations_with_ne in H by done. by eapply Hl.
  - intros c' k tarr H. unfold put_slot in *. rewrite locale_with_plural.
    destruct (decide (c' = c)) as [->|Hc].
    + intros E. rewrite E in Hrule. by apply elem_of_nil in Hrule.
    + rewrite pluralTanslations_with_ne in H by done. by eapply Hn.
  - intros c' key' rule' e H. rewrite slot_at_put_slot in H by done.
    unfold put_slot. rewrite locale_with_plural.
    destruct (decide _) as [(-> & -> & ->)|_]; [|apply (Hs _ _ _ _ H)].
    split; [done|]. by apply Hv.
Qed.

Lemma addPlural_not_string c t n txt rule ov :
  addPlural c t (IInt n) txt rule ov = Returns (t, Some ErrKeyIsNotString).
Proof. done. Qed.

Lemma addPlural_bad_rule c t key txt rule ov :
  rule ∉ plurals c (locale t) ->
  addPlural c t (IString key) txt rule ov
  = Returns (t, Some (ErrPluralTranslation c (msg_rule_missing c t key txt rule))).
Proof.
  intros H. unfold addPlural. cbn [as_string].
  by rewrite bool_decide_eq_false_2.
Qed.

Lemma wf_addPlural c t k txt rule ov t' e :
  wf t -> addPlural c t k txt rule ov = Returns (t', e) -> wf t'.
Proof.
  intros Hwf HA. destruct k as [key|n].
  2:{ rewrite addPlural_not_string in HA. by simplify_eq. }
  destruct (decide (rule ∈ plurals c (locale t))) as [Hr|Hr].
  2:{ rewrite addPlural_bad_rule in HA by done. by simplify_eq. }
  rewrite addPlural_spec in HA; [|done|intros; by eapply wf_len].
  destruct (_ && _); [by simplify_eq|].
  destruct (plural_compile c txt) as [e0|] eqn:Hc; simplify_eq.
  - apply wf_put_slot; [done..|]. intros e1 ?; simplify_eq.
    by rewrite (plural_compile_text _ _ _ Hc).
  - apply wf_put_slot; [done..|]. intros e1 ?; simplify_eq.
Qed.

(** ** Claims about the Add family *)

Lemma Returns_pair_inj {A B} (a a' : A) (b b' : B) :
  Returns (a, b) = Returns (a', b') -> a = a' /\ b = b'.
Proof. intros H. by injection H. Qed.

Lemma lacks_placeholder_compile c txt :
  lacks_placeholder c txt <-> plural_compile c txt = None.
Proof.
  unfold lacks_placeholder, plural_compile.
  destruct (Z.eqb_spec (Index txt paramZero) (-1)) as [E0|E0].
  { split; [done|by left]. }
  destruct c.
  - split; [intros [?|[? _]]; done|done].
  - split; [intros [?|[? _]]; done|done].
  - destruct (Z.eqb_spec (Index txt paramOne) (-1)) as [E1|E1].
    + split; [done|by right].
    + split; [intros [?|[_ ?]]; done|done].
Qed.

Lemma wf_after_Add t k txt ov : wf t -> wf (after t (Add t k txt ov)).
Proof.
  intros H. destruct (Add t k txt ov) as [[t' e]|p] eqn:E; [|done].
  by eapply wf_Add.
Qed.

Lemma wf_after_addPlural c t k txt rule ov :
  wf t -> wf (after t (addPlural c t k txt rule ov)).
Proof.
  intros H. destruct (addPlural c t k txt rule ov) as [[t' e]|p] eqn:E; [|done].
  by eapply wf_addPlural.
Qed.

Lemma wf_len_at c t key :
  wf t -> forall tarr, pluralTanslations c t !! IString key = Some tarr ->
                       length tarr = 7%nat.
Proof. intros H tarr Hk. by eapply wf_len. Qed.

(** Claim C3 (as amended).  A plural add with a rule of the locale and a
    text lacking the required placeholder ([{0}], or for the range
    category [{0}] or [{1}]) first passes the conflict check: when the
    slot is occupied and [override] is false it returns
    [ErrConflictingTranslation] and changes nothing.  Otherwise it returns
    the error of its category and the slot at (key, rule) is left empty,
    in a store that still satisfies the invariant. *)
Theorem addPlural_missing_placeholder c t key txt rule ov :
  wf t ->
  rule ∈ plurals c (locale t) ->
  lacks_placeholder c txt ->
  match slot_at c t key rule, ov with
  | Some _, false =>
      addPlural c t (IString key) txt rule ov
      = Returns (t, Some (ErrConflictingTranslation (Locale (locale t)) key rule txt))
  | _, _ =>
      exists t',
        addPlural c t (IString key) txt rule ov
        = Returns (t', Some (ErrPluralTranslation c
                               (msg_param_missing c t key txt (missing_param txt))))
        /\ slot_at c t' key rule = None
        /\ wf t'
  end.
Proof.
  intros Hwf Hrule Hlack. apply lacks_placeholder_compile in Hlack.
  pose proof (addPlural_spec c t key txt rule ov Hrule (wf_len_at c t key Hwf)) as HA.
  rewrite Hlack in HA.
  assert (Hput : slot_at c (put_slot c t key rule None) key rule = None
                 /\ wf (put_slot c t key rule None)).
  { split.
    - rewrite slot_at_put_slot by by apply wf_len_at. by rewrite decide_True.
    - by apply wf_put_slot. }
  destruct (slot_at c t key rule) as [e|] eqn:Hs, ov; cbv beta iota;
    rewrite ?(bool_decide_eq_true_2 (is_Some (Some e))) in HA by (by eexists);
    rewrite ?(bool_decide_eq_false_2 (is_Some None)) in HA by (by intros [? ?]);
    cbn [andb negb] in HA; try exact HA; by eexists.
Qed.

Lemma en_cardinal_one : PluralRuleOne ∈ plurals Cardinal (locale t_empty).
Proof. cbn. constructor. Qed.

(** The theorem on an empty store: [AddCardinal] of the text "day",
    which has no [{0}]. *)
Lemma addPlural_missing_placeholder_witness :
  exists t',
    AddCardinal t_empty (IString "days") "day" PluralRuleOne false
    = Returns (t', Some (ErrCardinalTranslation
        "parameter '{0}' not found, may want to use 'Add' instead of 'AddCardinal'. locale: 'en' key: 'days' text: 'day'"))
    /\ slot_at Cardinal t' "days" PluralRuleOne = None
    /\ wf t'.
Proof.
  exact (addPlural_missing_placeholder Cardinal t_empty "days" "day" PluralRuleOne false
           (wf_newTranslator en) en_cardinal_one (or_introl eq_refl)).
Defined.

(** Against claim C3 as stated: with the slot occupied and
    [override = false], a text without [{0}] gets the conflict error, not
    the cardinal one, and the slot keeps its entry. *)
Lemma addPlural_missing_placeholder_conflict_first :
  PluralRuleOne ∈ plurals Cardinal (locale t_days)
  /\ lacks_placeholder Cardinal "day"
  /\ AddCardinal t_days (IString "days") "day" PluralRuleOne false
     = Returns (t_days, Some (ErrConflictingTranslation "en" "days" PluralRuleOne "day"))
  /\ slot_at Cardinal t_days "days" PluralRuleOne
     = Some (mkTransText "{0} day" [0; 3]).
Proof.
  split; [constructor|]. split; [by left|]. split; reflexivity.
Qed.

(** Claim C9.  When the slot at (key, rule) holds an entry and a plural
    add is called with [override = true] and a text lacking the required
    placeholder, the call returns the error of its category and leaves
    the slot empty: the stored entry is erased, not restored, so the
    store has changed. *)
Theorem addPlural_override_erases c t key txt rule e :
  wf t ->
  slot_at c t key rule = Some e ->
  lacks_placeholder c txt ->
  exists t',
    addPlural c t (IString key) txt rule true
    = Returns (t', Some (ErrPluralTranslation c
                           (msg_param_missing c t key txt (missing_param txt))))
    /\ slot_at c t' key rule = None
    /\ slot_at c t' key rule <> slot_at c t key rule.
Proof.
  intros Hwf Hs Hlack. apply lacks_placeholder_compile in Hlack.
  destruct (wf_slot t Hwf c key rule e Hs) as [Hrule _].
  pose proof (addPlural_spec c t key txt rule true Hrule (wf_len_at c t key Hwf)) as HA.
  rewrite Hlack, andb_false_r in HA.
  eexists. split; [exact HA|].
  rewrite slot_at_put_slot by by apply wf_len_at. rewrite decide_True by done.
  split; [done|]. by rewrite Hs.
Qed.

Lemma wf_t_days : wf t_days.
Proof. apply wf_after_addPlural, wf_newTranslator. Qed.

(** The theorem on the store that holds "{0} day" at ("days", one). *)
Lemma addPlural_override_erases_witness :
  slot_at Cardinal t_days "days" PluralRuleOne = Some (mkTransText "{0} day" [0; 3])
  /\ exists t',
    AddCardinal t_days (IString "days") "day" PluralRuleOne true
    = Returns (t', Some (ErrCardinalTranslation
        "parameter '{0}' not found, may want to use 'Add' instead of 'AddCardinal'. locale: 'en' key: 'days' text: 'day'"))
    /\ slot_at Cardinal t' "days" PluralRuleOne = None
    /\ slot_at Cardinal t' "days" PluralRuleOne
       <> slot_at Cardinal t_days "days" PluralRuleOne.
Proof.
  split; [reflexivity|].
  exact (addPlural_override_erases Cardinal t_days "days" "day" PluralRuleOne _
           wf_t_days eq_refl (or_introl eq_refl)).
Defined.

Lemma Index_locates s substr :
  Index s substr <> -1 ->
  slice s (Index s substr) (Index s substr + len substr) = Returns substr.
Proof.
  intros Hi. pose proof (Index_range s substr) as [?|[H0 H1]]; [done|].
  unfold slice.
  destruct (Z.leb_spec 0 (Index s substr)); [|lia].
  destruct (Z.leb_spec (Index s substr) (Index s substr + len substr));
    [|pose proof (len_nonneg substr); lia].
  destruct (Z.leb_spec (Index s substr + len substr) (len s)); [|lia].
  cbn [andb]. f_equal.
  replace (Index s substr + len substr - Index s substr) with (len substr) by lia.
  unfold len. rewrite Nat2Z.id. clear -Hi. 
  induction s as [|a s IH].
  - unfold Index in *. destruct (String.prefix substr EmptyString) eqn:E; [|done].
    by apply String.prefix_correct in E.
  - cbn [Index] in *. destruct (String.prefix substr (String a s)) eqn:E.
    + by apply String.prefix_correct in E.
    + destruct (Z.eqb_spec (Index s substr) (-1)); [done|].
      pose proof (Index_range s substr) as [?|[H0 H1]]; [done|].
      replace (Z.to_nat (Index s substr + 1)) with (S (Z.to_nat (Index s substr))) by lia.
      cbn [String.substring]. by apply IH.
Qed.

(** Claim C8 (as amended).  When [AddRange] succeeds, the entry stored at
    (key, rule) has two offset pairs, the first locating the first
    occurrence of [{0}] and the second the first occurrence of [{1}]; each
    only has to be found (offset >= 0), wherever the other one is. *)
Theorem AddRange_offsets t key txt rule ov t' :
  wf t ->
  AddRange t (IString key) txt rule ov = Returns (t', None) ->
  let i0 := Index txt paramZero in
  let i1 := Index txt paramOne in
  slot_at Range t' key rule
  = Some (mkTransText txt [i0; i0 + len paramZero; i1; i1 + len paramOne])
  /\ 0 <= i0 /\ slice txt i0 (i0 + len paramZero) = Returns paramZero
  /\ 0 <= i1 /\ slice txt i1 (i1 + len paramOne) = Returns paramOne.
Proof.
  intros Hwf HA i0 i1. unfold AddRange in HA.
  destruct (decide (rule ∈ plurals Range (locale t))) as [Hr|Hr].
  2:{ rewrite addPlural_bad_rule in HA by done. by simplify_eq. }
  rewrite addPlural_spec in HA; [|done|by apply wf_len_at].
  destruct (_ && _); [by simplify_eq|].
  destruct (plural_compile Range txt) as [e|] eqn:Hc; [|by simplify_eq].
  apply Returns_pair_inj in HA as [<- _].
  rewrite slot_at_put_slot by by apply wf_len_at. rewrite decide_True by done.
  unfold plural_compile in Hc. fold i0 i1 in Hc.
  destruct (Z.eqb_spec i0 (-1)); [done|].
  destruct (Z.eqb_spec i1 (-1)); [done|]. simplify_eq.
  pose proof (Index_range txt paramZero) as [?|[? ?]]; [done|].
  pose proof (Index_range txt paramOne) as [?|[? ?]]; [done|].
  split; [done|]. split; [done|]. split; [by apply Index_locates|].
  split; [done|]. by apply Index_locates.
Qed.

(** The theorem on the range text "{0}-{1} days". *)
Lemma AddRange_offsets_witness :
  slot_at Range
    (after t_empty (AddRange t_empty (IString "span") "{0}-{1} days" PluralRuleOther false))
    "span" PluralRuleOther
  = Some (mkTransText "{0}-{1} days" [0; 3; 4; 7])
  /\ 0 <= 0 /\ slice "{0}-{1} days" 0 3 = Returns paramZero
  /\ 0 <= 4 /\ slice "{0}-{1} days" 4 7 = Returns paramOne.
Proof.
  exact (AddRange_offsets t_empty "span" "{0}-{1} days" PluralRuleOther false _
           (wf_newTranslator en) eq_refl).
Defined.

(** Against claim C8 as stated: [AddRange] accepts a text that starts
    with [{1}] and stores offset 0 for it. *)
Lemma AddRange_accepts_one_at_start :
  AddRange t_empty (IString "k") "{1}-{0}" PluralRuleOther false
  = Returns (t_range_swapped, None)
  /\ slot_at Range t_range_swapped "k" PluralRuleOther
     = Some (mkTransText "{1}-{0}" [4; 7; 0; 3])
  /\ Index "{1}-{0}" paramOne = 0.
Proof. repeat split. Qed.

Lemma addPlural_errors c t k txt rule ov t' e :
  addPlural c t k txt rule ov = Returns (t', Some e) ->
  e = ErrKeyIsNotString
  \/ (exists msg, e = ErrPluralTranslation c msg)
  \/ (exists key, e = ErrConflictingTranslation (Locale (locale t)) key rule txt).
Proof.
  unfold addPlural, addPlural_fill, set_slot.
  intros H.
  repeat (match type of H with
          | context [match ?x with _ => _ end] => destruct x eqn:?
          | context [if ?x then _ else _] => destruct x eqn:?
          | context [mbind _ ?x] => destruct x as [[? ?]|?] eqn:?
          | context [mbind _ ?x] => destruct x eqn:?
          end; cbn [mbind outcome_bind obind] in H; try discriminate);
    simplify_eq; eauto.
Qed.

(** Claim C5 (as amended).  [Add] on a text with unbalanced braces fails
    with [ErrMissingBrace], unless the key already has an entry and
    [override] is false, which fails with [ErrConflictingTranslation]
    first.  The plural adds never return [ErrMissingBrace], whatever the
    text. *)
Theorem unbalanced_braces t key txt ov :
  Count txt "{" <> Count txt "}" ->
  Add t (IString key) txt ov
  = Returns (t, Some (if bool_decide (is_Some (translations t !! IString key))
                         && negb ov
                      then ErrConflictingTranslation (Locale (locale t)) key
                             PluralRuleUnknown txt
                      else ErrMissingBrace (Locale (locale t)) (IString key) txt))
  /\ forall c rule t' e,
       addPlural c t (IString key) txt rule ov = Returns (t', Some e) ->
       forall l k x, e <> ErrMissingBrace l k x.
Proof.
  intros Hne. split.
  - unfold Add. cbn [as_string].
    destruct (_ && _); [done|].
    destruct (Nat.eqb_spec (Count txt "{") (Count txt "}")); [done|]. done.
  - intros c rule t' e HA l k x ->.
    apply addPlural_errors in HA as [?|[[msg ?]|[? ?]]]; try done.
    by destruct c.
Qed.

(** The theorem on the text of the specification's example. *)
Lemma unbalanced_braces_witness :
  Add t_empty (IString "k") "a {0" false
  = Returns (t_empty, Some (ErrMissingBrace "en" (IString "k") "a {0"))
  /\ forall c rule t' e,
       addPlural c t_empty (IString "k") "a {0" rule false = Returns (t', Some e) ->
       forall l k x, e <> ErrMissingBrace l k x.
Proof.
  apply (unbalanced_braces t_empty "k" "a {0" false). by vm_compute.
Defined.

(** Against claim C5 as stated: with unbalanced braces [AddCardinal]
    returns its own error, for the missing [{0}], and [AddRange] accepts a
    text with one brace too many. *)
Lemma plural_add_ignores_braces :
  Count "a {0" "{" <> Count "a {0" "}"
  /\ AddCardinal t_empty (IString "k") "a {0" PluralRuleOne false
     = Returns (after t_empty
                  (AddCardinal t_empty (IString "k") "a {0" PluralRuleOne false),
                Some (ErrCardinalTranslation
    "parameter '{0}' not found, may want to use 'Add' instead of 'AddCardinal'. locale: 'en' key: 'k' text: 'a {0'"))
  /\ AddRange t_empty (IString "k") "{0} {1} }" PluralRuleOther false
     = Returns (after t_empty
                  (AddRange t_empty (IString "k") "{0} {1} }" PluralRuleOther false),
                None).
Proof. split; [by vm_compute|]. split; reflexivity. Qed.

Lemma T_entry t key e params :
  translations t !! IString key = Some e ->
  T t (IString key) params = render_plain e params.
Proof. intros H. unfold T. cbn [as_string]. by rewrite H. Qed.

Lemma slot_at_index c t key rule e :
  wf t -> slot_at c t key rule = Some e ->
  exists tarr, pluralTanslations c t !! IString key = Some tarr
               /\ index tarr (rule_index rule) = Returns (Some e).
Proof.
  intros Hwf Hs. unfold slot_at in Hs.
  destruct (pluralTanslations c t !! IString key) as [tarr|] eqn:Hk; [|done].
  exists tarr. split; [done|].
  destruct (index_ok tarr rule (wf_len_at c t key Hwf tarr Hk)) as (x & Hx & ->).
  rewrite Hx in Hs. by subst.
Qed.


Lemma wf_add_to tg t k txt ov t' e :
  wf t -> add_to tg t k txt ov = Returns (t', e) -> wf t'.
Proof. destruct tg; intros; [by eapply wf_Add|by eapply wf_addPlural]. Qed.


Lemma wf_t_greeting : wf t_greeting.
Proof. apply wf_after_Add, wf_newTranslator. Qed.



(** ** Rendering *)

Lemma spans_app txt l1 l2 : spans txt l1 -> spans txt l2 -> spans txt (l1 ++ l2).
Proof.
  revert l2. induction l1 as [l1 IH] using (induction_ltof1 _ (@length Z)).
  unfold ltof in IH. intros l2 H1 H2.
  destruct l1 as [|a [|b r]]; [done|done|].
  cbn in H1 |- *. destruct H1 as (? & ? & ?). repeat split; try lia.
  apply IH; [cbn; lia|done..].
Qed.

Lemma length_param_name i : 0 < len ("{" +:+ Itoa i +:+ "}").
Proof.
  unfold len. change ("{" +:+ Itoa i +:+ "}") with (String "{" (Itoa i +:+ "}")).
  cbn [String.length]. lia.
Qed.

Lemma plain_offsets_spans txt n i acc l :
  plain_offsets txt n i acc = Some l ->
  spans txt acc ->
  spans txt l /\ length l = (length acc + 2 * n)%nat.
Proof.
  revert i acc. induction n as [|n IH]; intros i acc; cbn [plain_offsets].
  - intros [= <-] ?. split; [done|lia].
  - set (s := "{" +:+ Itoa i +:+ "}").
    destruct (Z.eqb_spec (Index txt s) (-1)) as [|Hi]; [done|].
    intros H Hacc. apply IH in H.
    + rewrite length_app in H. cbn in H. split; [tauto|lia].
    + apply spans_app; [done|].
      pose proof (Index_range txt s) as [?|[? ?]]; [done|].
      pose proof (length_param_name i) as Hp. fold s in Hp. cbn [spans]. lia.
Qed.

Lemma plain_compile_spans e :
  plain_compile (text e) = Some e ->
  spans (text e) (indexes e)
  /\ length (indexes e) = (2 * Count (text e) "{")%nat.
Proof.
  unfold plain_compile. destruct (_ =? _)%nat; [|done].
  destruct (plain_offsets _ _ _ _) as [l|] eqn:Ho; [|done].
  cbn. intros [= He]. rewrite <- He. cbn.
  apply plain_offsets_spans in Ho; [|done]. cbn in Ho. split; [tauto|lia].
Qed.

Lemma index_params (params : list string) count :
  0 <= count <= Z.of_nat (length params) ->
  (count < Z.of_nat (length params) /\ exists p, index params count = Returns p)
  \/ (count = Z.of_nat (length params)
      /\ index params count
         = Panics (IndexOutOfRange (Z.of_nat (length params)) (Z.of_nat (length params)))).
Proof.
  intros H. unfold index.
  destruct (Z.leb_spec 0 count); [|lia].
  destruct (Z.ltb_spec count (Z.of_nat (length params))); cbn [andb].
  - left. split; [done|].
    destruct (lookup_lt_is_Some_2 params (Z.to_nat count)) as [x ->]; [lia|]. by eexists.
  - right. assert (count = Z.of_nat (length params)) as -> by lia. done.
Qed.

(** The loop of [T] with too few parameters left. *)
Lemma T_loop_short txt params m : forall idxs i n start count b,
  spans txt idxs ->
  length idxs = (2 * m)%nat ->
  0 <= start <= len txt ->
  0 <= count <= Z.of_nat (length params) ->
  Z.of_nat (length params) - count < Z.of_nat m ->
  exists p, T_loop txt params idxs i n start count b = Panics p
    /\ (p = IndexOutOfRange (Z.of_nat (length params)) (Z.of_nat (length params))
        \/ exists lo hi, p = SliceBoundsOutOfRange lo hi (len txt) /\ hi < lo)
    /\ (Sorted Z.le (start :: idxs) ->
        p = IndexOutOfRange (Z.of_nat (length params)) (Z.of_nat (length params))).
Proof.
  induction m as [|m IH]; intros idxs i n start count b Hsp Hlen Hst Hc Hm; [lia|].
  destruct idxs as [|lo [|hi rest]]; [done|done|].
  cbn in Hsp, Hlen. destruct Hsp as (Hlo & Hhi & Hrest).
  cbn [T_loop]. unfold slice.
  destruct (Z.leb_spec 0 start); [|lia].
  destruct (Z.leb_spec lo (len txt)); [|lia].
  destruct (Z.leb_spec start lo) as [Hle|Hgt]; cbn [andb mbind outcome_bind obind].
  2:{ eexists. split; [done|]. split; [right; by eexists _, _|].
      intros Hs. apply Sorted_inv in Hs as [_ Hs]. apply HdRel_inv in Hs. lia. }
  destruct (index_params params count Hc) as [[Hlt [p ->]]|[-> ->]];
    cbn [mbind outcome_bind obind].
  2:{ eexists. split; [done|]. split; [by left|done]. }
  match goal with
  | |- context [T_loop txt params rest ?i' n hi ?c' ?b'] =>
      destruct (IH rest i' n hi c' b') as (q & -> & Hq1 & Hq2);
        [done|lia|lia|lia|lia|]
  end.
  exists q. split; [done|]. split; [done|].
  intros Hs. apply Hq2. apply Sorted_inv in Hs as [Hs _]. by apply Sorted_inv in Hs as [Hs _].
Qed.

(** Claim C10 (as amended).  [T] checks no arity: on a stored plain entry
    with at least one placeholder, with fewer parameters than
    placeholders, it returns neither a string nor an error but panics on a
    bounds check; when the stored offsets ascend (the placeholders appear
    in index order) the panic is the index past the end of the parameter
    list. *)
Theorem T_no_arity_check t key e params :
  wf t ->
  translations t !! IString key = Some e ->
  (0 < Count (text e) "{")%nat ->
  (length params < Count (text e) "{")%nat ->
  exists p, T t (IString key) params = Panics p
    /\ (p = IndexOutOfRange (Z.of_nat (length params)) (Z.of_nat (length params))
        \/ exists lo hi, p = SliceBoundsOutOfRange lo hi (len (text e)) /\ hi < lo)
    /\ (Sorted Z.le (indexes e) ->
        p = IndexOutOfRange (Z.of_nat (length params)) (Z.of_nat (length params))).
Proof.
  intros Hwf Hk Hpos Hshort.
  destruct (wf_plain t Hwf _ _ Hk) as [_ Hc].
  apply plain_compile_spans in Hc as [Hsp Hlen].
  rewrite (T_entry t key e params Hk). unfold render_plain.
  pose proof (len_nonneg (text e)).
  destruct (T_loop_short (text e) params (Count (text e) "{") (indexes e)
              0 (Z.of_nat (length (indexes e))) 0 0 EmptyString)
    as (p & -> & Hp1 & Hp2); [done|done|lia|lia|lia|].
  exists p. split; [done|]. split; [done|].
  intros Hs. apply Hp2. constructor; [done|].
  destruct (indexes e) as [|lo [|hi r]]; [constructor|done|].
  constructor. cbn in Hsp. lia.
Qed.

(** The theorem on "Hello {0}" rendered with no parameter. *)
Lemma T_no_arity_check_witness :
  exists p, T t_greeting (IString "greeting") [] = Panics p
    /\ (p = IndexOutOfRange 0 0
        \/ exists lo hi, p = SliceBoundsOutOfRange lo hi 9 /\ hi < lo)
    /\ (Sorted Z.le [6; 9] -> p = IndexOutOfRange 0 0).
Proof.
  apply (T_no_arity_check t_greeting "greeting" (mkTransText "Hello {0}" [6; 9]) []
           wf_t_greeting eq_refl); cbn; lia.
Defined.

(** Against claim C10 as stated: with the placeholders out of index
    order and one parameter for two placeholders, [T] panics on the text
    slice before it reaches the missing parameter. *)
Lemma T_short_swapped_panics_on_slice :
  Add t_empty (IString "k") "{1} {0}" false = Returns (t_swapped, None)
  /\ translations t_swapped !! IString "k" = Some (mkTransText "{1} {0}" [4; 7; 0; 3])
  /\ T t_swapped (IString "k") ["a"] = Panics (SliceBoundsOutOfRange 7 0 7).
Proof. repeat split. Qed.


(** ** Rendering in index order *)

Lemma append_cons x (a b : string) : String x a +:+ b = String x (a +:+ b).
Proof. reflexivity. Qed.



Lemma substring_app s : forall n m k,
  String.substring n m s +:+ String.substring (n + m) k s
  = String.substring n (m + k) s.
Proof.
  induction s as [|a s IH]; intros n m k.
  - destruct n, m, k; reflexivity.
  - destruct n as [|n]; cbn [Nat.add].
    + destruct m as [|m]; cbn [Nat.add String.substring String.append].
      * reflexivity.
      * rewrite append_cons. f_equal. apply (IH 0%nat m k).
    + cbn [String.substring]. apply IH.
Qed.

Lemma slice_app s a b c x y :
  slice s a b = Returns x -> slice s b c = Returns y ->
  slice s a c = Returns (x +:+ y).
Proof.
  unfold slice.
  destruct (Z.leb_spec 0 a), (Z.leb_spec a b), (Z.leb_spec b (len s)); try done.
  destruct (Z.leb_spec 0 b), (Z.leb_spec b c), (Z.leb_spec c (len s)); try done.
  cbn [andb]. intros [= <-] [= <-].
  destruct (Z.leb_spec a c); [|lia]. cbn [andb]. f_equal.
  replace (Z.to_nat b) with (Z.to_nat a + Z.to_nat (b - a))%nat by lia.
  rewrite substring_app. f_equal. lia.
Qed.

Lemma slice_defined s a b :
  0 <= a -> a <= b -> b <= len s -> exists x, slice s a b = Returns x.
Proof.
  intros. unfold slice.
  destruct (Z.leb_spec 0 a), (Z.leb_spec a b), (Z.leb_spec b (len s)); try lia.
  by eexists.
Qed.

Lemma slice_bounds s a b x :
  slice s a b = Returns x -> 0 <= a /\ a <= b /\ b <= len s.
Proof.
  unfold slice.
  destruct (Z.leb_spec 0 a), (Z.leb_spec a b), (Z.leb_spec b (len s)); try done.
Qed.

Lemma substring_whole s : String.substring 0 (String.length s) s = s.
Proof. induction s as [|a s IH]; simpl; congruence. Qed.

Lemma slice_from_0 s : slice_from s 0 = Returns s.
Proof.
  pose proof (len_nonneg s).
  destruct (slice_defined s 0 (len s)) as [x Hx]; [lia..|].
  unfold slice_from. rewrite Hx. f_equal. revert Hx. unfold slice.
  destruct (_ && _ && _); [|done]. intros [= <-].
  rewrite Z.sub_0_r. unfold len. rewrite Nat2Z.id. apply substring_whole.
Qed.





Lemma plain_offsets_flat txt n : forall i acc l,
  plain_offsets txt n i acc = Some l ->
  l = acc ++ flat_map (span txt) (seq i n).
Proof.
  induction n as [|n IH]; intros i acc l; cbn [plain_offsets].
  - intros [= <-]. cbn. by rewrite app_nil_r.
  - fold (placeholder i).
    destruct (Z.eqb_spec (Index txt (placeholder i)) (-1)) as [|Hi]; [done|].
    intros H. apply IH in H as ->. rewrite <- app_assoc. reflexivity.
Qed.










Lemma plain_compile_indexes txt e :
  plain_compile txt = Some e ->
  indexes e = flat_map (span txt) (seq 0 (Count txt "{")).
Proof.
  unfold plain_compile. destruct (_ =? _)%nat; [|done].
  destruct (plain_offsets _ _ _ _) as [l|] eqn:Ho; [|done]. intros [= <-].
  by apply plain_offsets_flat in Ho as ->.
Qed.



Example T_in_index_order_renders :
  T (after t_empty (Add t_empty (IString "k") "{0} and {1}" false))
    (IString "k") ["a"; "b"]
  = Returns ("a and b", None).
Proof. reflexivity. Qed.

(** A text that repeats an index has more braces than distinct
    placeholders: [Add] looks for [{1}], does not find it and stores
    nothing. *)
Example Add_rejects_repeated_index :
  Add t_empty (IString "k") "{0} {0}" false
  = Returns (t_empty, Some (ErrBadParamSyntax "en" "{1}" "k" "{0} {0}")).
Proof. reflexivity. Qed.

(** ** Verification *)

Lemma find_app' {A} (f : A -> bool) l1 l2 :
  List.find f (l1 ++ l2)
  = match List.find f l1 with Some x => Some x | None => List.find f l2 end.
Proof. induction l1 as [|a l1 IH]; cbn; [done|]. by destruct (f a). Qed.

Lemma verify_rules_find t c key (v : slots) rules :
  length v = 7%nat ->
  verify_rules t c key v rules
  = Returns (missing_error t
      (List.find (fun '(c, key, v, rule) => slot_is_nil v rule)
                 ((fun rule => (c, key, v, rule)) <$> rules))).
Proof.
  intros Hl. induction rules as [|rule rules IH]; cbn [verify_rules]; [done|].
  destruct (index_ok v rule Hl) as (x & Hx & ->). cbn [mbind outcome_bind obind].
  cbn [fmap list_fmap List.find]. unfold slot_is_nil at 1. rewrite Hx.
  destruct x; [exact IH|done].
Qed.

Lemma verify_entries_find t c entries :
  Forall (fun kv => is_Some (as_string kv.1) /\ length kv.2 = 7%nat) entries ->
  verify_entries t c entries
  = Returns (missing_error t
      (List.find (fun '(c, key, v, rule) => slot_is_nil v rule) (checks t c entries))).
Proof.
  induction 1 as [|[k v] entries [[key Hk] Hl] _ IH]; [done|].
  cbn in Hk, Hl. cbn [verify_entries]. rewrite Hk.
  rewrite verify_rules_find by done. cbn [mbind outcome_bind obind].
  unfold checks. cbn [mbind list_bind]. fold (checks t c entries).
  rewrite Hk, find_app'.
  destruct (List.find _ (_ <$> _)) as [[[[? ?] ?] ?]|]; [done|exact IH].
Qed.

Lemma visits_wf_entries c t (entries : list (iface * slots)) :
  wf t -> entries ≡ₚ map_to_list (pluralTanslations c t) ->
  Forall (fun kv => is_Some (as_string kv.1) /\ length kv.2 = 7%nat) entries.
Proof.
  intros Hwf Hp. apply Forall_forall. intros [k v] Hin.
  rewrite Hp in Hin. apply elem_of_map_to_list in Hin. cbn.
  split; [by eapply wf_key|by eapply wf_len].
Qed.

Lemma visits_category c t v :
  visits t v ->
  match c with
  | Cardinal => visit_cardinal v
  | Ordinal => visit_ordinal v
  | Range => visit_range v
  end ≡ₚ map_to_list (pluralTanslations c t).
Proof. intros (? & ? & ? & ?). by destruct c. Qed.

Lemma VerifyTranslations_first_empty t v :
  wf t -> visits t v ->
  VerifyTranslations t v = Returns (missing_error t (first_empty_slot t v)).
Proof.
  intros Hwf Hv. unfold VerifyTranslations, first_empty_slot, all_checks.
  rewrite (verify_entries_find t Cardinal)
    by (apply (visits_wf_entries Cardinal t _ Hwf (visits_category Cardinal t v Hv))).
  rewrite (verify_entries_find t Ordinal)
    by (apply (visits_wf_entries Ordinal t _ Hwf (visits_category Ordinal t v Hv))).
  rewrite (verify_entries_find t Range)
    by (apply (visits_wf_entries Range t _ Hwf (visits_category Range t v Hv))).
  rewrite !find_app'. cbn [mbind outcome_bind obind].
  destruct (List.find _ (checks t Cardinal _)) as [[[[? ?] ?] ?]|]; [done|].
  cbn [missing_error mbind outcome_bind obind].
  destruct (List.find _ (checks t Ordinal _)) as [[[[? ?] ?] ?]|]; [done|].
  done.
Qed.

Lemma elem_of_checks t c entries c' key v rule :
  (c', key, v, rule) ∈ checks t c entries
  <-> c' = c /\ (IString key, v) ∈ entries /\ rule ∈ plurals c (locale t).
Proof.
  unfold checks. rewrite list_elem_of_bind. split.
  - intros ([k v'] & Hin & He).
    destruct k as [key'|n]; cbn in Hin; [|by apply elem_of_nil in Hin].
    apply list_elem_of_fmap in Hin as (rule' & [= -> -> -> ->] & Hr). done.
  - intros (-> & He & Hr). exists (IString key, v). split; [|done].
    cbn. apply list_elem_of_fmap. by exists rule.
Qed.

Lemma elem_of_all_checks t v c key tarr rule :
  visits t v ->
  (c, key, tarr, rule) ∈ all_checks t v
  <-> pluralTanslations c t !! IString key = Some tarr
      /\ rule ∈ plurals c (locale t).
Proof.
  intros (_ & Hc & Ho & Hr). unfold all_checks.
  rewrite !elem_of_app, !elem_of_checks, Hc, Ho, Hr, !elem_of_map_to_list.
  destruct c; cbn [pluralTanslations]; split; try tauto; intros [H|[H|H]]; try tauto;
    destruct H as [? _]; done.
Qed.

Lemma slot_is_nil_slot_at c t key tarr rule :
  pluralTanslations c t !! IString key = Some tarr ->
  slot_is_nil tarr rule = false <-> is_Some (slot_at c t key rule).
Proof.
  intros Hk. unfold slot_is_nil, slot_at. rewrite Hk.
  destruct (tarr !! _) as [[e|]|]; split; try done; try (by intros [? ?]);
    by eexists.
Qed.

Lemma first_empty_slot_None t v :
  visits t v -> first_empty_slot t v = None <-> fully_populated t.
Proof.
  intros Hv. unfold first_empty_slot, fully_populated. split.
  - intros Hf c key rule [tarr Hk] Hr.
    apply (slot_is_nil_slot_at c t key tarr rule Hk).
    apply (List.find_none _ _ Hf (c, key, tarr, rule)).
    apply list_elem_of_In, elem_of_all_checks; done.
  - intros Hfull. destruct (List.find _ _) as [[[[c key] tarr] rule]|] eqn:Hf; [|done].
    apply List.find_some in Hf as [Hin Hnil].
    apply list_elem_of_In, elem_of_all_checks in Hin as [Hk Hr]; [|done].
    assert (slot_is_nil tarr rule = false); [|congruence].
    apply (slot_is_nil_slot_at c t key tarr rule Hk). apply Hfull; [by eexists|done].
Qed.

(** Claim C4.  On a store satisfying the invariant, for every visiting
    order: [VerifyTranslations] succeeds exactly when every stored key of
    the three plural maps has an entry for every rule of the locale's list
    for that category; otherwise it returns [ErrMissingPluralTranslation]
    with the locale, the key, the rule and the category's name for the
    first empty slot of the traversal (cardinal, then ordinal, then range;
    the cardinal category is named "plural"). *)
Theorem VerifyTranslations_complete t v :
  wf t ->
  visits t v ->
  (VerifyTranslations t v = Returns None <-> fully_populated t)
  /\ match first_empty_slot t v with
     | Some (c, key, _, rule) =>
         VerifyTranslations t v
         = Returns (Some (ErrMissingPluralTranslation (Locale (locale t)) key rule
                            (translationType c)))
     | None => VerifyTranslations t v = Returns None
     end.
Proof.
  intros Hwf Hv. rewrite VerifyTranslations_first_empty by done.
  rewrite <- (first_empty_slot_None t v Hv).
  destruct (first_empty_slot t v) as [[[[c key] tarr] rule]|]; cbn; [|done].
  split; [|done]. split; [by intros [= ?]|done].
Qed.

Lemma visits_default t : visits t (visit_default t).
Proof. by repeat split. Qed.

Lemma wf_t_days_other : wf t_days_other.
Proof. apply wf_after_addPlural, wf_newTranslator. Qed.

(** The theorem on the specification's scenario: key "days" with only
    the [other] form. *)
Lemma VerifyTranslations_complete_witness :
  (VerifyTranslations t_days_other (visit_default t_days_other) = Returns None
   <-> fully_populated t_days_other)
  /\ VerifyTranslations t_days_other (visit_default t_days_other)
     = Returns (Some (ErrMissingPluralTranslation "en" "days" PluralRuleOne "plural")).
Proof.
  exact (VerifyTranslations_complete t_days_other (visit_default t_days_other)
           wf_t_days_other (visits_default t_days_other)).
Defined.

(** The scenario continued: with the [one] form added, verification
    succeeds. *)
Example VerifyTranslations_days_both :
  VerifyTranslations t_days_both (visit_default t_days_both) = Returns None.
Proof. reflexivity. Qed.

(** ** Import *)

Lemma registry_eta ut : {| translators := translators ut |} = ut.
Proof. by destruct ut. Qed.

Lemma and_then_assoc m f g :
  and_then (and_then m f) g = and_then m (fun t => and_then (f t) g).
Proof.
  unfold and_then. destruct m as [[t [e|]]|p]; cbn [mbind outcome_bind obind]; done.
Qed.

Lemma and_then_ext m f g :
  (forall t, f t = g t) -> and_then m f = and_then m g.
Proof.
  intros H. unfold and_then. destruct m as [[t [e|]]|p]; cbn [mbind outcome_bind obind];
    [done|apply H|done].
Qed.


Lemma and_then_ret_r m : and_then m (fun t => Returns (t, None)) = m.
Proof. unfold and_then. by destruct m as [[t [e|]]|p]. Qed.

Lemma run_calls_on_app t l1 l2 :
  run_calls_on t (l1 ++ l2)
  = and_then (run_calls_on t l1) (fun t' => run_calls_on t' l2).
Proof.
  revert t. induction l1 as [|cl l1 IH]; intros t; cbn [app run_calls_on]; [done|].
  rewrite and_then_assoc. apply and_then_ext. intros t'. apply IH.
Qed.

Lemma add_field_calls c lc key ov rule field t :
  add_field (addPlural c) key field rule ov t
  = run_calls_on t (field_call lc c key ov rule field).
Proof.
  unfold add_field, field_call. destruct (String.eqb field EmptyString); [done|].
  cbn [run_calls_on call_target call_key call_text call_override add_to].
  by rewrite and_then_ret_r.
Qed.

Lemma add_fields_calls c lc key r t :
  add_fields (addPlural c) key r t = run_calls_on t (field_calls lc c key r).
Proof.
  unfold add_fields, field_calls. rewrite !and_then_assoc.
  revert t.
  repeat (intros t; rewrite run_calls_on_app, <- (add_field_calls c lc);
          apply and_then_ext; clear t).
  intros t. apply add_field_calls.
Qed.

Lemma run_steps_app ut l1 l2 :
  run_steps ut (l1 ++ l2)
  = '(ut', e) ← run_steps ut l1;
    match e with
    | Some _ => Returns (ut', e)
    | None => run_steps ut' l2
    end.
Proof.
  revert ut. induction l1 as [|[cl|err] l1 IH]; intros ut; cbn [app run_steps]; [done| |done].
  destruct (do_call ut cl) as [[ut' [e|]]|p]; cbn [mbind outcome_bind obind]; [done| |done].
  apply IH.
Qed.

Lemma run_steps_calls ut lc t cls :
  translators ut !! lc = Some t ->
  Forall (fun cl => call_locale cl = lc) cls ->
  run_steps ut (StepCall <$> cls)
  = '(t', e) ← run_calls_on t cls;
    Returns ({| translators := <[lc := t']> (translators ut) |}, e).
Proof.
  intros Hk Hall. revert ut t Hk.
  induction Hall as [|cl cls Hlc _ IH]; intros ut t Hk.
  - cbn. by rewrite insert_id, registry_eta.
  - cbn [fmap list_fmap run_steps run_calls_on]. unfold do_call. rewrite Hlc, Hk.
    unfold and_then.
    destruct (add_to _ _ _ _ _) as [[t' [e|]]|p]; cbn [mbind outcome_bind obind];
      [done| |done].
    rewrite (IH _ t') by apply lookup_insert_eq. cbn [translators].
    destruct (run_calls_on t' cls) as [[t'' e]|p]; cbn [mbind outcome_bind obind]; [|done].
    by rewrite insert_insert_eq.
Qed.

Lemma field_call_locale lc c key ov rule field :
  Forall (fun cl => call_locale cl = lc) (field_call lc c key ov rule field).
Proof. unfold field_call. destruct (String.eqb _ _); by repeat constructor. Qed.

Lemma field_calls_locale lc c key r :
  Forall (fun cl => call_locale cl = lc) (field_calls lc c key r).
Proof. unfold field_calls. repeat apply Forall_app_2; apply field_call_locale. Qed.

Lemma FindTranslator_Some ut l lc :
  FindTranslator ut [l] = Some lc -> is_Some (translators ut !! lc).
Proof.
  cbn. destruct (bool_decide (is_Some (translators ut !! ToLower l))) eqn:E; [|done].
  intros [= <-]. by apply bool_decide_eq_true_1 in E.
Qed.

Lemma import_record_steps ut key r :
  import_record ut key r = run_steps ut (record_steps ut key r).
Proof.
  unfold import_record, record_steps.
  destruct (FindTranslator ut [tLocale r]) as [lc|] eqn:Hf; [|done].
  destruct (FindTranslator_Some _ _ _ Hf) as [t Hk]. rewrite Hk.
  unfold import_into.
  destruct (_ || _).
  { cbn [run_steps]. unfold do_call. cbn [call_locale call_target call_key call_text
      call_override add_to]. rewrite Hk.
    by destruct (Add _ _ _ _) as [[t' [e|]]|p]. }
  destruct (String.eqb _ RuleTypeCardinal).
  { rewrite (run_steps_calls ut lc t) by (by apply field_calls_locale || done).
    unfold AddCardinal. by rewrite (add_fields_calls Cardinal lc). }
  destruct (String.eqb _ RuleTypeOrdinal).
  { rewrite (run_steps_calls ut lc t) by (by apply field_calls_locale || done).
    unfold AddOrdinal. by rewrite (add_fields_calls Ordinal lc). }
  destruct (String.eqb _ RuleTypeRange).
  { rewrite (run_steps_calls ut lc t) by (by apply field_calls_locale || done).
    unfold AddRange. by rewrite (add_fields_calls Range lc). }
  cbn. by rewrite insert_id, registry_eta.
Qed.

Lemma FindTranslator_same_locales ut ut' ls :
  same_locales ut ut' -> FindTranslator ut ls = FindTranslator ut' ls.
Proof.
  intros H. induction ls as [|l ls IH]; cbn; [done|].
  rewrite IH. by rewrite (bool_decide_ext _ _ (H (ToLower l))).
Qed.

Lemma record_steps_same_locales ut ut' key r :
  same_locales ut ut' -> record_steps ut key r = record_steps ut' key r.
Proof. intros H. unfold record_steps. by rewrite (FindTranslator_same_locales ut ut'). Qed.

Lemma do_call_same_locales ut cl ut' e :
  do_call ut cl = Returns (ut', e) -> same_locales ut ut'.
Proof.
  unfold do_call. destruct (translators ut !! call_locale cl) as [t|] eqn:Hk; [|done].
  destruct (add_to _ _ _ _ _) as [[t' e']|p]; cbn [mbind outcome_bind obind]; [|done].
  intros [= <- <-] lc. cbn [translators].
  destruct (decide (lc = call_locale cl)) as [->|Hne].
  - rewrite lookup_insert_eq, Hk. split; by eexists.
  - by rewrite lookup_insert_ne.
Qed.

Lemma run_steps_same_locales steps : forall ut ut' e,
  run_steps ut steps = Returns (ut', e) -> same_locales ut ut'.
Proof.
  induction steps as [|[cl|err] steps IH]; intros ut ut' e; cbn [run_steps].
  - by intros [= <- <-].
  - destruct (do_call ut cl) as [[ut1 [e1|]]|p] eqn:Hd; cbn [mbind outcome_bind obind];
      [|  |done].
    + intros [= <- <-]. by eapply do_call_same_locales.
    + intros H lc. rewrite (do_call_same_locales _ _ _ _ Hd lc). by eapply IH.
  - by intros [= <- <-].
Qed.

Lemma ImportFromReader_plan_gen ut0 recs : forall ut,
  same_locales ut0 ut ->
  ImportFromReader ut recs = run_steps ut (plan ut0 recs).
Proof.
  induction recs as [|[key r] recs IH]; intros ut Hs; [done|].
  cbn [ImportFromReader]. unfold plan. cbn [mbind list_bind]. fold (plan ut0 recs).
  rewrite run_steps_app, import_record_steps, (record_steps_same_locales ut0 ut) by done.
  destruct (run_steps ut (record_steps ut key r)) as [[ut' [e|]]|p] eqn:Hr;
    cbn [mbind outcome_bind obind]; [done| |done].
  apply IH. intros lc. rewrite (Hs lc). by eapply run_steps_same_locales.
Qed.

(** [ImportFromReader] runs its plan. *)
Lemma ImportFromReader_plan ut recs :
  ImportFromReader ut recs = run_steps ut (plan ut recs).
Proof. by apply ImportFromReader_plan_gen. Qed.


Lemma Returns_inj {A} (a b : A) : Returns a = Returns b -> a = b.
Proof. intros H. by injection H. Qed.

Lemma add_to_not_string tg t n txt ov :
  add_to tg t (IInt n) txt ov = Returns (t, Some ErrKeyIsNotString).
Proof. by destruct tg. Qed.

Lemma add_to_success tg t key txt ov t' :
  wf t ->
  add_to tg t (IString key) txt ov = Returns (t', None) ->
  is_Some (compile tg txt) /\ entry_at tg t' key = compile tg txt.
Proof.
  intros Hwf HA. destruct tg as [|c rule]; cbn [add_to compile entry_at] in *.
  - destruct (Add_spec t key txt ov) as (r & Hr & Hres). rewrite Hr in HA.
    apply Returns_inj in HA as ->.
    inversion Hres as [? Hov|Hc Hn|p Hc Hn Hcomp|e Hc Hcomp]; subst.
    rewrite Hcomp. split; [by eexists|]. cbn. apply lookup_insert_eq.
  - destruct (decide (rule ∈ plurals c (locale t))) as [Hr|Hr].
    2:{ rewrite addPlural_bad_rule in HA by done. by destruct c. }
    rewrite addPlural_spec in HA; [|done|by apply wf_len_at].
    destruct (_ && _); [done|].
    destruct (plural_compile c txt) as [e|] eqn:Hcomp; [|done].
    apply Returns_pair_inj in HA as [<- _]. split; [by eexists|].
    rewrite slot_at_put_slot by by apply wf_len_at. by rewrite decide_True.
Qed.

Lemma add_to_frame tg t key txt ov t' e tg' key' :
  wf t ->
  add_to tg t (IString key) txt ov = Returns (t', e) ->
  (tg, key) <> (tg', key') ->
  entry_at tg' t' key' = entry_at tg' t key'.
Proof.
  intros Hwf HA Hne. destruct tg as [|c rule]; cbn [add_to] in HA.
  - destruct (Add_spec t key txt ov) as (r & Hr & Hres). rewrite Hr in HA.
    apply Returns_inj in HA as ->.
    inversion Hres as [? Hov|Hc Hn|p Hc Hn Hcomp|e0 Hc Hcomp]; subst; try done.
    destruct tg' as [|c' rule']; cbn [entry_at].
    + cbn. apply lookup_insert_ne. congruence.
    + apply slot_at_with_translations.
  - destruct (decide (rule ∈ plurals c (locale t))) as [Hr|Hr].
    2:{ rewrite addPlural_bad_rule in HA by done.
        by apply Returns_pair_inj in HA as [<- _]. }
    rewrite addPlural_spec in HA; [|done|by apply wf_len_at].
    assert (Hput : forall v, entry_at tg' (put_slot c t key rule v) key'
                             = entry_at tg' t key').
    { intros v. destruct tg' as [|c' rule']; cbn [entry_at].
      - unfold put_slot. by rewrite translations_with_plural.
      - rewrite slot_at_put_slot by by apply wf_len_at.
        rewrite decide_False; [done|]. intros (-> & -> & ->). done. }
    destruct (_ && _); [by apply Returns_pair_inj in HA as [<- _]|].
    destruct (plural_compile c txt) as [e0|];
      apply Returns_pair_inj in HA as [<- _]; apply Hput.
Qed.

Lemma wf_registry_do_call ut cl ut' e :
  wf_registry ut -> do_call ut cl = Returns (ut', e) -> wf_registry ut'.
Proof.
  intros Hwf. unfold do_call.
  destruct (translators ut !! call_locale cl) as [t|] eqn:Hk; [|done].
  destruct (add_to _ _ _ _ _) as [[t' e']|p] eqn:HA; cbn [mbind outcome_bind obind];
    [|done].
  intros H. apply Returns_pair_inj in H as [<- _]. intros lc t0. cbn [translators].
  destruct (decide (lc = call_locale cl)) as [->|Hne].
  - rewrite lookup_insert_eq. intros [= <-]. eapply wf_add_to; [|exact HA]. by eapply Hwf.
  - rewrite lookup_insert_ne by done. apply Hwf.
Qed.

Lemma do_call_success ut cl ut' :
  wf_registry ut -> do_call ut cl = Returns (ut', None) -> committed ut' cl.
Proof.
  intros Hwf. unfold do_call, committed, entry_of.
  destruct (translators ut !! call_locale cl) as [t|] eqn:Hk; [|done].
  destruct (add_to _ _ _ _ _) as [[t' e']|p] eqn:HA; cbn [mbind outcome_bind obind];
    [|done].
  intros H. apply Returns_pair_inj in H as [<- ->]. cbn [translators].
  rewrite lookup_insert_eq.
  apply add_to_success in HA as [Hs He]; [|by eapply Hwf]. by rewrite He.
Qed.

Lemma do_call_frame ut cl ut' e cl' :
  wf_registry ut -> do_call ut cl = Returns (ut', e) ->
  call_id cl <> call_id cl' ->
  entry_of ut' cl' = entry_of ut cl'.
Proof.
  intros Hwf. unfold do_call, entry_of, call_id.
  destruct (translators ut !! call_locale cl) as [t|] eqn:Hk; [|done].
  destruct (add_to _ _ _ _ _) as [[t' e']|p] eqn:HA; cbn [mbind outcome_bind obind];
    [|done].
  intros H Hne. apply Returns_pair_inj in H as [<- _]. cbn [translators].
  destruct (decide (call_locale cl' = call_locale cl)) as [->|Hlc].
  - rewrite lookup_insert_eq, Hk. eapply add_to_frame; [by eapply Hwf|exact HA|done].
  - by rewrite lookup_insert_ne.
Qed.

Lemma wf_registry_run_steps steps : forall ut ut' e,
  wf_registry ut -> run_steps ut steps = Returns (ut', e) -> wf_registry ut'.
Proof.
  induction steps as [|[cl|err] steps IH]; intros ut ut' e Hwf; cbn [run_steps].
  - intros H. by apply Returns_pair_inj in H as [<- _].
  - destruct (do_call ut cl) as [[ut1 [e1|]]|p] eqn:Hd; cbn [mbind outcome_bind obind];
      [| |done].
    + intros H. apply Returns_pair_inj in H as [<- _]. by eapply wf_registry_do_call.
    + apply IH. by eapply wf_registry_do_call.
  - intros H. by apply Returns_pair_inj in H as [<- _].
Qed.

Lemma calls_cons_call cl steps : calls (StepCall cl :: steps) = cl :: calls steps.
Proof. done. Qed.

Lemma run_steps_frame steps cl' : forall ut ut' e,
  wf_registry ut -> run_steps ut steps = Returns (ut', e) ->
  call_id cl' ∉ call_id <$> calls steps ->
  entry_of ut' cl' = entry_of ut cl'.
Proof.
  induction steps as [|[cl|err] steps IH]; intros ut ut' e Hwf; cbn [run_steps].
  - intros H _. by apply Returns_pair_inj in H as [<- _].
  - rewrite calls_cons_call, fmap_cons, not_elem_of_cons. intros H [Hne Hnin].
    destruct (do_call ut cl) as [[ut1 [e1|]]|p] eqn:Hd; cbn [mbind outcome_bind obind] in H;
      [| |done].
    + apply Returns_pair_inj in H as [<- _]. by eapply do_call_frame.
    + rewrite (IH ut1 ut' e); [|by eapply wf_registry_do_call|done|done].
      by eapply do_call_frame.
  - intros H _. by apply Returns_pair_inj in H as [<- _].
Qed.

Lemma committed_frame ut ut' cl :
  entry_of ut' cl = entry_of ut cl -> committed ut cl -> committed ut' cl.
Proof. unfold committed. by intros ->. Qed.

Lemma run_steps_committed steps : forall ut ut',
  wf_registry ut -> run_steps ut steps = Returns (ut', None) ->
  NoDup (call_id <$> calls steps) ->
  forall cl, cl ∈ calls steps -> committed ut' cl.
Proof.
  induction steps as [|[cl|err] steps IH]; intros ut ut' Hwf; cbn [run_steps].
  - intros _ _ cl Hin. by apply elem_of_nil in Hin.
  - rewrite calls_cons_call, fmap_cons, NoDup_cons. intros H [Hnin Hnd] cl' Hin.
    destruct (do_call ut cl) as [[ut1 [e1|]]|p] eqn:Hd; cbn [mbind outcome_bind obind] in H;
      [done| |done].
    pose proof (wf_registry_do_call _ _ _ _ Hwf Hd) as Hwf1.
    apply elem_of_cons in Hin as [->|Hin].
    + eapply committed_frame; [exact (run_steps_frame steps cl ut1 ut' None Hwf1 H Hnin)|].
      exact (do_call_success ut cl ut1 Hwf Hd).
    + exact (IH ut1 ut' Hwf1 H Hnd cl' Hin).
  - done.
Qed.

Lemma calls_app l1 l2 : calls (l1 ++ l2) = calls l1 ++ calls l2.
Proof. apply omap_app. Qed.

Lemma calls_StepCall cls : calls (StepCall <$> cls) = cls.
Proof. induction cls as [|cl cls IH]; [done|]. cbn. by f_equal. Qed.

Lemma field_call_ids lc c key ov rule field :
  call_id <$> field_call lc c key ov rule field `sublist_of` [(Plural c rule, key)].
Proof.
  unfold field_call. destruct (String.eqb _ _); cbn; [apply sublist_nil_l|done].
Qed.

Lemma field_calls_ids lc c key r :
  call_id <$> field_calls lc c key r
  `sublist_of` (fun rule => (Plural c rule, key))
     <$> [PluralRuleZero; PluralRuleOne; PluralRuleTwo; PluralRuleFew;
          PluralRuleMany; PluralRuleOther].
Proof.
  unfold field_calls. rewrite !fmap_app.
  change (_ <$> [PluralRuleZero; _; _; _; _; _]) with
    ([(Plural c PluralRuleZero, key)] ++ [(Plural c PluralRuleOne, key)]
     ++ [(Plural c PluralRuleTwo, key)] ++ [(Plural c PluralRuleFew, key)]
     ++ [(Plural c PluralRuleMany, key)] ++ [(Plural c PluralRuleOther, key)]).
  repeat apply sublist_app; apply field_call_ids.
Qed.

Lemma field_calls_NoDup lc c key r : NoDup (call_id <$> field_calls lc c key r).
Proof.
  eapply sublist_NoDup; [|apply field_calls_ids].
  apply NoDup_ListNoDup. repeat constructor; cbn; intuition discriminate.
Qed.

Lemma field_call_key lc c key ov rule field :
  Forall (fun cl => call_key cl = key) (field_call lc c key ov rule field).
Proof. unfold field_call. destruct (String.eqb _ _); by repeat constructor. Qed.

Lemma field_calls_key lc c key r :
  Forall (fun cl => call_key cl = key) (field_calls lc c key r).
Proof. unfold field_calls. repeat apply Forall_app_2; apply field_call_key. Qed.

Lemma record_steps_ids ut key r :
  NoDup (call_id <$> calls (record_steps ut key r))
  /\ Forall (fun cl => call_key cl = key) (calls (record_steps ut key r)).
Proof.
  unfold record_steps.
  destruct (FindTranslator ut [tLocale r]) as [lc|]; [|split; [apply NoDup_nil_2|done]].
  cbv zeta.
  destruct (_ || _); [split; [apply NoDup_singleton|by repeat constructor]|].
  repeat (destruct (String.eqb _ _);
          [rewrite calls_StepCall; split; [apply field_calls_NoDup|apply field_calls_key]|]).
  split; [apply NoDup_nil_2|done].
Qed.

Lemma plan_keys ut recs :
  Forall (fun cl => call_key cl ∈ recs.*1) (calls (plan ut recs)).
Proof.
  induction recs as [|[key r] recs IH]; [done|].
  unfold plan. cbn [mbind list_bind]. fold (plan ut recs).
  rewrite calls_app. apply Forall_app_2.
  - eapply Forall_impl; [apply (record_steps_ids ut key r)|].
    intros cl ->. cbn. apply elem_of_cons. by left.
  - eapply Forall_impl; [exact IH|]. intros cl H. cbn. apply elem_of_cons. by right.
Qed.

Lemma plan_ids_NoDup ut recs :
  NoDup recs.*1 -> NoDup (call_id <$> calls (plan ut recs)).
Proof.
  induction recs as [|[key r] recs IH]; [intros; apply NoDup_nil_2|].
  cbn [fmap list_fmap fst]. rewrite NoDup_cons. intros [Hnin Hnd].
  unfold plan. cbn [mbind list_bind]. fold (plan ut recs).
  rewrite calls_app, fmap_app. apply NoDup_app.
  destruct (record_steps_ids ut key r) as [Hn1 Hk1].
  split; [done|]. split; [|by apply IH].
  intros [tg k] [cl1 [[= -> ->] Hin1]]%list_elem_of_fmap [cl2 [[= _ Hk] Hin2]]%list_elem_of_fmap.
  rewrite Forall_forall in Hk1. rewrite (Hk1 _ Hin1) in Hk.
  pose proof (plan_keys ut recs) as Hk2. rewrite Forall_forall in Hk2.
  apply Hnin. rewrite Hk. by apply Hk2.
Qed.

(** Claim C7.  When the first failing Add-family call of an import is
    [cl], after the calls [pre] that all succeeded: [ImportFromReader]
    returns the error of [cl] with the registry as [cl] left it, whatever
    steps would follow, and every entry committed by a call of [pre] is
    still in the registry as committed. *)
Theorem ImportFromReader_first_error ut recs pre cl post ut1 ut2 err :
  wf_registry ut ->
  NoDup recs.*1 ->
  plan ut recs = pre ++ StepCall cl :: post ->
  run_steps ut pre = Returns (ut1, None) ->
  do_call ut1 cl = Returns (ut2, Some err) ->
  ImportFromReader ut recs = Returns (ut2, Some err)
  /\ (forall post', run_steps ut (pre ++ StepCall cl :: post') = Returns (ut2, Some err))
  /\ (forall cl', cl' ∈ calls pre -> committed ut1 cl' /\ committed ut2 cl').
Proof.
  intros Hwf Hnd Hplan Hpre Hcl.
  assert (Hrun : forall post',
            run_steps ut (pre ++ StepCall cl :: post') = Returns (ut2, Some err)).
  { intros post'. rewrite run_steps_app, Hpre. cbn [mbind outcome_bind obind run_steps].
    by rewrite Hcl. }
  split; [by rewrite ImportFromReader_plan, Hplan|]. split; [done|].
  intros cl' Hin.
  apply plan_ids_NoDup with (ut := ut) in Hnd.
  rewrite Hplan, calls_app, calls_cons_call, fmap_app, fmap_cons in Hnd.
  apply NoDup_app in Hnd as (Hnd1 & Hdis & Hnd2).
  pose proof (wf_registry_run_steps _ _ _ _ Hwf Hpre) as Hwf1.
  assert (Hc1 : committed ut1 cl') by exact (run_steps_committed pre ut ut1 Hwf Hpre Hnd1 cl' Hin).
  split; [done|].
  eapply committed_frame; [|exact Hc1].
  eapply do_call_frame; [done|exact Hcl|].
  intros Heq. apply (Hdis (call_id cl')).
  - apply list_elem_of_fmap. by exists cl'.
  - rewrite <- Heq. apply elem_of_cons. by left.
Qed.

Lemma wf_registry_insert m lc l :
  wf_registry {| translators := m |} ->
  wf_registry {| translators := <[lc := newTranslator l]> m |}.
Proof.
  intros H lc' t. cbn [translators].
  destruct (decide (lc' = lc)) as [->|Hne].
  - rewrite lookup_insert_eq. intros [= <-]. apply wf_newTranslator.
  - rewrite lookup_insert_ne by done. apply H.
Qed.

Lemma wf_registry_new ls : wf_registry (NewUniversalTranslator ls).
Proof.
  unfold NewUniversalTranslator.
  assert (H : wf_registry {| translators := ∅ |}).
  { intros lc t. cbn. by rewrite lookup_empty. }
  revert H. generalize (∅ : gmap string translator).
  induction ls as [|l ls IH]; intros m H; [done|].
  cbn [foldl]. apply IH. by apply wf_registry_insert.
Qed.

(** The theorem on three plain records of which the second has
    unbalanced braces: the first stays committed, the third is never
    applied. *)
Lemma ImportFromReader_first_error_witness :
  ImportFromReader ut_en recs_bad_second
  = Returns (ut_en_a, Some (ErrMissingBrace "en" (IString "b") "bad {0"))
  /\ (forall post',
        run_steps ut_en ([StepCall call_a] ++ StepCall call_b :: post')
        = Returns (ut_en_a, Some (ErrMissingBrace "en" (IString "b") "bad {0")))
  /\ (forall cl', cl' ∈ calls [StepCall call_a] ->
        committed ut_en_a cl' /\ committed ut_en_a cl').
Proof.
  apply (ImportFromReader_first_error ut_en recs_bad_second
           [StepCall call_a] call_b [StepCall call_c] ut_en_a ut_en_a).
  - apply wf_registry_new.
  - apply NoDup_ListNoDup. repeat constructor; cbn; intuition discriminate.
  - reflexivity.
  - reflexivity.
  - reflexivity.
Defined.

(** ** Export *)


Lemma ensure_record_lookup trans key :
  ensure_record trans key !! key = Some (default translation_zero (trans !! key)).
Proof.
  unfold ensure_record. destruct (trans !! key) eqn:E; [done|].
  by rewrite lookup_insert_eq.
Qed.

Lemma ensure_record_lookup_ne trans key key' :
  key' <> key -> ensure_record trans key !! key' = trans !! key'.
Proof.
  intros H. unfold ensure_record. destruct (trans !! key); [done|].
  by rewrite lookup_insert_ne.
Qed.

Lemma export_plain_lookup l entries : forall trans,
  Forall (fun kv => is_Some (as_string kv.1)) entries ->
  NoDup entries.*1 ->
  exists trans',
    export_plain trans l entries = (trans', None)
    /\ (forall key e, (IString key, e) ∈ entries ->
          trans' !! key
          = Some (set_Other (set_tLocale (default translation_zero (trans !! key)) l)
                    (text e)))
    /\ (forall key, IString key ∉ entries.*1 -> trans' !! key = trans !! key).
Proof.
  induction entries as [|[k e0] entries IH]; intros trans Hs Hnd.
  { exists trans. split; [done|]. split; [|done]. intros ? ? H. by apply elem_of_nil in H. }
  apply Forall_cons in Hs as [[key0 Hk0] Hs]. cbn in Hk0.
  destruct k as [k0|]; [|done]. injection Hk0 as <-.
  cbn [fmap list_fmap fst] in Hnd. apply NoDup_cons in Hnd as [Hnin Hnd].
  cbn [export_plain as_string]. rewrite ensure_record_lookup.
  destruct (IH (<[k0:=set_Other (set_tLocale (default translation_zero (trans !! k0)) l)
                        (text e0)]> (ensure_record trans k0)) Hs Hnd)
    as (trans' & -> & Hin & Hout).
  exists trans'. split; [done|]. split.
  - intros key e [[= -> ->]|He]%elem_of_cons.
    + rewrite Hout by done. by rewrite lookup_insert_eq.
    + rewrite (Hin _ _ He).
      assert (key <> k0).
      { intros ->. apply Hnin. apply list_elem_of_fmap. by exists (IString k0, e). }
      by rewrite lookup_insert_ne, ensure_record_lookup_ne.
  - intros key [Hne Hnin']%not_elem_of_cons. rewrite Hout by done.
    assert (key <> k0) by (by intros ->).
    by rewrite lookup_insert_ne, ensure_record_lookup_ne.
Qed.

Lemma exportPlurals_lookup l ty entries : forall trans,
  Forall (fun kv => is_Some (as_string kv.1)) entries ->
  NoDup entries.*1 ->
  exists trans',
    exportPlurals trans l ty entries = (trans', None)
    /\ (forall key tarr, (IString key, tarr) ∈ entries ->
          trans' !! key
          = Some (export_slots (default translation_zero (trans !! key)) l ty 0 tarr))
    /\ (forall key, IString key ∉ entries.*1 -> trans' !! key = trans !! key).
Proof.
  induction entries as [|[k e0] entries IH]; intros trans Hs Hnd.
  { exists trans. split; [done|]. split; [|done]. intros ? ? H. by apply elem_of_nil in H. }
  apply Forall_cons in Hs as [[key0 Hk0] Hs]. cbn in Hk0.
  destruct k as [k0|]; [|done]. injection Hk0 as <-.
  cbn [fmap list_fmap fst] in Hnd. apply NoDup_cons in Hnd as [Hnin Hnd].
  cbn [exportPlurals as_string]. rewrite ensure_record_lookup.
  destruct (IH (<[k0:=export_slots (default translation_zero (trans !! k0)) l ty 0 e0]>
                  (ensure_record trans k0)) Hs Hnd)
    as (trans' & -> & Hin & Hout).
  exists trans'. split; [done|]. split.
  - intros key e [[= -> ->]|He]%elem_of_cons.
    + rewrite Hout by done. by rewrite lookup_insert_eq.
    + rewrite (Hin _ _ He).
      assert (key <> k0).
      { intros ->. apply Hnin. apply list_elem_of_fmap. by exists (IString k0, e). }
      by rewrite lookup_insert_ne, ensure_record_lookup_ne.
  - intros key [Hne Hnin']%not_elem_of_cons. rewrite Hout by done.
    assert (key <> k0) by (by intros ->).
    by rewrite lookup_insert_ne, ensure_record_lookup_ne.
Qed.

Lemma visit_entries_facts {A} (m : gmap iface A) (entries : list (iface * A)) :
  entries ≡ₚ map_to_list m ->
  (forall k x, m !! k = Some x -> is_Some (as_string k)) ->
  Forall (fun kv => is_Some (as_string kv.1)) entries
  /\ NoDup entries.*1
  /\ (forall key x, (IString key, x) ∈ entries <-> m !! IString key = Some x)
  /\ (forall key, m !! IString key = None -> IString key ∉ entries.*1).
Proof.
  intros Hp Hk. repeat split.
  - apply Forall_forall. intros [k x] Hin. rewrite Hp in Hin.
    apply elem_of_map_to_list in Hin. by eapply Hk.
  - rewrite Hp. apply NoDup_fst_map_to_list.
  - rewrite Hp. apply elem_of_map_to_list.
  - rewrite Hp. apply elem_of_map_to_list.
  - intros key Hn [[k x] [Hkx Hin]]%list_elem_of_fmap. cbn in Hkx. subst k.
    rewrite Hp in Hin. apply elem_of_map_to_list in Hin. congruence.
Qed.




Lemma rule_category_lower :
  ToLower RuleTypeCardinal = RuleTypeCardinal
  /\ ToLower RuleTypeOrdinal = RuleTypeOrdinal
  /\ ToLower RuleTypeRange = RuleTypeRange.
Proof. by repeat split. Qed.










(** ** Import into a fresh store *)















(** ** Round trip *)

Lemma VerifyTranslations_None_iff t v :
  wf t -> visits t v ->
  VerifyTranslations t v = Returns None <-> fully_populated t.
Proof.
  intros Hwf Hv. rewrite VerifyTranslations_first_empty by done.
  rewrite <- (first_empty_slot_None t v Hv).
  destruct (first_empty_slot t v) as [[[[c key] tarr] rule]|]; cbn; [|done].
  split; [by intros [= ?]|done].
Qed.


Lemma wf_t_sample : wf t_sample.
Proof.
  apply wf_after_Add, wf_after_addPlural, wf_after_addPlural, wf_newTranslator.
Qed.





(** ** Stores built by the Add family: the invariant and what follows *)

Lemma built_wf t : built t -> wf t.
Proof.
  induction 1 as [l|tg t k txt ov t' e _ IH H].
  - apply wf_newTranslator.
  - by eapply wf_add_to.
Qed.

Lemma locale_put_slot c t key rule v : locale (put_slot c t key rule v) = locale t.
Proof. unfold put_slot. apply locale_with_plural. Qed.

Lemma add_to_returns tg t k txt ov :
  wf t ->
  exists t' e, add_to tg t k txt ov = Returns (t', e) /\ locale t' = locale t.
Proof.
  intros Hwf. destruct k as [key|n].
  2:{ rewrite add_to_not_string. by eexists _, _. }
  destruct tg as [|c rule]; cbn [add_to].
  - destruct (Add_spec t key txt ov) as ([t' e] & -> & Hres).
    exists t', e. split; [done|]. by inversion Hres.
  - destruct (decide (rule ∈ plurals c (locale t))) as [Hr|Hr].
    2:{ rewrite addPlural_bad_rule by done. by eexists _, _. }
    rewrite addPlural_spec; [|done|by apply wf_len_at].
    destruct (_ && _); [by eexists _, _|].
    destruct (plural_compile c txt);
      eexists _, _; (split; [reflexivity|apply locale_put_slot]).
Qed.

(** Property X1.  On a store built by the Add family, no call of [Add],
    [AddCardinal], [AddOrdinal] or [AddRange] panics, whatever the key,
    the text, the rule and the override flag: it returns, with or without
    an error, and the locale of the translator is the one it was created
    with. *)
Theorem built_add_never_panics t tg k txt ov :
  built t ->
  exists t' e, add_to tg t k txt ov = Returns (t', e)
               /\ locale t' = locale t /\ built t'.
Proof.
  intros Hb. destruct (add_to_returns tg t k txt ov (built_wf t Hb))
    as (t' & e & H & Hl).
  exists t', e. split; [done|]. split; [done|]. by eapply built_add.
Qed.

Lemma built_t_days : built t_days.
Proof.
  eapply (built_add (Plural Cardinal PluralRuleOne) t_empty (IString "days")
            "{0} day" false).
  - apply built_new.
  - reflexivity.
Qed.

Lemma built_add_never_panics_witness :
  exists t' e,
    add_to (Plural Cardinal PluralRuleMany) t_days (IInt 7) "{0} days" true
    = Returns (t', e)
    /\ locale t' = locale t_days /\ built t'.
Proof.
  apply (built_add_never_panics t_days (Plural Cardinal PluralRuleMany) (IInt 7)
           "{0} days" true built_t_days).
Defined.

(** ** What a plain [Add] touches and what it reports *)

(** Property X2.  [Add] writes nothing but the entry of its key in the
    plain map: the locale, the three plural maps and the entries of every
    other key are as before, and when it returns an error the whole store
    is unchanged. *)
Theorem Add_touches_one_key t k txt ov t' r :
  Add t k txt ov = Returns (t', r) ->
  locale t' = locale t
  /\ cardinalTanslations t' = cardinalTanslations t
  /\ ordinalTanslations t' = ordinalTanslations t
  /\ rangeTanslations t' = rangeTanslations t
  /\ (forall k', k' <> k -> translations t' !! k' = translations t !! k')
  /\ (is_Some r -> t' = t).
Proof.
  destruct k as [key|n].
  2:{ rewrite Add_not_string. intros H. apply Returns_pair_inj in H as [<- <-].
      by repeat split. }
  intros H. destruct (Add_spec t key txt ov) as (x & Hx & Hres).
  rewrite H in Hx. apply Returns_inj in Hx as <-.
  inversion Hres; subst; repeat split; try done.
  intros k' Hk'. cbn. by rewrite lookup_insert_ne.
Qed.

Lemma Add_touches_one_key_witness :
  locale t_greeting = locale t_empty
  /\ cardinalTanslations t_greeting = cardinalTanslations t_empty
  /\ ordinalTanslations t_greeting = ordinalTanslations t_empty
  /\ rangeTanslations t_greeting = rangeTanslations t_empty
  /\ (forall k', k' <> IString "greeting" ->
        translations t_greeting !! k' = translations t_empty !! k')
  /\ (is_Some (@None error) -> t_greeting = t_empty).
Proof.
  apply (Add_touches_one_key t_empty (IString "greeting") "Hello {0}" false
           t_greeting None).
  reflexivity.
Defined.

Lemma Add_loop_error t key txt n : forall i acc e,
  Add_loop t key txt n i acc = inr e ->
  exists j, (i <= j < i + n)%nat
    /\ e = ErrBadParamSyntax (Locale (locale t)) (placeholder j) key txt
    /\ Index txt (placeholder j) = -1
    /\ forall j', (i <= j' < j)%nat -> Index txt (placeholder j') <> -1.
Proof.
  induction n as [|n IH]; intros i acc e; cbn [Add_loop]; [done|].
  fold (placeholder i).
  destruct (Z.eqb_spec (Index txt (placeholder i)) (-1)) as [Hi|Hi].
  - intros [= <-]. exists i. split; [lia|]. split; [done|]. split; [done|]. lia.
  - intros H. apply IH in H as (j & Hj & -> & Hm & Hlt).
    exists j. split; [lia|]. split; [done|]. split; [done|].
    intros j' Hj'. destruct (decide (j' = i)) as [->|]; [done|]. apply Hlt. lia.
Qed.

(** Property X3.  When [Add] fails with [ErrBadParamSyntax], the braces of
    the text are balanced and the reported parameter is the placeholder
    with the lowest number that does not occur in the text, a number below
    the count of opening braces; the error carries the locale, the key and
    the text of the call. *)
Theorem Add_reports_first_missing t key txt ov t' l p k x :
  Add t (IString key) txt ov = Returns (t', Some (ErrBadParamSyntax l p k x)) ->
  Count txt "{" = Count txt "}"
  /\ l = Locale (locale t) /\ k = key /\ x = txt
  /\ exists i, (i < Count txt "{")%nat
       /\ p = placeholder i
       /\ Index txt (placeholder i) = -1
       /\ forall j, (j < i)%nat -> Index txt (placeholder j) <> -1.
Proof.
  unfold Add. cbn [as_string].
  destruct (_ && _); [intros H; by apply Returns_pair_inj in H as [_ ?]|].
  destruct (Nat.eqb_spec (Count txt "{") (Count txt "}")) as [E|E]; cbn [negb];
    [|intros H; by apply Returns_pair_inj in H as [_ ?]].
  destruct (Add_loop _ _ _ _ _ _) as [idxs|e] eqn:HL;
    [intros H; by apply Returns_pair_inj in H as [_ ?]|].
  intros H. apply Returns_pair_inj in H as [_ [= ->]].
  apply Add_loop_error in HL as (j & Hj & [= -> -> -> ->] & Hm & Hlt).
  split; [done|]. do 3 (split; [done|]).
  exists j. split; [lia|]. split; [done|]. split; [done|].
  intros j' Hj'. apply Hlt. lia.
Qed.

Lemma Add_reports_first_missing_witness :
  Count "{0} to {2} of {3}" "{" = Count "{0} to {2} of {3}" "}"
  /\ "en" = Locale (locale t_empty) /\ "k" = "k"
  /\ "{0} to {2} of {3}" = "{0} to {2} of {3}"
  /\ exists i, (i < Count "{0} to {2} of {3}" "{")%nat
       /\ "{1}" = placeholder i
       /\ Index "{0} to {2} of {3}" (placeholder i) = -1
       /\ forall j, (j < i)%nat -> Index "{0} to {2} of {3}" (placeholder j) <> -1.
Proof.
  apply (Add_reports_first_missing t_empty "k" "{0} to {2} of {3}" false t_empty
           "en" "{1}" "k" "{0} to {2} of {3}").
  reflexivity.
Defined.

(** ** The plural render functions *)

Lemma substring_length s : forall n m,
  (n + m <= String.length s)%nat -> String.length (String.substring n m s) = m.
Proof.
  induction s as [|a s IH]; intros n m H; cbn in H.
  - assert (n = 0 /\ m = 0)%nat as [-> ->] by lia. reflexivity.
  - destruct n as [|n]; cbn [String.substring].
    + destruct m as [|m]; [reflexivity|]. cbn [String.length]. rewrite IH; lia.
    + apply IH. lia.
Qed.

Lemma slice_len s a b x : slice s a b = Returns x -> len x = b - a.
Proof.
  intros H. destruct (slice_bounds _ _ _ _ H) as (H0 & H1 & H2).
  revert H. unfold slice. destruct (_ && _ && _); [|done]. intros [= <-].
  unfold len in *. rewrite substring_length; lia.
Qed.

(** A text cut at an occurrence of [sub] between [lo] and [lo + len sub]. *)
Lemma slice_around s sub lo :
  slice s lo (lo + len sub) = Returns sub ->
  exists pre post,
    slice_to s lo = Returns pre
    /\ slice_from s (lo + len sub) = Returns post
    /\ s = pre +:+ sub +:+ post
    /\ len pre = lo.
Proof.
  intros H. destruct (slice_bounds _ _ _ _ H) as (H0 & H1 & H2).
  destruct (slice_defined s 0 lo) as [pre Hpre]; [lia..|].
  destruct (slice_defined s (lo + len sub) (len s)) as [post Hpost]; [lia..|].
  exists pre, post. split; [done|]. split; [done|]. split.
  - pose proof (slice_app _ _ _ _ _ _ Hpre (slice_app _ _ _ _ _ _ H Hpost)) as E.
    fold (slice_from s 0) in E. rewrite slice_from_0 in E. by injection E.
  - apply slice_len in Hpre. lia.
Qed.

Lemma index_0 {A} (x : A) l : index (x :: l) 0 = Returns x.
Proof.
  unfold index. destruct (Z.ltb_spec 0 (Z.of_nat (length (x :: l)))) as [|H];
    [reflexivity|cbn [length] in H; lia].
Qed.

Lemma index_1 {A} (x y : A) l : index (x :: y :: l) 1 = Returns y.
Proof.
  unfold index. destruct (Z.ltb_spec 1 (Z.of_nat (length (x :: y :: l)))) as [|H];
    [reflexivity|cbn [length] in H; lia].
Qed.

Lemma index_2 {A} (x y z : A) l : index (x :: y :: z :: l) 2 = Returns z.
Proof.
  unfold index. destruct (Z.ltb_spec 2 (Z.of_nat (length (x :: y :: z :: l)))) as [|H];
    [reflexivity|cbn [length] in H; lia].
Qed.


Lemma splice1_substitutes c e param :
  c <> Range ->
  plural_compile c (text e) = Some e ->
  exists pre post,
    text e = pre +:+ paramZero +:+ post
    /\ len pre = Index (text e) paramZero
    /\ splice1 e param = Returns (pre +:+ param +:+ post).
Proof.
  intros Hc H. unfold plural_compile in H.
  destruct (Z.eqb_spec (Index (text e) paramZero) (-1)) as [|Hi]; [done|].
  assert (He : indexes e = [Index (text e) paramZero;
                             Index (text e) paramZero + len paramZero]).
  { destruct c; [| |done]; by injection H as <-. }
  destruct (slice_around _ _ _ (Index_locates _ _ Hi))
    as (pre & post & Hpre & Hpost & Htxt & Hlen).
  exists pre, post. split; [done|]. split; [done|].
  unfold splice1. rewrite He, index_0. cbn [mbind outcome_bind obind].
  rewrite Hpre. cbn [mbind outcome_bind obind].
  rewrite index_1. cbn [mbind outcome_bind obind].
  rewrite Hpost. reflexivity.
Qed.

Lemma range_compile_indexes e :
  plural_compile Range (text e) = Some e ->
  Index (text e) paramZero <> -1 /\ Index (text e) paramOne <> -1
  /\ indexes e = [Index (text e) paramZero; Index (text e) paramZero + len paramZero;
                  Index (text e) paramOne; Index (text e) paramOne + len paramOne].
Proof.
  unfold plural_compile.
  destruct (Z.eqb_spec (Index (text e) paramZero) (-1)) as [|H0]; [done|].
  destruct (Z.eqb_spec (Index (text e) paramOne) (-1)) as [|H1]; [done|].
  by intros [= <-].
Qed.


Lemma splice2_swapped e param1 param2 :
  plural_compile Range (text e) = Some e ->
  Index (text e) paramOne < Index (text e) paramZero ->
  splice2 e param1 param2
  = Panics (SliceBoundsOutOfRange (Index (text e) paramZero + len paramZero)
              (Index (text e) paramOne) (len (text e))).
Proof.
  intros H Hlt. destruct (range_compile_indexes e H) as (H0 & H1 & He).
  pose proof (Index_locates _ _ H0) as L0.
  destruct (slice_bounds _ _ _ _ L0) as (B0 & _ & B0').
  pose proof (len_nonneg paramZero).
  destruct (slice_defined (text e) 0 (Index (text e) paramZero)) as [pre Hpre]; [lia..|].
  unfold splice2, slice_to.
  rewrite He, index_0. cbn [mbind outcome_bind obind].
  rewrite Hpre. cbn [mbind outcome_bind obind].
  rewrite index_1, index_2. cbn [mbind outcome_bind obind].
  unfold slice at 1.
  destruct (Z.leb_spec (Index (text e) paramZero + len paramZero)
              (Index (text e) paramOne)) as [Hle|_].
  { lia. }
  by rewrite andb_false_r.
Qed.

Lemma render_slot c t key rule e :
  wf t -> slot_at c t key rule = Some e ->
  exists tarr, pluralTanslations c t !! IString key = Some tarr
    /\ index tarr (rule_index rule) = Returns (Some e)
    /\ plural_compile c (text e) = Some e.
Proof.
  intros Hwf He. destruct (slot_at_index c t key rule e Hwf He) as (tarr & Hk & Hi).
  exists tarr. split; [done|]. split; [done|]. by apply (wf_slot t Hwf c key rule e).
Qed.

(** Property X4.  [C] and [O] replace the first occurrence of [{0}]: the
    stored text for the rule of the number is [pre {0} post], cut at the
    first [{0}], and the call returns [pre param post] with no error. *)
Theorem C_O_substitute t key e param :
  wf t ->
  (forall num digits,
     slot_at Cardinal t key (CardinalPluralRule (locale t) num digits) = Some e ->
     exists pre post,
       text e = pre +:+ paramZero +:+ post
       /\ len pre = Index (text e) paramZero
       /\ C t (IString key) num digits param = Returns (pre +:+ param +:+ post, None))
  /\ (forall num digits,
     slot_at Ordinal t key (OrdinalPluralRule (locale t) num digits) = Some e ->
     exists pre post,
       text e = pre +:+ paramZero +:+ post
       /\ len pre = Index (text e) paramZero
       /\ O t (IString key) num digits param = Returns (pre +:+ param +:+ post, None)).
Proof.
  intros Hwf. split; intros num digits He.
  - destruct (render_slot _ _ _ _ _ Hwf He) as (tarr & Hk & Hi & Hc).
    destruct (splice1_substitutes Cardinal e param ltac:(done) Hc)
      as (pre & post & Htxt & Hlen & Hs).
    exists pre, post. split; [done|]. split; [done|].
    unfold C. cbn [as_string]. cbn in Hk. rewrite Hk, Hi. cbn [mbind outcome_bind obind deref].
    rewrite Hs. reflexivity.
  - destruct (render_slot _ _ _ _ _ Hwf He) as (tarr & Hk & Hi & Hc).
    destruct (splice1_substitutes Ordinal e param ltac:(done) Hc)
      as (pre & post & Htxt & Hlen & Hs).
    exists pre, post. split; [done|]. split; [done|].
    unfold O. cbn [as_string]. cbn in Hk. rewrite Hk, Hi. cbn [mbind outcome_bind obind deref].
    rewrite Hs. reflexivity.
Qed.

Lemma wf_t_days_both : wf t_days_both.
Proof. apply wf_after_addPlural, wf_t_days_other. Qed.

Lemma C_O_substitute_witness :
  (forall num digits,
     slot_at Cardinal t_days_both "days" (CardinalPluralRule (locale t_days_both) num digits)
     = Some (mkTransText "{0} days" [0; 3]) ->
     exists pre post,
       "{0} days" = pre +:+ paramZero +:+ post
       /\ len pre = Index "{0} days" paramZero
       /\ C t_days_both (IString "days") num digits "3"
          = Returns (pre +:+ "3" +:+ post, None))
  /\ (forall num digits,
     slot_at Ordinal t_days_both "days" (OrdinalPluralRule (locale t_days_both) num digits)
     = Some (mkTransText "{0} days" [0; 3]) ->
     exists pre post,
       "{0} days" = pre +:+ paramZero +:+ post
       /\ len pre = Index "{0} days" paramZero
       /\ O t_days_both (IString "days") num digits "3"
          = Returns (pre +:+ "3" +:+ post, None)).
Proof.
  apply (C_O_substitute t_days_both "days" (mkTransText "{0} days" [0; 3]) "3"
           wf_t_days_both).
Defined.

Example C_days_both :
  C t_days_both (IString "days") 3 0%N "3" = Returns ("3 days", None)
  /\ C t_days_both (IString "days") 1 0%N "1" = Returns ("1 day", None).
Proof. split; reflexivity. Qed.




Example R_span : R t_span (IString "span") 2 0%N 5 0%N "2" "5" = Returns ("2-5 days", None).
Proof. reflexivity. Qed.

(** Property X6.  [AddRange] accepts a text whose [{1}] comes before its
    [{0}], but [R] cannot render it: every call for that rule panics on
    the slice between the two placeholders, [text[i0+3 : i1]] with
    [i1 < i0]. *)
Theorem R_swapped_panics t key e num1 digits1 num2 digits2 param1 param2 :
  wf t ->
  slot_at Range t key (RangePluralRule (locale t) num1 digits1 num2 digits2) = Some e ->
  Index (text e) paramOne < Index (text e) paramZero ->
  R t (IString key) num1 digits1 num2 digits2 param1 param2
  = Panics (SliceBoundsOutOfRange (Index (text e) paramZero + len paramZero)
              (Index (text e) paramOne) (len (text e))).
Proof.
  intros Hwf He Hlt.
  destruct (render_slot _ _ _ _ _ Hwf He) as (tarr & Hk & Hi & Hc).
  unfold R. cbn [as_string]. cbn in Hk. rewrite Hk, Hi. cbn [mbind outcome_bind obind deref].
  by rewrite (splice2_swapped e param1 param2 Hc Hlt).
Qed.

Lemma wf_t_range_swapped : wf t_range_swapped.
Proof. apply wf_after_addPlural, wf_newTranslator. Qed.

Lemma R_swapped_panics_witness :
  R t_range_swapped (IString "k") 2 0%N 5 0%N "2" "5"
  = Panics (SliceBoundsOutOfRange (Index "{1}-{0}" paramZero + len paramZero)
              (Index "{1}-{0}" paramOne) (len "{1}-{0}")).
Proof.
  apply (R_swapped_panics t_range_swapped "k" (mkTransText "{1}-{0}" [4; 7; 0; 3])
           2 0%N 5 0%N "2" "5" wf_t_range_swapped); [reflexivity|vm_compute; reflexivity].
Defined.

(** ** Keys with a form missing *)

Lemma slot_at_None_deref c t key tarr rule :
  wf t ->
  pluralTanslations c t !! IString key = Some tarr ->
  slot_at c t key rule = None ->
  index tarr (rule_index rule) = Returns None.
Proof.
  intros Hwf Hk Hs.
  destruct (index_ok tarr rule (wf_len_at c t key Hwf tarr Hk)) as (x & Hx & ->).
  unfold slot_at in Hs. rewrite Hk, Hx in Hs. by subst x.
Qed.

(** Property X7.  A key that is stored in a plural map but has no entry
    for the rule of the number makes the render function panic on a nil
    pointer; it does not return [ErrUnknownTranslation], which is kept for
    keys that are not stored at all. *)
Theorem render_missing_form_panics t key :
  wf t ->
  (forall num digits param,
     is_Some (cardinalTanslations t !! IString key) ->
     slot_at Cardinal t key (CardinalPluralRule (locale t) num digits) = None ->
     C t (IString key) num digits param = Panics NilDereference)
  /\ (forall num digits param,
     is_Some (ordinalTanslations t !! IString key) ->
     slot_at Ordinal t key (OrdinalPluralRule (locale t) num digits) = None ->
     O t (IString key) num digits param = Panics NilDereference)
  /\ (forall num1 digits1 num2 digits2 param1 param2,
     is_Some (rangeTanslations t !! IString key) ->
     slot_at Range t key (RangePluralRule (locale t) num1 digits1 num2 digits2) = None ->
     R t (IString key) num1 digits1 num2 digits2 param1 param2 = Panics NilDereference).
Proof.
  intros Hwf. split; [|split].
  - intros num digits param [tarr Hk] Hs.
    pose proof (slot_at_None_deref Cardinal t key tarr _ Hwf Hk Hs) as H.
    unfold C. cbn [as_string]. rewrite Hk, H. reflexivity.
  - intros num digits param [tarr Hk] Hs.
    pose proof (slot_at_None_deref Ordinal t key tarr _ Hwf Hk Hs) as H.
    unfold O. cbn [as_string]. rewrite Hk, H. reflexivity.
  - intros num1 digits1 num2 digits2 param1 param2 [tarr Hk] Hs.
    pose proof (slot_at_None_deref Range t key tarr _ Hwf Hk Hs) as H.
    unfold R. cbn [as_string]. rewrite Hk, H. reflexivity.
Qed.

Lemma render_missing_form_panics_witness :
  (forall num digits param,
     is_Some (cardinalTanslations t_days_other !! IString "days") ->
     slot_at Cardinal t_days_other "days"
       (CardinalPluralRule (locale t_days_other) num digits) = None ->
     C t_days_other (IString "days") num digits param = Panics NilDereference)
  /\ (forall num digits param,
     is_Some (ordinalTanslations t_days_other !! IString "days") ->
     slot_at Ordinal t_days_other "days"
       (OrdinalPluralRule (locale t_days_other) num digits) = None ->
     O t_days_other (IString "days") num digits param = Panics NilDereference)
  /\ (forall num1 digits1 num2 digits2 param1 param2,
     is_Some (rangeTanslations t_days_other !! IString "days") ->
     slot_at Range t_days_other "days"
       (RangePluralRule (locale t_days_other) num1 digits1 num2 digits2) = None ->
     R t_days_other (IString "days") num1 digits1 num2 digits2 param1 param2
     = Panics NilDereference).
Proof. apply (render_missing_form_panics t_days_other "days" wf_t_days_other). Defined.

Example C_days_other_one :
  C t_days_other (IString "days") 1 0%N "1" = Panics NilDereference
  /\ C t_days_other (IString "day") 1 0%N "1"
     = Returns (EmptyString, Some (ErrUnknownTranslation "day")).
Proof. split; reflexivity. Qed.

Lemma splice1_returns c e param :
  c <> Range -> plural_compile c (text e) = Some e ->
  exists s, splice1 e param = Returns s.
Proof.
  intros Hc H. destruct (splice1_substitutes c e param Hc H) as (pre & post & _ & _ & ->).
  by eexists.
Qed.

(** Property X8.  After [VerifyTranslations] has returned nil, and with a
    locale whose rule functions answer with rules of its own lists, [C]
    and [O] never panic: for a stored key they return a string and no
    error, for any other key the empty string and an error. *)
Theorem verified_C_O_return t v :
  wf t ->
  visits t v ->
  VerifyTranslations t v = Returns None ->
  (forall num digits,
     CardinalPluralRule (locale t) num digits ∈ PluralsCardinal (locale t)) ->
  (forall num digits,
     OrdinalPluralRule (locale t) num digits ∈ PluralsOrdinal (locale t)) ->
  (forall k num digits param,
     exists s e, C t k num digits param = Returns (s, e)
       /\ (e = None <-> is_Some (as_string k) /\ is_Some (cardinalTanslations t !! k)))
  /\ (forall k num digits param,
     exists s e, O t k num digits param = Returns (s, e)
       /\ (e = None <-> is_Some (as_string k) /\ is_Some (ordinalTanslations t !! k))).
Proof.
  intros Hwf Hv HV HC HO.
  apply (VerifyTranslations_None_iff t v Hwf Hv) in HV.
  split; intros k num digits param.
  - destruct k as [key|n]; cbn [C as_string].
    2:{ eexists _, _. split; [reflexivity|]. split; [done|].
        intros [[? ?] _]. discriminate. }
    destruct (cardinalTanslations t !! IString key) as [tarr|] eqn:Hk.
    2:{ eexists _, _. split; [reflexivity|]. split; [done|].
        intros [_ [? ?]]. discriminate. }
    destruct (HV Cardinal key (CardinalPluralRule (locale t) num digits))
      as [e He]; [cbn; rewrite Hk; by eexists|apply HC|].
    destruct (render_slot _ _ _ _ _ Hwf He) as (tarr' & Hk' & Hi & Hc).
    cbn in Hk'. rewrite Hk in Hk'. injection Hk' as <-.
    destruct (splice1_returns Cardinal e param ltac:(done) Hc) as [s Hs].
    exists s, None. rewrite Hi. cbn [mbind outcome_bind obind deref]. rewrite Hs.
    split; [reflexivity|]. split; [|done]. intros _. split; by eexists.
  - destruct k as [key|n]; cbn [O as_string].
    2:{ eexists _, _. split; [reflexivity|]. split; [done|].
        intros [[? ?] _]. discriminate. }
    destruct (ordinalTanslations t !! IString key) as [tarr|] eqn:Hk.
    2:{ eexists _, _. split; [reflexivity|]. split; [done|].
        intros [_ [? ?]]. discriminate. }
    destruct (HV Ordinal key (OrdinalPluralRule (locale t) num digits))
      as [e He]; [cbn; rewrite Hk; by eexists|apply HO|].
    destruct (render_slot _ _ _ _ _ Hwf He) as (tarr' & Hk' & Hi & Hc).
    cbn in Hk'. rewrite Hk in Hk'. injection Hk' as <-.
    destruct (splice1_returns Ordinal e param ltac:(done) Hc) as [s Hs].
    exists s, None. rewrite Hi. cbn [mbind outcome_bind obind deref]. rewrite Hs.
    split; [reflexivity|]. split; [|done]. intros _. split; by eexists.
Qed.

Lemma en_rules_listed :
  (forall num digits, CardinalPluralRule en num digits ∈ PluralsCardinal en)
  /\ (forall num digits, OrdinalPluralRule en num digits ∈ PluralsOrdinal en).
Proof.
  split; intros num digits; cbn.
  - destruct (_ && _); set_solver.
  - set_solver.
Qed.

Lemma verified_C_O_return_witness :
  (forall k num digits param,
     exists s e, C t_days_both k num digits param = Returns (s, e)
       /\ (e = None <-> is_Some (as_string k)
                        /\ is_Some (cardinalTanslations t_days_both !! k)))
  /\ (forall k num digits param,
     exists s e, O t_days_both k num digits param = Returns (s, e)
       /\ (e = None <-> is_Some (as_string k)
                        /\ is_Some (ordinalTanslations t_days_both !! k))).
Proof.
  apply (verified_C_O_return t_days_both (visit_default t_days_both) wf_t_days_both
           (visits_default t_days_both) eq_refl
           (proj1 en_rules_listed) (proj2 en_rules_listed)).
Defined.

Lemma replicate_7_insert_None {A} rule :
  <[Z.to_nat (rule_index rule) := None]> (replicate 7 (@None A)) = replicate 7 None.
Proof. by destruct rule. Qed.

(** Property X9.  A plural add that fails for a missing placeholder on a
    key its map does not hold yet still leaves the key behind, with all
    seven slots nil: the store then fails [VerifyTranslations], in every
    visiting order. *)
Theorem failed_plural_add_leaves_empty_key c t key txt rule ov :
  wf t ->
  rule ∈ plurals c (locale t) ->
  pluralTanslations c t !! IString key = None ->
  lacks_placeholder c txt ->
  exists t' err,
    addPlural c t (IString key) txt rule ov = Returns (t', Some err)
    /\ pluralTanslations c t' !! IString key = Some (replicate 7 None)
    /\ forall v, visits t' v ->
         exists e, VerifyTranslations t' v = Returns (Some e).
Proof.
  intros Hwf Hr Hk Hl.
  assert (Hs : slot_at c t key rule = None) by (unfold slot_at; by rewrite Hk).
  pose proof (addPlural_spec c t key txt rule ov Hr (wf_len_at c t key Hwf)) as HA.
  rewrite Hs in HA. rewrite bool_decide_eq_false_2 in HA by (by intros [? ?]).
  cbn [andb] in HA. apply lacks_placeholder_compile in Hl. rewrite Hl in HA.
  assert (Hwf' : wf (put_slot c t key rule None))
    by (apply wf_put_slot; [done..|by intros ? [=]]).
  assert (Hk' : pluralTanslations c (put_slot c t key rule None) !! IString key
                = Some (replicate 7 None)).
  { unfold put_slot. rewrite pluralTanslations_with, lookup_insert_eq, Hk. cbn.
    f_equal. apply (replicate_7_insert_None rule). }
  eexists _, _. split; [exact HA|]. split; [exact Hk'|].
  intros v Hv. rewrite (VerifyTranslations_first_empty _ v Hwf' Hv).
  destruct (first_empty_slot _ v) as [[[[c0 key0] v0] rule0]|] eqn:Hf;
    [by eexists|].
  exfalso. apply (first_empty_slot_None _ v Hv) in Hf.
  destruct (Hf c key rule) as [e He]; [by rewrite Hk'|by rewrite locale_put_slot|].
  unfold slot_at in He. rewrite Hk' in He.
  destruct rule; cbn in He; done.
Qed.

Lemma failed_plural_add_leaves_empty_key_witness :
  exists t' err,
    addPlural Cardinal t_empty (IString "days") "day" PluralRuleOne false
    = Returns (t', Some err)
    /\ pluralTanslations Cardinal t' !! IString "days" = Some (replicate 7 None)
    /\ forall v, visits t' v ->
         exists e, VerifyTranslations t' v = Returns (Some e).
Proof.
  apply (failed_plural_add_leaves_empty_key Cardinal t_empty "days" "day"
           PluralRuleOne false (wf_newTranslator en) en_cardinal_one eq_refl).
  by left.
Defined.

(** ** What an Add-family call leaves alone *)

Lemma put_slot_lookup_ne c t key rule v c' k' :
  (c' = c -> k' <> IString key) ->
  pluralTanslations c' (put_slot c t key rule v) !! k' = pluralTanslations c' t !! k'.
Proof.
  intros H. unfold put_slot. destruct (decide (c' = c)) as [->|Hc].
  - rewrite pluralTanslations_with. apply lookup_insert_ne. intros <-. by apply H.
  - by rewrite pluralTanslations_with_ne.
Qed.

Lemma add_to_effect tg t k txt ov t' e :
  wf t ->
  add_to tg t k txt ov = Returns (t', e) ->
  locale t' = locale t
  /\ (forall k', (tg = Plain -> k' <> k) ->
        translations t' !! k' = translations t !! k')
  /\ (forall c k', ((exists rule, tg = Plural c rule) -> k' <> k) ->
        pluralTanslations c t' !! k' = pluralTanslations c t !! k').
Proof.
  intros Hwf HA. destruct k as [key|n].
  2:{ rewrite add_to_not_string in HA. by apply Returns_pair_inj in HA as [<- _]. }
  destruct tg as [|c rule]; cbn [add_to] in HA.
  - destruct (Add_spec t key txt ov) as (r & Hr & Hres). rewrite Hr in HA.
    apply Returns_inj in HA as ->.
    inversion Hres; subst; try done.
    split; [done|]. split.
    + intros k' Hk'. cbn. apply lookup_insert_ne. intros <-. by apply Hk'.
    + intros c k' _. by destruct c.
  - destruct (decide (rule ∈ plurals c (locale t))) as [Hr|Hr].
    2:{ rewrite addPlural_bad_rule in HA by done.
        by apply Returns_pair_inj in HA as [<- _]. }
    rewrite addPlural_spec in HA; [|done|by apply wf_len_at].
    assert (Hput : forall v,
              locale (put_slot c t key rule v) = locale t
              /\ (forall k', (Plural c rule = Plain -> k' <> IString key) ->
                    translations (put_slot c t key rule v) !! k' = translations t !! k')
              /\ (forall c' k', ((exists rule', Plural c rule = Plural c' rule') ->
                                 k' <> IString key) ->
                    pluralTanslations c' (put_slot c t key rule v) !! k'
                    = pluralTanslations c' t !! k')).
    { intros v. split; [apply locale_put_slot|]. split.
      - intros k' _. unfold put_slot. by rewrite translations_with_plural.
      - intros c' k' Hk'. apply put_slot_lookup_ne. intros ->. apply Hk'. by eexists. }
    destruct (_ && _); [by apply Returns_pair_inj in HA as [<- _]|].
    destruct (plural_compile c txt) as [e0|];
      apply Returns_pair_inj in HA as [<- _]; apply Hput.
Qed.

(** Property X10.  An Add-family call changes the answers of one render
    function for one key only: [T] when it was [Add], and [C], [O] or [R]
    when it was [AddCardinal], [AddOrdinal] or [AddRange].  Every other
    render call answers as before, whether the add succeeded or not. *)
Theorem add_to_render_frame tg t k txt ov t' e :
  wf t ->
  add_to tg t k txt ov = Returns (t', e) ->
  (forall k' params, (tg = Plain -> k' <> k) -> T t' k' params = T t k' params)
  /\ (forall k' num digits param,
        ((exists rule, tg = Plural Cardinal rule) -> k' <> k) ->
        C t' k' num digits param = C t k' num digits param)
  /\ (forall k' num digits param,
        ((exists rule, tg = Plural Ordinal rule) -> k' <> k) ->
        O t' k' num digits param = O t k' num digits param)
  /\ (forall k' num1 digits1 num2 digits2 param1 param2,
        ((exists rule, tg = Plural Range rule) -> k' <> k) ->
        R t' k' num1 digits1 num2 digits2 param1 param2
        = R t k' num1 digits1 num2 digits2 param1 param2).
Proof.
  intros Hwf HA. destruct (add_to_effect _ _ _ _ _ _ _ Hwf HA) as (Hl & Hp & Hm).
  split; [|split; [|split]].
  - intros [key|n] params Hk; [|done]. unfold T. cbn [as_string].
    by rewrite (Hp (IString key) Hk).
  - intros [key|n] num digits param Hk; [|done]. unfold C. cbn [as_string].
    pose proof (Hm Cardinal (IString key) Hk) as E. cbn in E. by rewrite E, Hl.
  - intros [key|n] num digits param Hk; [|done]. unfold O. cbn [as_string].
    pose proof (Hm Ordinal (IString key) Hk) as E. cbn in E. by rewrite E, Hl.
  - intros [key|n] num1 digits1 num2 digits2 param1 param2 Hk; [|done].
    unfold R. cbn [as_string].
    pose proof (Hm Range (IString key) Hk) as E. cbn in E. by rewrite E, Hl.
Qed.

Lemma add_to_render_frame_witness :
  (forall k' params, (Plural Cardinal PluralRuleOne = Plain -> k' <> IString "days") ->
     T t_days_both k' params = T t_days_other k' params)
  /\ (forall k' num digits param,
        ((exists rule, Plural Cardinal PluralRuleOne = Plural Cardinal rule) ->
         k' <> IString "days") ->
        C t_days_both k' num digits param = C t_days_other k' num digits param)
  /\ (forall k' num digits param,
        ((exists rule, Plural Cardinal PluralRuleOne = Plural Ordinal rule) ->
         k' <> IString "days") ->
        O t_days_both k' num digits param = O t_days_other k' num digits param)
  /\ (forall k' num1 digits1 num2 digits2 param1 param2,
        ((exists rule, Plural Cardinal PluralRuleOne = Plural Range rule) ->
         k' <> IString "days") ->
        R t_days_both k' num1 digits1 num2 digits2 param1 param2
        = R t_days_other k' num1 digits1 num2 digits2 param1 param2).
Proof.
  apply (add_to_render_frame (Plural Cardinal PluralRuleOne) t_days_other
           (IString "days") "{0} day" false t_days_both None wf_t_days_other).
  reflexivity.
Defined.

(** ** Export of one locale, in general *)

Lemma Export_locale_merged t v :
  wf t -> visits t v ->
  exists trans, Export_locale t v = inl trans
                /\ forall key, trans !! key = merged_record t key.
Proof.
  intros Hwf (Hvp & Hvc & Hvo & Hvr).
  destruct (visit_entries_facts _ _ Hvp) as (Fp & Np & Ip & Op).
  { intros k x H. by apply (wf_plain t Hwf k x). }
  destruct (visit_entries_facts _ _ Hvc) as (Fc & Nc & Ic & Oc).
  { intros k x H. by apply (wf_key t Hwf Cardinal k x). }
  destruct (visit_entries_facts _ _ Hvo) as (Fo & No & Io & Oo).
  { intros k x H. by apply (wf_key t Hwf Ordinal k x). }
  destruct (visit_entries_facts _ _ Hvr) as (Fr & Nr & Ir & Or).
  { intros k x H. by apply (wf_key t Hwf Range k x). }
  unfold Export_locale.
  destruct (export_plain_lookup (Locale (locale t)) _ ∅ Fp Np) as (t1 & -> & H1i & H1o).
  destruct (exportPlurals_lookup (Locale (locale t)) RuleTypeCardinal _ t1 Fc Nc)
    as (t2 & -> & H2i & H2o).
  destruct (exportPlurals_lookup (Locale (locale t)) RuleTypeOrdinal _ t2 Fo No)
    as (t3 & -> & H3i & H3o).
  destruct (exportPlurals_lookup (Locale (locale t)) RuleTypeRange _ t3 Fr Nr)
    as (t4 & -> & H4i & H4o).
  exists t4. split; [done|]. intros key. unfold merged_record.
  assert (E1 : t1 !! key = merge_plain (Locale (locale t)) None
                             (translations t !! IString key)).
  { destruct (translations t !! IString key) as [e|] eqn:Ep; cbn.
    - rewrite (H1i key e) by by apply Ip. by rewrite lookup_empty.
    - rewrite H1o by auto. by rewrite lookup_empty. }
  assert (E2 : t2 !! key = merge_plural (Locale (locale t)) RuleTypeCardinal
                             (t1 !! key) (cardinalTanslations t !! IString key)).
  { destruct (cardinalTanslations t !! IString key) as [a|] eqn:Ec; cbn.
    - by rewrite (H2i key a) by by apply Ic.
    - by rewrite H2o by auto. }
  assert (E3 : t3 !! key = merge_plural (Locale (locale t)) RuleTypeOrdinal
                             (t2 !! key) (ordinalTanslations t !! IString key)).
  { destruct (ordinalTanslations t !! IString key) as [a|] eqn:Ec; cbn.
    - by rewrite (H3i key a) by by apply Io.
    - by rewrite H3o by auto. }
  assert (E4 : t4 !! key = merge_plural (Locale (locale t)) RuleTypeRange
                             (t3 !! key) (rangeTanslations t !! IString key)).
  { destruct (rangeTanslations t !! IString key) as [a|] eqn:Ec; cbn.
    - by rewrite (H4i key a) by by apply Ir.
    - by rewrite H4o by auto. }
  by rewrite E4, E3, E2, E1.
Qed.

(** Property X11.  On a well-formed store [Export] builds the table of a
    locale without error (the [ErrKeyIsNotString] exits are never taken),
    and the table has a record for exactly the keys stored in one of the
    four maps. *)
Theorem Export_locale_keys t v :
  wf t -> visits t v ->
  exists trans,
    Export_locale t v = inl trans
    /\ forall key,
         is_Some (trans !! key)
         <-> is_Some (translations t !! IString key)
             \/ exists c, is_Some (pluralTanslations c t !! IString key).
Proof.
  intros Hwf Hv. destruct (Export_locale_merged t v Hwf Hv) as (trans & HE & Hl).
  exists trans. split; [done|]. intros key. rewrite Hl. unfold merged_record.
  split.
  - intros H.
    destruct (rangeTanslations t !! IString key) eqn:Er;
      [right; exists Range; cbn; rewrite Er; by eexists|].
    destruct (ordinalTanslations t !! IString key) eqn:Eo;
      [right; exists Ordinal; cbn; rewrite Eo; by eexists|].
    destruct (cardinalTanslations t !! IString key) eqn:Ec;
      [right; exists Cardinal; cbn; rewrite Ec; by eexists|].
    destruct (translations t !! IString key) eqn:Ep; [left; by eexists|].
    cbn in H. by destruct H.
  - intros [[e He]|[c [a Ha]]].
    + rewrite He. cbn.
      destruct (cardinalTanslations t !! IString key),
               (ordinalTanslations t !! IString key),
               (rangeTanslations t !! IString key); cbn; by eexists.
    + destruct c; cbn in Ha; rewrite Ha; cbn.
      * destruct (ordinalTanslations t !! IString key),
                 (rangeTanslations t !! IString key); cbn; by eexists.
      * destruct (rangeTanslations t !! IString key); cbn; by eexists.
      * by eexists.
Qed.

Lemma Export_locale_keys_witness :
  exists trans,
    Export_locale t_sample (visit_default t_sample) = inl trans
    /\ forall key,
         is_Some (trans !! key)
         <-> is_Some (translations t_sample !! IString key)
             \/ exists c, is_Some (pluralTanslations c t_sample !! IString key).
Proof.
  apply (Export_locale_keys t_sample (visit_default t_sample) wf_t_sample
           (visits_default t_sample)).
Defined.

(** Property X12.  The table [Export] builds for a locale does not depend
    on the order in which Go ranges over the four maps of the
    translator. *)
Theorem Export_locale_order_independent t v v' :
  wf t -> visits t v -> visits t v' ->
  Export_locale t v = Export_locale t v'.
Proof.
  intros Hwf Hv Hv'.
  destruct (Export_locale_merged t v Hwf Hv) as (trans & -> & Hl).
  destruct (Export_locale_merged t v' Hwf Hv') as (trans' & -> & Hl').
  f_equal. apply map_eq. intros key. by rewrite Hl, Hl'.
Qed.

Lemma visits_reverse t v : visits t v -> visits t (visit_reverse v).
Proof.
  intros (? & ? & ? & ?). unfold visits, visit_reverse. cbn.
  by rewrite !reverse_Permutation.
Qed.

Lemma wf_t_two_keys : wf t_two_keys.
Proof. apply wf_after_Add, wf_t_sample. Qed.

Lemma Export_locale_order_independent_witness :
  Export_locale t_two_keys (visit_default t_two_keys)
  = Export_locale t_two_keys (visit_reverse (visit_default t_two_keys)).
Proof.
  apply (Export_locale_order_independent t_two_keys (visit_default t_two_keys)
           (visit_reverse (visit_default t_two_keys)) wf_t_two_keys
           (visits_default t_two_keys)
           (visits_reverse _ _ (visits_default t_two_keys))).
Defined.

(** ** Import, in general *)

Lemma and_then_returns (P : translator -> Prop) m f :
  (exists t e, m = Returns (t, e) /\ P t) ->
  (forall t, P t -> exists t' e, f t = Returns (t', e) /\ P t') ->
  exists t e, and_then m f = Returns (t, e) /\ P t.
Proof.
  intros (t & e & -> & Ht) Hf. unfold and_then. cbn [mbind outcome_bind obind].
  destruct e; [by eexists _, _|]. by apply Hf.
Qed.

Lemma add_field_returns c key field rule ov t l :
  wf t /\ locale t = l ->
  exists t' e, add_field (addPlural c) key field rule ov t = Returns (t', e)
               /\ (wf t' /\ locale t' = l).
Proof.
  intros [Hwf Hl]. unfold add_field. destruct (String.eqb field EmptyString).
  - by eexists _, _.
  - destruct (add_to_returns (Plural c rule) t (IString key) field ov Hwf)
      as (t' & e & H & Hl').
    exists t', e. split; [exact H|]. split; [|congruence].
    by eapply (wf_add_to (Plural c rule)).
Qed.

Lemma add_fields_returns c key r t :
  wf t ->
  exists t' e, add_fields (addPlural c) key r t = Returns (t', e)
               /\ (wf t' /\ locale t' = locale t).
Proof.
  intros Hwf. unfold add_fields.
  repeat (apply (and_then_returns (fun t' => wf t' /\ locale t' = locale t));
          [|intros ? ?; by apply add_field_returns]).
  by apply add_field_returns.
Qed.

Lemma import_into_returns t key r :
  wf t ->
  exists t' e, import_into t key r = Returns (t', e) /\ wf t' /\ locale t' = locale t.
Proof.
  intros Hwf. unfold import_into.
  destruct (_ || _).
  { destruct (add_to_returns Plain t (IString key) (Other r) (OverrideExisting r) Hwf)
      as (t' & e & H & Hl).
    exists t', e. split; [exact H|]. split; [by eapply (wf_add_to Plain)|done]. }
  destruct (String.eqb _ RuleTypeCardinal); [by apply (add_fields_returns Cardinal)|].
  destruct (String.eqb _ RuleTypeOrdinal); [by apply (add_fields_returns Ordinal)|].
  destruct (String.eqb _ RuleTypeRange); [by apply (add_fields_returns Range)|].
  by eexists _, _.
Qed.

Lemma same_locales_insert ut lc t t' :
  translators ut !! lc = Some t ->
  same_locales ut {| translators := <[lc := t']> (translators ut) |}.
Proof.
  intros H lc'. cbn. destruct (decide (lc' = lc)) as [->|Hne].
  - rewrite lookup_insert_eq, H. split; by eexists.
  - by rewrite lookup_insert_ne.
Qed.

Lemma wf_registry_update ut lc t' :
  wf_registry ut -> wf t' ->
  wf_registry {| translators := <[lc := t']> (translators ut) |}.
Proof.
  intros Hw Ht lc' t0. cbn. destruct (decide (lc' = lc)) as [->|Hne].
  - rewrite lookup_insert_eq. by intros [= <-].
  - rewrite lookup_insert_ne by done. apply Hw.
Qed.

Lemma import_record_returns ut key r :
  wf_registry ut ->
  exists ut' e, import_record ut key r = Returns (ut', e)
                /\ wf_registry ut' /\ same_locales ut ut'.
Proof.
  intros Hw. unfold import_record.
  destruct (FindTranslator ut [tLocale r]) as [lc|] eqn:HF.
  2:{ eexists _, _. split; [reflexivity|]. split; [done|]. by intros ?. }
  destruct (FindTranslator_Some _ _ _ HF) as [t Ht]. rewrite Ht.
  destruct (import_into_returns t key r (Hw _ _ Ht)) as (t' & e & -> & Hwf' & _).
  cbn [mbind outcome_bind obind]. eexists _, _. split; [reflexivity|]. split.
  - by apply wf_registry_update.
  - by eapply same_locales_insert.
Qed.

Lemma same_locales_trans ut1 ut2 ut3 :
  same_locales ut1 ut2 -> same_locales ut2 ut3 -> same_locales ut1 ut3.
Proof. intros H1 H2 lc. by rewrite (H1 lc). Qed.

(** Property X13.  On a registry of well-formed translators
    [ImportFromReader] never panics, whatever the decoded records and the
    order they are visited in: it returns, with or without an error; the
    registry it leaves has the same locales registered, each with a
    well-formed translator. *)
Theorem ImportFromReader_returns ut recs :
  wf_registry ut ->
  exists ut' e, ImportFromReader ut recs = Returns (ut', e)
                /\ wf_registry ut' /\ same_locales ut ut'.
Proof.
  revert ut. induction recs as [|[key r] recs IH]; intros ut Hw.
  - eexists _, _. split; [reflexivity|]. split; [done|]. by intros ?.
  - cbn [ImportFromReader].
    destruct (import_record_returns ut key r Hw) as (ut1 & e1 & -> & Hw1 & Hs1).
    cbn [mbind outcome_bind obind]. destruct e1 as [e1|].
    + by eexists _, _.
    + destruct (IH ut1 Hw1) as (ut' & e & -> & Hw' & Hs').
      eexists _, _. split; [reflexivity|]. split; [done|].
      by eapply same_locales_trans.
Qed.

Lemma ImportFromReader_returns_witness :
  exists ut' e, ImportFromReader ut_en recs_bad_second = Returns (ut', e)
                /\ wf_registry ut' /\ same_locales ut_en ut'.
Proof.
  apply (ImportFromReader_returns ut_en recs_bad_second (wf_registry_new [en])).
Defined.





Example ImportFromReader_unregistered :
  ImportFromReader ut_en recs_unregistered
  = Returns (ut_en_a, Some (ErrLocaleNotRegistered "fr")).
Proof. reflexivity. Qed.

(** ** Calls that succeed, and their order *)

Lemma add_to_success_iff tg t key txt ov t' :
  wf t ->
  add_to tg t (IString key) txt ov = Returns (t', None)
  <-> rule_ok (locale t) tg
      /\ (entry_at tg t key = None \/ ov = true)
      /\ exists e, compile tg txt = Some e /\ t' = write tg t key e.
Proof.
  intros Hwf. destruct tg as [|c rule]; cbn [add_to rule_ok entry_at compile write].
  - destruct (Add_spec t key txt ov) as (r & Hr & Hres). rewrite Hr. split.
    + intros H. apply Returns_inj in H as ->.
      inversion Hres as [| | |e Hc He]; subst.
      split; [done|]. split; [done|]. by exists e.
    + intros (_ & Hc & e & He & ->). f_equal.
      inversion Hres as [Hs Hov|Hc' Hn|p Hc' Hn Hcomp|e0 Hc' Hcomp]; subst.
      * destruct Hc as [Hc|Hc]; [|done]. rewrite Hc in Hs. by destruct Hs.
      * unfold plain_compile in He.
        destruct (Nat.eqb_spec (Count txt "{") (Count txt "}")); done.
      * congruence.
      * congruence.
  - destruct (decide (rule ∈ plurals c (locale t))) as [Hr|Hr].
    2:{ rewrite addPlural_bad_rule by done. split; [intros H|tauto].
        by apply Returns_pair_inj in H as [_ ?]. }
    rewrite addPlural_spec; [|done|by apply wf_len_at]. split.
    + destruct (bool_decide (is_Some (slot_at c t key rule)) && negb ov) eqn:Hb;
        [intros H; by apply Returns_pair_inj in H as [_ ?]|].
      destruct (plural_compile c txt) as [e|];
        [|intros H; by apply Returns_pair_inj in H as [_ ?]].
      intros H. apply Returns_pair_inj in H as [<- _].
      split; [done|]. split; [|by exists e].
      apply andb_false_iff in Hb as [Hb|Hb].
      * left. apply bool_decide_eq_false in Hb. by apply eq_None_not_Some.
      * right. by destruct ov.
    + intros (_ & Hc & e & -> & ->).
      assert (bool_decide (is_Some (slot_at c t key rule)) && negb ov = false) as ->.
      { destruct Hc as [->| ->]; [|by rewrite andb_false_r].
        rewrite bool_decide_eq_false_2; [done|]. by intros [? ?]. }
      reflexivity.
Qed.

Lemma locale_write tg t key e : locale (write tg t key e) = locale t.
Proof. destruct tg; [done|apply locale_put_slot]. Qed.

Lemma put_slot_commute_ne c1 c2 t k1 k2 r1 r2 v1 v2 :
  c1 <> c2 ->
  put_slot c2 (put_slot c1 t k1 r1 v1) k2 r2 v2
  = put_slot c1 (put_slot c2 t k2 r2 v2) k1 r1 v1.
Proof. intros Hc. by destruct c1, c2, t. Qed.

Lemma put_slot_commute_key c t k1 k2 r1 r2 v1 v2 :
  k1 <> k2 ->
  put_slot c (put_slot c t k1 r1 v1) k2 r2 v2
  = put_slot c (put_slot c t k2 r2 v2) k1 r1 v1.
Proof.
  intros Hk. unfold put_slot.
  rewrite !pluralTanslations_with, !with_pluralTanslations_twice.
  rewrite !lookup_insert_ne by congruence.
  f_equal. apply insert_insert_ne. congruence.
Qed.

Lemma write_commute tg1 tg2 t k1 k2 e1 e2 :
  k1 <> k2 ->
  write tg2 (write tg1 t k1 e1) k2 e2 = write tg1 (write tg2 t k2 e2) k1 e1.
Proof.
  intros Hk. destruct tg1 as [|c1 r1], tg2 as [|c2 r2]; cbn [write].
  - unfold with_translations. cbn. f_equal. apply insert_insert_ne. congruence.
  - unfold put_slot. by destruct c2, t.
  - unfold put_slot. by destruct c1, t.
  - destruct (decide (c1 = c2)) as [->|Hc].
    + by apply put_slot_commute_key.
    + by apply put_slot_commute_ne.
Qed.

Lemma add_to_commute tg1 tg2 t k1 k2 txt1 txt2 ov1 ov2 ta tb :
  wf t -> k1 <> k2 ->
  add_to tg1 t (IString k1) txt1 ov1 = Returns (ta, None) ->
  add_to tg2 ta (IString k2) txt2 ov2 = Returns (tb, None) ->
  exists tc, add_to tg2 t (IString k2) txt2 ov2 = Returns (tc, None)
             /\ add_to tg1 tc (IString k1) txt1 ov1 = Returns (tb, None).
Proof.
  intros Hwf Hk H1 H2.
  pose proof (wf_add_to _ _ _ _ _ _ _ Hwf H1) as Hwfa.
  pose proof (add_to_frame _ _ _ _ _ _ _ tg2 k2 Hwf H1 ltac:(congruence)) as F1.
  apply (add_to_success_iff _ _ _ _ _ _ Hwf) in H1 as (Hr1 & Hc1 & e1 & He1 & ->).
  apply (add_to_success_iff _ _ _ _ _ _ Hwfa) in H2 as (Hr2 & Hc2 & e2 & He2 & ->).
  rewrite locale_write in Hr2. rewrite F1 in Hc2.
  assert (H2 : add_to tg2 t (IString k2) txt2 ov2 = Returns (write tg2 t k2 e2, None)).
  { apply (add_to_success_iff _ _ _ _ _ _ Hwf). split; [done|]. split; [done|]. by exists e2. }
  exists (write tg2 t k2 e2). split; [done|].
  pose proof (wf_add_to _ _ _ _ _ _ _ Hwf H2) as Hwfc.
  pose proof (add_to_frame _ _ _ _ _ _ _ tg1 k1 Hwf H2 ltac:(congruence)) as F2.
  apply (add_to_success_iff _ _ _ _ _ _ Hwfc).
  rewrite locale_write, F2. split; [done|]. split; [done|].
  exists e1. split; [done|]. by apply write_commute.
Qed.

Lemma do_call_success_inv ut cl ua :
  do_call ut cl = Returns (ua, None) <->
  exists t ta, translators ut !! call_locale cl = Some t
    /\ add_to (call_target cl) t (IString (call_key cl)) (call_text cl)
         (call_override cl) = Returns (ta, None)
    /\ ua = {| translators := <[call_locale cl := ta]> (translators ut) |}.
Proof.
  unfold do_call. split.
  - destruct (translators ut !! call_locale cl) as [t|]; [|done].
    destruct (add_to _ _ _ _ _) as [[ta e]|] eqn:HA; [|done].
    cbn [mbind outcome_bind obind]. intros H.
    apply Returns_pair_inj in H as [<- ->]. exists t, ta.
    split; [reflexivity|]. split; [exact HA|reflexivity].
  - intros (t & ta & -> & -> & ->). reflexivity.
Qed.

Lemma do_call_commute ut cl1 cl2 ua ub :
  wf_registry ut ->
  call_key cl1 <> call_key cl2 ->
  do_call ut cl1 = Returns (ua, None) ->
  do_call ua cl2 = Returns (ub, None) ->
  exists uc, do_call ut cl2 = Returns (uc, None)
             /\ do_call uc cl1 = Returns (ub, None).
Proof.
  intros Hw Hk H1 H2.
  apply do_call_success_inv in H1 as (t1 & ta & Ht1 & HA1 & ->).
  apply do_call_success_inv in H2 as (t2 & tb & Ht2 & HA2 & ->).
  cbn in Ht2. destruct (decide (call_locale cl1 = call_locale cl2)) as [El|El].
  - rewrite El, lookup_insert_eq in Ht2. injection Ht2 as <-.
    rewrite El in Ht1.
    destruct (add_to_commute _ _ _ _ _ _ _ _ _ _ _ (Hw _ _ Ht1) Hk HA1 HA2)
      as (tc & HB2 & HB1).
    exists {| translators := <[call_locale cl2 := tc]> (translators ut) |}.
    split.
    + apply do_call_success_inv. by exists t1, tc.
    + apply do_call_success_inv. exists tc, tb. cbn.
      rewrite El, lookup_insert_eq. split; [done|]. split; [done|].
      by rewrite !insert_insert_eq.
  - rewrite lookup_insert_ne in Ht2 by done.
    exists {| translators := <[call_locale cl2 := tb]> (translators ut) |}.
    split.
    + apply do_call_success_inv. by exists t2, tb.
    + apply do_call_success_inv. exists t1, ta. cbn.
      rewrite lookup_insert_ne by done. split; [done|]. split; [done|].
      f_equal. by apply insert_insert_ne.
Qed.

Lemma run_steps_success_cons ut s rest ub :
  run_steps ut (s :: rest) = Returns (ub, None) <->
  exists cl ua, s = StepCall cl
    /\ do_call ut cl = Returns (ua, None)
    /\ run_steps ua rest = Returns (ub, None).
Proof.
  split.
  - destruct s as [cl|e]; cbn [run_steps]; [|intros H; discriminate H].
    destruct (do_call ut cl) as [[ua [e|]]|] eqn:Hd; cbn [mbind outcome_bind obind];
      [intros H; discriminate H| |intros H; discriminate H].
    intros H. exists cl, ua. split; [reflexivity|]. split; [exact Hd|exact H].
  - intros (cl & ua & -> & H & Hr). cbn [run_steps]. rewrite H. exact Hr.
Qed.

Lemma run_steps_success_app ut l1 l2 ub :
  run_steps ut (l1 ++ l2) = Returns (ub, None) <->
  exists ua, run_steps ut l1 = Returns (ua, None)
             /\ run_steps ua l2 = Returns (ub, None).
Proof.
  rewrite run_steps_app. split.
  - destruct (run_steps ut l1) as [[ua [e|]]|] eqn:Hd; cbn [mbind outcome_bind obind];
      [intros H; discriminate H| |intros H; discriminate H].
    intros H. exists ua. split; [reflexivity|exact H].
  - intros (ua & -> & H). exact H.
Qed.

(** The keys the calls among the steps write to. *)
Lemma step_past_steps l2 : forall ut s rest ub,
  wf_registry ut ->
  (forall cl cl2, s = StepCall cl -> cl2 ∈ calls l2 -> call_key cl <> call_key cl2) ->
  run_steps ut (s :: l2 ++ rest) = Returns (ub, None) ->
  run_steps ut (l2 ++ s :: rest) = Returns (ub, None).
Proof.
  induction l2 as [|s2 l2 IH]; intros ut s rest ub Hw Hk H; [exact H|].
  apply run_steps_success_cons in H as (cl & ua & -> & H1 & H).
  cbn [app] in H. apply run_steps_success_cons in H as (cl2 & ub' & -> & H2 & H).
  destruct (do_call_commute ut cl cl2 ua ub' Hw) as (uc & HB2 & HB1); [|done..|].
  { apply Hk; [done|]. rewrite calls_cons_call. constructor. }
  cbn [app]. apply run_steps_success_cons. exists cl2, uc. split; [done|].
  split; [done|]. apply IH.
  - by eapply wf_registry_do_call.
  - intros cl' cl2' [= <-] Hin. apply Hk; [done|].
    rewrite calls_cons_call. by constructor.
  - apply run_steps_success_cons. by exists cl, ub'.
Qed.

Lemma steps_past_steps l1 : forall l2 ut rest ub,
  wf_registry ut ->
  (forall cl1 cl2, cl1 ∈ calls l1 -> cl2 ∈ calls l2 -> call_key cl1 <> call_key cl2) ->
  run_steps ut (l1 ++ l2 ++ rest) = Returns (ub, None) ->
  run_steps ut (l2 ++ l1 ++ rest) = Returns (ub, None).
Proof.
  induction l1 as [|s l1 IH]; intros l2 ut rest ub Hw Hk H; [exact H|].
  cbn [app] in H. pose proof H as H0.
  apply run_steps_success_cons in H as (cl & ua & -> & H1 & H).
  apply IH in H.
  - cbn [app]. apply step_past_steps; [done| |].
    + intros cl' cl2 [= <-] Hin. apply Hk; [|done]. rewrite calls_cons_call. constructor.
    + apply run_steps_success_cons. by exists cl, ua.
  - by eapply wf_registry_do_call.
  - intros cl1 cl2 Hin1 Hin2. apply Hk; [|done]. rewrite calls_cons_call. by constructor.
Qed.

Lemma record_steps_keys ut key r cl :
  cl ∈ calls (record_steps ut key r) -> call_key cl = key.
Proof.
  destruct (record_steps_ids ut key r) as [_ H].
  intros Hin. by apply (proj1 (Forall_forall _ _) H).
Qed.

Lemma plan_cons ut key r recs :
  plan ut ((key, r) :: recs) = record_steps ut key r ++ plan ut recs.
Proof. reflexivity. Qed.

Lemma run_plan_permutation ut0 recs recs' :
  recs ≡ₚ recs' ->
  forall ut ub,
    wf_registry ut -> NoDup recs.*1 ->
    run_steps ut (plan ut0 recs) = Returns (ub, None) ->
    run_steps ut (plan ut0 recs') = Returns (ub, None).
Proof.
  induction 1 as [|[key r] l l' Hp IH|[k1 r1] [k2 r2] l|l l' l'' Hp1 IH1 Hp2 IH2];
    intros ut ub Hw Hnd H.
  - exact H.
  - rewrite plan_cons in *. apply run_steps_success_app in H as (ua & H1 & H2).
    apply run_steps_success_app. exists ua. split; [done|].
    apply IH; [by eapply wf_registry_run_steps| |done].
    cbn in Hnd. by apply NoDup_cons in Hnd as [_ ?].
  - rewrite !plan_cons in *. apply steps_past_steps; [done| |done].
    intros cl1 cl2 Hin1 Hin2.
    apply record_steps_keys in Hin1, Hin2. rewrite Hin1, Hin2.
    cbn in Hnd. apply NoDup_cons in Hnd as [Hn _]. set_solver.
  - apply IH2; [done| |by apply IH1].
    by rewrite <- Hp1.
Qed.

(** Property X15.  A successful import does not depend on the order in
    which Go ranges over the decoded table: if [ImportFromReader] returns
    nil when it visits the records (of distinct keys) in one order, it
    returns nil and leaves the same registry when it visits them in any
    other order. *)
Theorem ImportFromReader_order_independent ut recs recs' ut1 :
  wf_registry ut ->
  NoDup recs.*1 ->
  recs ≡ₚ recs' ->
  ImportFromReader ut recs = Returns (ut1, None) ->
  ImportFromReader ut recs' = Returns (ut1, None).
Proof.
  intros Hw Hnd Hp. rewrite !ImportFromReader_plan.
  by apply run_plan_permutation.
Qed.

Lemma recs_three_perm : recs_three ≡ₚ recs_three'.
Proof.
  unfold recs_three, recs_three'.
  etrans; [apply Permutation_skip, Permutation_swap|]. apply Permutation_swap.
Qed.

Lemma ImportFromReader_order_independent_witness :
  ImportFromReader ut_en recs_three' = Returns (ut_three, None).
Proof.
  apply (ImportFromReader_order_independent ut_en recs_three recs_three' ut_three
           (wf_registry_new [en])).
  - apply (bool_decide_unpack _). by vm_compute.
  - exact recs_three_perm.
  - reflexivity.
Defined.

(** ** Importing twice *)

Lemma add_to_conflict tg t key txt e0 :
  wf t ->
  entry_at tg t key = Some e0 ->
  add_to tg t (IString key) txt false
  = Returns (t, Some (ErrConflictingTranslation (Locale (locale t)) key
                        (target_rule tg) txt)).
Proof.
  intros Hwf He. destruct tg as [|c rule]; cbn [add_to entry_at target_rule] in *.
  - unfold Add. cbn [as_string]. rewrite bool_decide_eq_true_2 by by eexists.
    reflexivity.
  - destruct (wf_slot t Hwf c key rule e0 He) as [Hr _].
    rewrite addPlural_spec; [|done|by apply wf_len_at].
    rewrite bool_decide_eq_true_2 by by eexists. reflexivity.
Qed.

Lemma do_call_conflict ut cl :
  wf_registry ut ->
  is_Some (entry_of ut cl) ->
  call_override cl = false ->
  exists t, translators ut !! call_locale cl = Some t
    /\ do_call ut cl
       = Returns (ut, Some (ErrConflictingTranslation (Locale (locale t)) (call_key cl)
                              (target_rule (call_target cl)) (call_text cl))).
Proof.
  intros Hw [e0 He] Hov. unfold entry_of in He. unfold do_call.
  destruct (translators ut !! call_locale cl) as [t|] eqn:Ht; [|done].
  exists t. split; [done|]. rewrite Hov.
  rewrite (add_to_conflict _ _ _ _ e0 (Hw _ _ Ht) He). cbn [mbind outcome_bind obind].
  rewrite insert_id by done. by rewrite registry_eta.
Qed.

Lemma field_call_override lc c key ov rule field :
  Forall (fun cl => call_override cl = ov) (field_call lc c key ov rule field).
Proof. unfold field_call. destruct (String.eqb _ _); by repeat constructor. Qed.

Lemma field_calls_override lc c key r :
  Forall (fun cl => call_override cl = OverrideExisting r) (field_calls lc c key r).
Proof. unfold field_calls. repeat apply Forall_app_2; apply field_call_override. Qed.

Lemma record_steps_override ut key r :
  Forall (fun cl => call_override cl = OverrideExisting r)
         (calls (record_steps ut key r)).
Proof.
  unfold record_steps.
  destruct (FindTranslator ut [tLocale r]) as [lc|]; [|done].
  cbv zeta. destruct (_ || _); [by repeat constructor|].
  repeat (destruct (String.eqb _ _);
          [rewrite calls_StepCall; apply field_calls_override|]).
  done.
Qed.

Lemma plan_override ut recs :
  Forall (fun kr => OverrideExisting kr.2 = false) recs ->
  Forall (fun cl => call_override cl = false) (calls (plan ut recs)).
Proof.
  induction 1 as [|[key r] recs Hr _ IH]; [done|].
  rewrite plan_cons, calls_app. apply Forall_app_2; [|exact IH].
  eapply Forall_impl; [apply record_steps_override|]. cbn in *. congruence.
Qed.

Lemma field_call_nonempty lc c key ov rule field :
  field <> EmptyString -> field_call lc c key ov rule field <> [].
Proof.
  intros H. unfold field_call. destruct (String.eqb_spec field EmptyString); done.
Qed.

Lemma record_steps_nonempty ut key r :
  Other r <> EmptyString -> record_steps ut key r <> [].
Proof.
  intros H. unfold record_steps.
  destruct (FindTranslator ut [tLocale r]) as [lc|]; [|done].
  cbv zeta. destruct (_ || _); [done|].
  assert (Hf : forall c, StepCall <$> field_calls lc c key r <> []).
  { intros c E. apply fmap_nil_inv in E. unfold field_calls in E.
    repeat (apply app_eq_nil in E as [_ E]).
    by apply (field_call_nonempty lc c key (OverrideExisting r) PluralRuleOther (Other r)). }
  repeat (destruct (String.eqb _ _); [apply Hf|]). done.
Qed.

Lemma plan_nonempty ut recs key r :
  (key, r) ∈ recs -> Other r <> EmptyString -> plan ut recs <> [].
Proof.
  induction recs as [|[k0 r0] recs IH]; intros Hin Ho.
  - by apply elem_of_nil in Hin.
  - rewrite plan_cons. intros E. apply app_eq_nil in E as [E1 E2].
    apply elem_of_cons in Hin as [[= <- <-]|Hin].
    + by apply (record_steps_nonempty ut key r).
    + by apply IH.
Qed.

(** Property X16.  After an import has succeeded, importing the same
    records again without the override flag fails, in every visiting
    order, with [ErrConflictingTranslation] and leaves the registry as
    it is (given one record at least has an [other] text, so that there
    is something to add). *)
Theorem reimport_without_override_conflicts ut recs ut1 recs' key r :
  wf_registry ut ->
  NoDup recs.*1 ->
  ImportFromReader ut recs = Returns (ut1, None) ->
  recs ≡ₚ recs' ->
  Forall (fun kr => OverrideExisting kr.2 = false) recs ->
  (key, r) ∈ recs ->
  Other r <> EmptyString ->
  exists l k rule txt,
    ImportFromReader ut1 recs'
    = Returns (ut1, Some (ErrConflictingTranslation l k rule txt)).
Proof.
  intros Hw Hnd HI Hp Hov Hin Ho.
  rewrite ImportFromReader_plan in HI.
  pose proof (run_plan_permutation ut recs recs' Hp ut ut1 Hw Hnd HI) as HI'.
  pose proof (run_steps_same_locales _ _ _ _ HI') as Hs.
  pose proof (wf_registry_run_steps _ _ _ _ Hw HI') as Hw1.
  rewrite (ImportFromReader_plan_gen ut recs' ut1 Hs).
  assert (Hnd' : NoDup recs'.*1) by by rewrite <- Hp.
  pose proof (run_steps_committed _ _ _ Hw HI' (plan_ids_NoDup ut recs' Hnd')) as Hc.
  assert (Hov' : Forall (fun cl => call_override cl = false) (calls (plan ut recs'))).
  { apply plan_override. by rewrite <- Hp. }
  assert (Hne : plan ut recs' <> []).
  { apply (plan_nonempty ut recs' key r); [by rewrite <- Hp|done]. }
  destruct (plan ut recs') as [|s rest] eqn:Hplan; [done|].
  pose proof HI' as HI''.
  apply run_steps_success_cons in HI'' as (cl & ua & -> & _ & _).
  rewrite calls_cons_call in Hc, Hov'.
  destruct (do_call_conflict ut1 cl Hw1) as (t & Ht & Hd).
  - apply Hc. constructor.
  - by apply Forall_cons in Hov' as [? _].
  - cbn [run_steps]. rewrite Hd. cbn [mbind outcome_bind obind]. by eexists _, _, _, _.
Qed.

Lemma reimport_without_override_conflicts_witness :
  exists l k rule txt,
    ImportFromReader ut_three recs_three'
    = Returns (ut_three, Some (ErrConflictingTranslation l k rule txt)).
Proof.
  apply (reimport_without_override_conflicts ut_en recs_three ut_three recs_three'
           "a" (plain_record "Hi {0}") (wf_registry_new [en])).
  - apply (bool_decide_unpack _). by vm_compute.
  - reflexivity.
  - exact recs_three_perm.
  - by repeat constructor.
  - constructor.
  - done.
Defined.

Example reimport_three :
  ImportFromReader ut_three recs_three'
  = Returns (ut_three,
             Some (ErrConflictingTranslation "en" "c" PluralRuleUnknown "never")).
Proof. reflexivity. Qed.

(** ** The registry *)

Lemma last_at_snoc_yes {A} (Q : A -> Prop) pre v p :
  Q v -> last_at Q (pre ++ [v]) p <-> p = length pre.
Proof.
  intros Hv. split.
  - intros [(w & Hw & _) Hlast].
    pose proof (Hlast (length pre) v (list_lookup_middle pre [] v _ eq_refl) Hv).
    apply lookup_lt_Some in Hw. rewrite length_app in Hw. cbn in Hw. lia.
  - intros ->. split.
    + exists v. split; [by apply list_lookup_middle|done].
    + intros j w Hj _. apply lookup_lt_Some in Hj. rewrite length_app in Hj.
      cbn in Hj. lia.
Qed.

Lemma last_at_snoc_no {A} (Q : A -> Prop) pre v p :
  ~ Q v -> last_at Q (pre ++ [v]) p <-> last_at Q pre p.
Proof.
  intros Hv. split.
  - intros [(w & Hw & HQ) Hlast]. split.
    + exists w. split; [|done].
      apply lookup_app_Some in Hw as [Hw|[Hge Hw]]; [done|].
      apply list_lookup_singleton_Some in Hw as [_ <-]. done.
    + intros j u Hj Hu. apply (Hlast j u); [|done]. by apply lookup_app_l_Some.
  - intros [(w & Hw & HQ) Hlast]. split.
    + exists w. split; [by apply lookup_app_l_Some|done].
    + intros j u Hj Hu.
      apply lookup_app_Some in Hj as [Hj|[Hge Hj]]; [by apply (Hlast j u)|].
      apply list_lookup_singleton_Some in Hj as [_ <-]. done.
Qed.

Lemma last_at_nil {A} (Q : A -> Prop) p : ~ last_at Q [] p.
Proof. by intros [(w & Hw & _) _]. Qed.

Lemma New_inv_init f :
  New_inv f [] (Registry.mkUniversalTranslator [] ∅ None).
Proof.
  split; [done|]. split.
  - intros lc p. cbn. rewrite lookup_empty. split; [done|]. by intros ?%last_at_nil.
  - intros p. cbn. split; [done|]. by intros ?%last_at_nil.
Qed.

Lemma New_loop_inv f rest : forall pre ut,
  New_inv f pre ut ->
  exists ut', Registry.New_loop (Some f) ut rest = Returns ut'
              /\ New_inv f (pre ++ rest) ut'.
Proof.
  induction rest as [|v rest IH]; intros pre ut Hinv.
  - exists ut. split; [done|]. by rewrite app_nil_r.
  - destruct Hinv as (Ho & Ht & Hf). cbn [Registry.New_loop Registry.alloc].
    replace (pre ++ v :: rest) with ((pre ++ [v]) ++ rest) by by rewrite <- app_assoc.
    apply IH. clear IH.
    assert (Hlen : length (Registry.objects ut) = length pre)
      by by rewrite Ho, length_fmap.
    assert (Hobj : forall u : Registry.UniversalTranslator,
              Registry.objects u = Registry.objects ut ++ [newTranslator v] ->
              Registry.objects u = newTranslator <$> pre ++ [v]).
    { intros u ->. by rewrite Ho, fmap_app. }
    assert (Htr : forall lc p,
              <[ToLower (Locale v) := length (Registry.objects ut)]>
                (Registry.translators ut) !! lc = Some p
              <-> last_at (fun v0 => ToLower (Locale v0) = lc) (pre ++ [v]) p).
    { intros lc p. destruct (decide (ToLower (Locale v) = lc)) as [<-|Hne].
      - rewrite lookup_insert_eq, last_at_snoc_yes by done. rewrite Hlen.
        split; [by intros [= <-]|by intros ->].
      - rewrite lookup_insert_ne, last_at_snoc_no by done. apply Ht. }
    destruct (String.eqb_spec (Locale f) (Locale v)) as [E|E].
    + split; [by apply Hobj|]. split; [exact Htr|].
      intros p. cbn. rewrite last_at_snoc_yes by done. rewrite Hlen.
      split; [by intros [= <-]|by intros ->].
    + split; [by apply Hobj|]. split; [exact Htr|].
      intros p. cbn. rewrite last_at_snoc_no by done. apply Hf.
Qed.

Lemma New_loop_from_empty f ls :
  exists ut, Registry.New_loop (Some f) (Registry.mkUniversalTranslator [] ∅ None) ls
             = Returns ut
             /\ New_inv f ls ut.
Proof. apply (New_loop_inv f ls [] _ (New_inv_init f)). Qed.

Lemma last_at_exists {A} (Q : A -> Prop) `{!forall v, Decision (Q v)} ls :
  (exists v, v ∈ ls /\ Q v) -> exists p, last_at Q ls p.
Proof.
  induction ls as [|v ls IH] using rev_ind; intros (w & Hin & Hw).
  - by apply elem_of_nil in Hin.
  - destruct (decide (Q v)) as [Hv|Hv].
    + exists (length ls). by apply last_at_snoc_yes.
    + apply elem_of_app in Hin as [Hin|Hin].
      * destruct IH as [p Hp]; [by exists w|]. exists p. by apply last_at_snoc_no.
      * apply list_elem_of_singleton in Hin as ->. done.
Qed.

Lemma last_at_elem {A} (Q : A -> Prop) ls p :
  last_at Q ls p -> exists v, ls !! p = Some v /\ v ∈ ls /\ Q v.
Proof.
  intros [(v & Hv & HQ) _]. exists v. split; [done|]. split; [|done].
  by eapply list_elem_of_lookup_2.
Qed.

(** [NewUniversalTranslator] with a fallback: the loop, then the fallback
    created on its own when no supported locale has its name. *)
Lemma New_result f ls :
  exists ut0,
    New_inv f ls ut0
    /\ Registry.NewUniversalTranslator (Some f) ls
       = Returns (match Registry.fallback ut0 with
                  | Some _ => ut0
                  | None =>
                      Registry.set_fallback
                        (Registry.alloc ut0 (newTranslator f)).2 (length ls)
                  end).
Proof.
  destruct (New_loop_from_empty f ls) as (ut0 & HL & Hinv).
  exists ut0. split; [done|]. unfold Registry.NewUniversalTranslator.
  rewrite HL. cbn [mbind outcome_bind obind].
  destruct (Registry.fallback ut0) as [p|] eqn:Hf; [done|].
  cbn [Registry.alloc snd]. destruct Hinv as (Ho & _ & _).
  by rewrite Ho, length_fmap.
Qed.

(** Property X17.  A nil fallback makes the registry unusable:
    [NewUniversalTranslator] with a nil fallback panics as soon as one
    supported locale is given; with none it returns a registry whose
    lookups all answer [(nil, false)] and on which every [AddTranslator]
    call panics. *)
Theorem NewUniversalTranslator_nil_fallback :
  (forall v ls, Registry.NewUniversalTranslator None (v :: ls) = Panics NilDereference)
  /\ exists ut,
       Registry.NewUniversalTranslator None [] = Returns ut
       /\ Registry.GetFallback ut = None
       /\ (forall ls, Registry.FindTranslator ut ls = (None, false))
       /\ (forall l, Registry.GetTranslator ut l = (None, false))
       /\ forall tr ov, Registry.AddTranslator ut tr ov = Panics NilDereference.
Proof.
  split; [done|]. eexists. split; [reflexivity|]. split; [done|]. split; [|split].
  - intros ls. induction ls as [|l ls IH]; [done|]. cbn. by rewrite lookup_empty.
  - intros l. unfold Registry.GetTranslator. cbn. by rewrite lookup_empty.
  - intros tr ov. unfold Registry.AddTranslator. cbn [Registry.translators].
    rewrite lookup_empty. rewrite bool_decide_eq_false_2 by by intros [? ?].
    reflexivity.
Qed.

(** Property X18.  [NewUniversalTranslator] with a fallback always
    returns.  The registry has a translator for exactly the lower-cased
    names of the supported locales, each a new, empty translator of a
    supported locale with that name, and a fallback that is a new, empty
    translator of a locale with the fallback's name; it satisfies the
    registry invariant. *)
Theorem NewUniversalTranslator_registers f ls :
  exists ut,
    Registry.NewUniversalTranslator (Some f) ls = Returns ut
    /\ Registry.wf ut
    /\ (forall lc, is_Some (Registry.registered ut lc)
                   <-> exists v, v ∈ ls /\ ToLower (Locale v) = lc)
    /\ (forall lc t, Registry.registered ut lc = Some t ->
          exists v, v ∈ ls /\ ToLower (Locale v) = lc /\ t = newTranslator v)
    /\ exists p v, Registry.GetFallback ut = Some p
         /\ Registry.objects ut !! p = Some (newTranslator v)
         /\ Locale v = Locale f.
Proof.
  destruct (New_result f ls) as (ut0 & (Ho & Ht & Hf) & HN).
  eexists. split; [exact HN|].
  set (ut := match Registry.fallback ut0 with
             | Some _ => ut0
             | None => _
             end).
  assert (Htr : Registry.translators ut = Registry.translators ut0)
    by (unfold ut; by destruct (Registry.fallback ut0)).
  assert (Hobj : forall p t, Registry.objects ut0 !! p = Some t ->
                             Registry.objects ut !! p = Some t).
  { intros p t H. unfold ut. destruct (Registry.fallback ut0); [done|].
    cbn. by apply lookup_app_l_Some. }
  assert (Hreg : forall lc t, Registry.registered ut lc = Some t <->
            exists p v, last_at (fun v => ToLower (Locale v) = lc) ls p
                        /\ ls !! p = Some v /\ t = newTranslator v).
  { intros lc t. unfold Registry.registered. rewrite Htr. split.
    - destruct (Registry.translators ut0 !! lc) as [p|] eqn:Hp; [|done]. cbn.
      apply Ht in Hp. destruct (last_at_elem _ _ _ Hp) as (v & Hv & _ & _).
      rewrite (Hobj p (newTranslator v)) by by rewrite Ho, list_lookup_fmap, Hv.
      intros [= <-]. by exists p, v.
    - intros (p & v & Hp & Hv & ->). apply Ht in Hp. rewrite Hp. cbn.
      apply Hobj. by rewrite Ho, list_lookup_fmap, Hv. }
  assert (Hfb : exists p v, Registry.fallback ut = Some p
                  /\ Registry.objects ut !! p = Some (newTranslator v)
                  /\ Locale v = Locale f).
  { unfold ut. destruct (Registry.fallback ut0) as [p|] eqn:Hp.
    - pose proof (proj1 (Hf p) eq_refl) as Hl.
      destruct (last_at_elem _ _ _ Hl) as (v & Hv & _ & HQ).
      exists p, v. split; [done|]. split; [|done].
      by rewrite Ho, list_lookup_fmap, Hv.
    - exists (length ls), f. split; [done|]. split; [|done]. cbn.
      rewrite Ho. apply list_lookup_middle. by rewrite length_fmap. }
  split; [|split; [|split]].
  - split.
    + intros lc p Hp. rewrite Htr in Hp. apply Ht in Hp.
      destruct (last_at_elem _ _ _ Hp) as (v & Hv & _ & HQ).
      exists (newTranslator v). split; [|done].
      apply Hobj. by rewrite Ho, list_lookup_fmap, Hv.
    + intros p Hp. destruct Hfb as (p' & v & Hp' & Hv & _).
      rewrite Hp in Hp'. injection Hp' as <-. by eexists.
    + intros Hn. destruct Hfb as (p' & v & Hp' & _). unfold Registry.GetFallback in *.
      congruence.
  - intros lc. split.
    + intros [t Hr]. apply Hreg in Hr as (p & v & Hp & Hv & _).
      destruct (last_at_elem _ _ _ Hp) as (v' & Hv' & Hin & HQ). by exists v'.
    + intros Hex. destruct (last_at_exists _ ls Hex) as [p Hp].
      destruct (last_at_elem _ _ _ Hp) as (v' & Hv' & _ & _).
      exists (newTranslator v'). apply Hreg. by exists p, v'.
  - intros lc t Hr. apply Hreg in Hr as (p & v & Hp & Hv & ->).
    destruct (last_at_elem _ _ _ Hp) as (v' & Hv' & Hin & HQ).
    exists v'. rewrite Hv in Hv'. injection Hv' as <-. done.
  - exact Hfb.
Qed.

(** Property X19.  When a supported locale has the name of the fallback,
    and no supported locale has that name in another letter case, the
    fallback of the new registry is the very object registered under the
    fallback's name: what is added to one is seen through the other. *)
Theorem NewUniversalTranslator_fallback_shared f ls ut :
  Registry.NewUniversalTranslator (Some f) ls = Returns ut ->
  (exists v, v ∈ ls /\ Locale v = Locale f) ->
  (forall v, v ∈ ls -> ToLower (Locale v) = ToLower (Locale f) -> Locale v = Locale f) ->
  exists p, Registry.GetFallback ut = Some p
            /\ Registry.GetTranslator ut (Locale f) = (Some p, true).
Proof.
  intros HN Hex Hcase.
  destruct (New_result f ls) as (ut0 & (Ho & Ht & Hf) & HN').
  rewrite HN in HN'. apply Returns_inj in HN'.
  destruct (last_at_exists (fun v => Locale v = Locale f) ls Hex) as [p Hp].
  pose proof (proj2 (Hf p) Hp) as Hfp. rewrite Hfp in HN'. cbn beta iota in HN'.
  rewrite HN'. clear HN' HN ut.
  exists p. split; [done|]. unfold Registry.GetTranslator.
  assert (Hl : last_at (fun v => ToLower (Locale v) = ToLower (Locale f)) ls p).
  { destruct Hp as [(v & Hv & HQ) Hlast]. split.
    - exists v. split; [done|]. by rewrite HQ.
    - intros j w Hj Hw. apply (Hlast j w Hj). apply Hcase; [|done].
      by eapply list_elem_of_lookup_2. }
  apply (proj2 (Ht (ToLower (Locale f)) p)) in Hl. rewrite Hl. reflexivity.
Qed.

Lemma NewUniversalTranslator_fallback_shared_witness :
  exists p, Registry.GetFallback reg_en = Some p
            /\ Registry.GetTranslator reg_en (Locale en) = (Some p, true).
Proof.
  apply (NewUniversalTranslator_fallback_shared en [en] reg_en eq_refl).
  - exists en. split; [constructor|done].
  - intros v Hv _. by apply list_elem_of_singleton in Hv as ->.
Defined.

(** Property X20.  When no supported locale has exactly the name of the
    fallback, the fallback of the new registry is a translator of its
    own, registered under no key, also when a supported locale has the
    same name in another letter case and is found under the fallback's
    name. *)
Theorem NewUniversalTranslator_fallback_separate f ls ut :
  Registry.NewUniversalTranslator (Some f) ls = Returns ut ->
  (forall v, v ∈ ls -> Locale v <> Locale f) ->
  exists p, Registry.GetFallback ut = Some p
            /\ Registry.objects ut !! p = Some (newTranslator f)
            /\ forall lc, Registry.translators ut !! lc <> Some p.
Proof.
  intros HN Hne.
  destruct (New_result f ls) as (ut0 & (Ho & Ht & Hf) & HN').
  rewrite HN in HN'. apply Returns_inj in HN'.
  destruct (Registry.fallback ut0) as [p|] eqn:Hfp.
  { pose proof (proj1 (Hf p) eq_refl) as Hl.
    destruct (last_at_elem _ _ _ Hl) as (v & _ & Hin & HQ). by destruct (Hne v Hin). }
  subst ut. exists (length ls). split; [done|]. split.
  - cbn. rewrite Ho. apply list_lookup_middle. by rewrite length_fmap.
  - intros lc Hlc. cbn in Hlc. apply Ht in Hlc.
    destruct (last_at_elem _ _ _ Hlc) as (v & Hv & _). apply lookup_lt_Some in Hv. lia.
Qed.

Lemma NewUniversalTranslator_fallback_separate_witness :
  exists p,
    Registry.GetFallback
      (match Registry.NewUniversalTranslator (Some en) [EN] with
       | Returns ut => ut
       | Panics _ => reg_en
       end) = Some p
    /\ Registry.objects
         (match Registry.NewUniversalTranslator (Some en) [EN] with
          | Returns ut => ut
          | Panics _ => reg_en
          end) !! p = Some (newTranslator en)
    /\ forall lc,
         Registry.translators
           (match Registry.NewUniversalTranslator (Some en) [EN] with
            | Returns ut => ut
            | Panics _ => reg_en
            end) !! lc <> Some p.
Proof.
  apply (NewUniversalTranslator_fallback_separate en [EN] _ eq_refl).
  intros v Hv. by apply list_elem_of_singleton in Hv as ->.
Defined.

Example fallback_separate_EN :
  exists ut, Registry.NewUniversalTranslator (Some en) [EN] = Returns ut
    /\ Registry.GetTranslator ut "en" = (Some 0%nat, true)
    /\ Registry.GetFallback ut = Some 1%nat.
Proof. eexists. split; [reflexivity|]. split; reflexivity. Qed.

(** ** AddTranslator *)

Lemma wf_registry_add ut tr p fb :
  Registry.wf ut ->
  p = length (Registry.objects ut) ->
  (forall q, fb = Some q -> is_Some ((Registry.objects ut ++ [newTranslator tr]) !! q)) ->
  is_Some fb ->
  Registry.wf {| Registry.objects := Registry.objects ut ++ [newTranslator tr];
                 Registry.translators :=
                   <[ToLower (Locale tr) := p]> (Registry.translators ut);
                 Registry.fallback := fb |}.
Proof.
  intros [Ht Hf Hn] -> Hfb Hsome. split; cbn.
  - intros lc q. destruct (decide (lc = ToLower (Locale tr))) as [->|Hne].
    + rewrite lookup_insert_eq. intros [= <-]. exists (newTranslator tr).
      split; [by apply list_lookup_middle|done].
    + rewrite lookup_insert_ne by done. intros Hq.
      destruct (Ht lc q Hq) as (t & Hobj & Hl). exists t. split; [|done].
      by apply lookup_app_l_Some.
  - exact Hfb.
  - intros ->. by destruct Hsome.
Qed.

(** Property X21.  [AddTranslator] on a registry with a fallback: it
    refuses, with [ErrExistingTranslator] and without changing anything,
    exactly when [override] is false and the locale is registered (by
    its lower-cased name) or has the name of the fallback; otherwise it
    registers a new, empty translator under the lower-cased name, which
    replaces the one registered before together with its translations,
    and makes it the fallback too when the names are equal. *)
Theorem AddTranslator_policy ut tr ov fp ft :
  Registry.wf ut ->
  Registry.fallback ut = Some fp ->
  Registry.objects ut !! fp = Some ft ->
  let lc := ToLower (Locale tr) in
  let clash := is_Some (Registry.translators ut !! lc)
               \/ Locale (locale ft) = Locale tr in
  (ov = false /\ clash ->
     Registry.AddTranslator ut tr ov
     = Returns (ut, Some (Registry.mkErrExistingTranslator (Locale tr))))
  /\ (ov = true \/ ~ clash ->
      exists ut',
        Registry.AddTranslator ut tr ov = Returns (ut', None)
        /\ Registry.wf ut'
        /\ Registry.registered ut' lc = Some (newTranslator tr)
        /\ (forall lc', lc' <> lc ->
              Registry.registered ut' lc' = Registry.registered ut lc')
        /\ Registry.fallback ut'
           = (if String.eqb (Locale (locale ft)) (Locale tr)
              then Registry.translators ut' !! lc else Some fp)).
Proof.
  intros Hwf Hfb Hft lc clash.
  assert (Hobj : Registry.object
                   (Registry.alloc ut (newTranslator tr)).2
                   (Registry.fallback (Registry.alloc ut (newTranslator tr)).2)
                 = Returns ft).
  { cbn. rewrite Hfb. cbn. by rewrite (lookup_app_l_Some _ _ _ _ Hft). }
  split.
  - intros [-> Hc]. unfold Registry.AddTranslator. fold lc.
    destruct (decide (is_Some (Registry.translators ut !! lc))) as [Hr|Hr].
    { by rewrite bool_decide_eq_true_2 by done. }
    rewrite bool_decide_eq_false_2 by done. cbn [andb].
    destruct (Registry.alloc ut (newTranslator tr)) as [trans ut'] eqn:Ha.
    cbn [snd] in Hobj. rewrite Hobj. cbn [mbind outcome_bind obind].
    destruct Hc as [Hc|Hc]; [done|].
    destruct (String.eqb_spec (Locale (locale ft)) (Locale tr)); done.
  - intros Hok. unfold Registry.AddTranslator. fold lc.
    assert (bool_decide (is_Some (Registry.translators ut !! lc)) && negb ov = false)
      as ->.
    { destruct Hok as [->|Hn]; [by rewrite andb_false_r|].
      rewrite bool_decide_eq_false_2; [done|]. intros ?. apply Hn. by left. }
    destruct (Registry.alloc ut (newTranslator tr)) as [trans ut'] eqn:Ha.
    cbn [snd] in Hobj. rewrite Hobj. cbn [mbind outcome_bind obind].
    injection Ha as <- <-.
    assert (Hreg : forall u : Registry.UniversalTranslator,
              Registry.objects u = Registry.objects ut ++ [newTranslator tr] ->
              Registry.translators u
              = <[lc := length (Registry.objects ut)]> (Registry.translators ut) ->
              Registry.registered u lc = Some (newTranslator tr)
              /\ forall lc', lc' <> lc ->
                   Registry.registered u lc' = Registry.registered ut lc').
    { intros u Ho Ht. unfold Registry.registered. rewrite Ho, Ht. split.
      - rewrite lookup_insert_eq. cbn. by apply list_lookup_middle.
      - intros lc' Hne. rewrite lookup_insert_ne by done.
        destruct (Registry.translators ut !! lc') as [q|] eqn:Hq; [|done]. cbn.
        destruct (Registry.wf_translators ut Hwf lc' q Hq) as (t & Hobj' & _).
        rewrite Hobj'. by apply lookup_app_l_Some. }
    destruct (String.eqb_spec (Locale (locale ft)) (Locale tr)) as [E|E].
    + assert (ov = true) as ->.
      { destruct Hok as [->|Hn]; [done|]. destruct Hn. by right. }
      cbn [negb]. eexists. split; [reflexivity|].
      unfold Registry.set_translator, Registry.set_fallback.
      cbn [Registry.objects Registry.translators Registry.fallback].
      split; [|split; [|split]].
      * apply wf_registry_add; [done..| |by eexists]. intros q [= <-].
        exists (newTranslator tr). by apply list_lookup_middle.
      * by apply Hreg.
      * by apply Hreg.
      * cbn. by rewrite lookup_insert_eq.
    + eexists. split; [reflexivity|].
      unfold Registry.set_translator.
      cbn [Registry.objects Registry.translators Registry.fallback].
      split; [|split; [|split]].
      * rewrite Hfb. apply wf_registry_add; [done..| |by eexists]. intros q [= <-].
        exists ft. by apply lookup_app_l_Some.
      * by apply Hreg.
      * by apply Hreg.
      * done.
Qed.

Lemma wf_reg_en_used : Registry.wf reg_en_used.
Proof.
  split.
  - intros lc p. cbn. intros H.
    apply lookup_insert_Some in H as [[<- <-]|[_ H]]; [|by rewrite lookup_empty in H].
    by exists t_greeting.
  - intros p [= <-]. by exists t_greeting.
  - done.
Qed.

Lemma AddTranslator_policy_witness :
  let lc := ToLower (Locale en) in
  let clash := is_Some (Registry.translators reg_en_used !! lc)
               \/ Locale (locale t_greeting) = Locale en in
  (true = false /\ clash ->
     Registry.AddTranslator reg_en_used en true
     = Returns (reg_en_used, Some (Registry.mkErrExistingTranslator (Locale en))))
  /\ (true = true \/ ~ clash ->
      exists ut',
        Registry.AddTranslator reg_en_used en true = Returns (ut', None)
        /\ Registry.wf ut'
        /\ Registry.registered ut' lc = Some (newTranslator en)
        /\ (forall lc', lc' <> lc ->
              Registry.registered ut' lc' = Registry.registered reg_en_used lc')
        /\ Registry.fallback ut'
           = (if String.eqb (Locale (locale t_greeting)) (Locale en)
              then Registry.translators ut' !! lc else Some 0%nat)).
Proof.
  apply (AddTranslator_policy reg_en_used en true 0%nat t_greeting wf_reg_en_used);
    reflexivity.
Defined.

Example AddTranslator_override_discards :
  Registry.registered reg_en_used "en" = Some t_greeting
  /\ T t_greeting (IString "greeting") ["World"] = Returns ("Hello World", None)
  /\ Registry.AddTranslator reg_en_used en false
     = Returns (reg_en_used, Some (Registry.mkErrExistingTranslator "en"))
  /\ exists ut',
       Registry.AddTranslator reg_en_used en true = Returns (ut', None)
       /\ Registry.registered ut' "en" = Some (newTranslator en)
       /\ T (newTranslator en) (IString "greeting") ["World"]
          = Returns (EmptyString, Some (ErrUnknownTranslation "greeting")).
Proof.
  split; [reflexivity|]. split; [reflexivity|]. split; [reflexivity|].
  eexists. split; [reflexivity|]. split; reflexivity.
Qed.

(** ** Lookups *)




Lemma Localizer_loop_FindTranslator ut langs :
  Localizer_loop ut langs (Registry.fallback ut) false
  = Registry.FindTranslator ut langs.
Proof.
  induction langs as [|lang langs IH]; [done|].
  cbn [Localizer_loop Registry.FindTranslator]. unfold Registry.GetTranslator.
  destruct (Registry.translators ut !! ToLower lang); [done|]. exact IH.
Qed.

(** Property X23.  The translator the [Localizer] middleware stores in
    the request context is the one [FindTranslator] returns for the
    [lang] form value followed by the [Accept-Language] tags: the first
    of them that is registered, else the fallback. *)
Theorem Localizer_translator_FindTranslator ut lang tags :
  Localizer_translator ut lang tags
  = (Registry.FindTranslator ut (lang :: tags)).1.
Proof.
  unfold Localizer_translator. cbn [Localizer_loop Registry.FindTranslator].
  unfold Registry.GetTranslator.
  destruct (Registry.translators ut !! ToLower lang); [done|].
  by rewrite Localizer_loop_FindTranslator.
Qed.

(** ** Verifying the whole registry *)

Lemma VerifyTranslations_result t v :
  wf t -> visits t v ->
  (VerifyTranslations t v = Returns None /\ fully_populated t)
  \/ (exists e, VerifyTranslations t v = Returns (Some e) /\ ~ fully_populated t).
Proof.
  intros Hwf Hv. pose proof (VerifyTranslations_None_iff t v Hwf Hv) as Hiff.
  rewrite (VerifyTranslations_first_empty t v Hwf Hv) in *.
  destruct (first_empty_slot t v) as [[[[c key] a] rule]|]; cbn [missing_error] in *.
  - right. eexists. split; [done|]. intros H. apply Hiff in H. discriminate H.
  - left. split; [done|]. by apply Hiff.
Qed.

Lemma verify_loop_None ut entries vs :
  Forall (fun e => exists t, Registry.objects ut !! e.2 = Some t
                             /\ wf t /\ visits t (vs e.2)) entries ->
  (exists e, Registry.verify_loop ut entries vs = Returns e)
  /\ (Registry.verify_loop ut entries vs = Returns None
      <-> Forall (fun e => forall t, Registry.objects ut !! e.2 = Some t ->
                                     fully_populated t) entries).
Proof.
  induction 1 as [|[lc p] entries (t & Ht & Hwf & Hv) _ [IHr IH]].
  - split; [by eexists|]. split; [by constructor|done].
  - cbn [Registry.verify_loop Registry.object snd] in *. rewrite Ht.
    cbn [mbind outcome_bind obind].
    destruct (VerifyTranslations_result t (vs p) Hwf Hv) as [[-> Hfp]|(e & -> & Hn)];
      cbn [mbind outcome_bind obind].
    + split; [exact IHr|]. rewrite IH. split.
      * intros H. constructor; [|done]. cbn. intros t' Ht'.
        rewrite Ht in Ht'. by injection Ht' as <-.
      * intros H. by apply Forall_cons in H as [_ ?].
    + split; [by eexists|]. split; [done|].
      intros H. apply Forall_cons in H as [H _]. destruct Hn. by apply H.
Qed.

(** Property X24.  [VerifyTranslations] of the registry never panics and
    returns nil exactly when every registered translator has an entry for
    every rule of its locale, in whatever order the registry map and the
    maps of the translators are ranged over.  A fallback that is
    registered under no key is not looked at. *)
Theorem Registry_VerifyTranslations_iff ut entries vs :
  Registry.wf ut ->
  (forall lc p t, Registry.translators ut !! lc = Some p ->
                  Registry.objects ut !! p = Some t ->
                  wf t /\ visits t (vs p)) ->
  entries ≡ₚ map_to_list (Registry.translators ut) ->
  (exists e, Registry.VerifyTranslations ut entries vs = Returns e)
  /\ (Registry.VerifyTranslations ut entries vs = Returns None
      <-> forall lc t, Registry.registered ut lc = Some t -> fully_populated t).
Proof.
  intros Hwf Hts Hp. unfold Registry.VerifyTranslations.
  assert (Hin : forall lc p, (lc, p) ∈ entries <-> Registry.translators ut !! lc = Some p).
  { intros lc p. rewrite Hp. apply elem_of_map_to_list. }
  destruct (verify_loop_None ut entries vs) as [Hr Hiff].
  { apply Forall_forall. intros [lc p] He. apply Hin in He. cbn.
    destruct (Registry.wf_translators ut Hwf lc p He) as (t & Ht & _).
    exists t. split; [done|]. by apply (Hts lc p t). }
  split; [exact Hr|]. rewrite Hiff, Forall_forall. split.
  - intros H lc t Hreg. unfold Registry.registered in Hreg.
    destruct (Registry.translators ut !! lc) as [p|] eqn:Hl; [|done]. cbn in Hreg.
    apply (H (lc, p)); [by apply Hin|done].
  - intros H [lc p] He t Ht. apply Hin in He. apply (H lc t).
    unfold Registry.registered. by rewrite He.
Qed.

Lemma Registry_VerifyTranslations_iff_witness :
  (exists e, Registry.VerifyTranslations reg_en_used
               (map_to_list (Registry.translators reg_en_used))
               (fun _ => visit_default t_greeting) = Returns e)
  /\ (Registry.VerifyTranslations reg_en_used
        (map_to_list (Registry.translators reg_en_used))
        (fun _ => visit_default t_greeting) = Returns None
      <-> forall lc t, Registry.registered reg_en_used lc = Some t -> fully_populated t).
Proof.
  apply (Registry_VerifyTranslations_iff reg_en_used
           (map_to_list (Registry.translators reg_en_used))
           (fun _ => visit_default t_greeting) wf_reg_en_used); [|done].
  intros lc p t Hl Ht.
  destruct (Registry.wf_translators _ wf_reg_en_used lc p Hl) as (t' & Ht' & _).
  assert (p = 0%nat) as ->.
  { apply lookup_lt_Some in Ht'. cbn in Ht'. lia. }
  cbn in Ht. injection Ht as <-. split; [apply wf_t_greeting|apply visits_default].
Defined.

(** ** Export of the whole registry *)

Lemma Export_locale_table t v :
  wf t -> visits t v -> Export_locale t v = inl (export_table t).
Proof.
  intros Hwf Hv. unfold export_table.
  destruct (Export_locale_merged t v Hwf Hv) as (trans & -> & Hl).
  destruct (Export_locale_merged t _ Hwf (visits_default t)) as (trans' & -> & Hl').
  f_equal. apply map_eq. intros key. by rewrite Hl, Hl'.
Qed.

Lemma append_length (a b : string) :
  String.length (a +:+ b) = (String.length a + String.length b)%nat.
Proof.
  induction a as [|x a IH]; [done|]. rewrite append_cons. cbn. by rewrite IH.
Qed.

Lemma append_inj_r (a b x : string) : a +:+ x = b +:+ x -> a = b.
Proof.
  revert b. induction a as [|c a IH]; intros [|d b] H.
  - done.
  - apply (f_equal String.length) in H.
    rewrite !append_length in H. cbn in H. lia.
  - apply (f_equal String.length) in H.
    rewrite !append_length in H. cbn in H. lia.
  - rewrite !append_cons in H. injection H as -> H. f_equal. by apply IH.
Qed.

Lemma Export_loop_files env ut vs entries : forall files,
  Forall (fun e => exists t, Registry.objects ut !! e.2 = Some t
                             /\ wf t /\ visits t (vs e.2)) entries ->
  exists written err,
    Export_loop env ut entries vs files = Returns (files ++ written, err)
    /\ written `prefix_of` (export_file ut <$> entries)
    /\ (err = None \/ err = Some ErrExportWriteFailure)
    /\ (err = None -> written = export_file ut <$> entries)
    /\ ((forall f tr, write_ok env f tr = true) -> err = None).
Proof.
  induction entries as [|[lc p] entries IH]; intros files Hall.
  - exists [], None. rewrite app_nil_r. by repeat split; auto.
  - apply Forall_cons in Hall as [(t & Ht & Hwf & Hv) Hall].
    cbn [Export_loop Registry.object snd] in *. rewrite Ht.
    cbn [mbind outcome_bind obind]. rewrite (Export_locale_table t (vs p) Hwf Hv).
    assert (Hfile : export_file ut (lc, p)
                    = (Locale (locale t) +:+ ".toml", export_table t))
      by (unfold export_file; cbn; by rewrite Ht).
    destruct (write_ok env _ _) eqn:Hw.
    + destruct (IH (files ++ [(Locale (locale t) +:+ ".toml", export_table t)]) Hall)
        as (written & err & -> & Hpre & Herr & Hnone & Hok).
      exists ((Locale (locale t) +:+ ".toml", export_table t) :: written), err.
      rewrite <- app_assoc. split; [done|]. cbn [fmap list_fmap]. rewrite Hfile.
      split; [by apply prefix_cons|]. split; [done|]. split; [|done].
      intros E. by rewrite (Hnone E).
    + exists [], (Some ErrExportWriteFailure). rewrite app_nil_r.
      split; [done|]. split; [apply prefix_nil|]. split; [by right|].
      split; [done|]. intros Hok. by rewrite Hok in Hw.
Qed.

Lemma export_files_NoDup ut entries :
  Registry.wf ut ->
  entries ≡ₚ map_to_list (Registry.translators ut) ->
  NoDup (export_file ut <$> entries).*1.
Proof.
  intros Hwf Hp. rewrite <- list_fmap_compose.
  assert (Hin : forall lc p, (lc, p) ∈ entries <-> Registry.translators ut !! lc = Some p).
  { intros lc p. rewrite Hp. apply elem_of_map_to_list. }
  apply NoDup_fmap_2_strong.
  - intros [lc1 p1] [lc2 p2] H1 H2. apply Hin in H1, H2.
    destruct (Registry.wf_translators ut Hwf _ _ H1) as (t1 & Ht1 & Hl1).
    destruct (Registry.wf_translators ut Hwf _ _ H2) as (t2 & Ht2 & Hl2).
    unfold export_file. cbn. rewrite Ht1, Ht2. cbn. intros E.
    apply append_inj_r in E. assert (lc1 = lc2) as -> by congruence.
    f_equal. congruence.
  - rewrite Hp. apply NoDup_map_to_list.
Qed.

(** Property X25.  On a registry that satisfies its invariant and holds
    well-formed translators, [Export] never fails on the translators
    themselves (no [ErrKeyIsNotString]).  The files it writes are, in
    visiting order, the first files of the list that has one file per
    registered translator, named after the translator's locale; no two of
    them have the same name.  When the directory and every write succeed
    it returns nil and has written the whole list. *)
Theorem Export_one_file_per_locale env ut entries vs :
  Registry.wf ut ->
  (forall lc p t, Registry.translators ut !! lc = Some p ->
                  Registry.objects ut !! p = Some t ->
                  wf t /\ visits t (vs p)) ->
  entries ≡ₚ map_to_list (Registry.translators ut) ->
  exists files err,
    Export env ut entries vs = Returns (files, err)
    /\ (forall e, err <> Some (ErrExportTable e))
    /\ files `prefix_of` (export_file ut <$> entries)
    /\ NoDup files.*1
    /\ (err = None -> files = export_file ut <$> entries)
    /\ (path_ok env = true -> (forall f tr, write_ok env f tr = true) -> err = None).
Proof.
  intros Hwf Hts Hp. unfold Export.
  assert (Hin : forall lc p, (lc, p) ∈ entries <-> Registry.translators ut !! lc = Some p).
  { intros lc p. rewrite Hp. apply elem_of_map_to_list. }
  pose proof (export_files_NoDup ut entries Hwf Hp) as Hnd.
  destruct (path_ok env).
  - destruct (Export_loop_files env ut vs entries []) as (files & err & HE & Hpre & Herr & Hn & Hok).
    { apply Forall_forall. intros [lc p] He. apply Hin in He. cbn.
      destruct (Registry.wf_translators ut Hwf lc p He) as (t & Ht & _).
      exists t. split; [done|]. by apply (Hts lc p t). }
    exists files, err. split; [exact HE|]. split.
    { intros e. by destruct Herr as [-> | ->]. }
    split; [done|]. split; [|split; [done|auto]].
    destruct Hpre as [k Hk]. rewrite Hk, fmap_app in Hnd.
    by apply NoDup_app in Hnd as [? _].
  - exists [], (Some ErrExportPathFailure). split; [done|]. split; [done|].
    split; [apply prefix_nil|]. split; [apply NoDup_nil_2|]. split; done.
Qed.

Lemma Export_one_file_per_locale_witness :
  exists files err,
    Export env_ok reg_en_used (map_to_list (Registry.translators reg_en_used))
      (fun _ => visit_default t_greeting) = Returns (files, err)
    /\ (forall e, err <> Some (ErrExportTable e))
    /\ files `prefix_of`
         (export_file reg_en_used <$> map_to_list (Registry.translators reg_en_used))
    /\ NoDup files.*1
    /\ (err = None ->
        files = export_file reg_en_used
                  <$> map_to_list (Registry.translators reg_en_used))
    /\ (path_ok env_ok = true ->
        (forall f tr, write_ok env_ok f tr = true) -> err = None).
Proof.
  apply (Export_one_file_per_locale env_ok reg_en_used
           (map_to_list (Registry.translators reg_en_used))
           (fun _ => visit_default t_greeting) wf_reg_en_used); [|done].
  intros lc p t Hl Ht.
  destruct (Registry.wf_translators _ wf_reg_en_used lc p Hl) as (t' & Ht' & _).
  assert (p = 0%nat) as ->.
  { apply lookup_lt_Some in Ht'. cbn in Ht'. lia. }
  cbn in Ht. injection Ht as <-. split; [apply wf_t_greeting|apply visits_default].
Defined.

Example Export_reg_en_used :
  Export env_ok reg_en_used (map_to_list (Registry.translators reg_en_used))
    (fun _ => visit_default t_greeting)
  = Returns ([("en.toml",
               {["greeting" := mkTranslation "en" false EmptyString EmptyString
                                 EmptyString EmptyString EmptyString EmptyString
                                 "Hello {0}"]})], None).
Proof. vm_compute. reflexivity. Qed.

(** ** When an add is accepted *)

Lemma plain_offsets_Some_iff txt n : forall i acc,
  (exists l, plain_offsets txt n i acc = Some l)
  <-> forall j, (i <= j < i + n)%nat -> Index txt (placeholder j) <> -1.
Proof.
  induction n as [|n IH]; intros i acc; cbn [plain_offsets].
  - split; [intros _ j Hj; lia|by eexists].
  - fold (placeholder i).
    destruct (Z.eqb_spec (Index txt (placeholder i)) (-1)) as [Hi|Hi].
    + split; [by intros [? ?]|]. intros H. destruct (H i); [lia|done].
    + rewrite IH. split.
      * intros H j Hj. destruct (decide (j = i)) as [->|]; [done|]. apply H. lia.
      * intros H j Hj. apply H. lia.
Qed.

(** Property X26.  [Add] accepts a text exactly when the key is new or
    [override] is set, the text has as many opening as closing braces,
    and each of the placeholders [{0}] ... [{N-1}] occurs in it, N being
    the number of opening braces.  It then stores the text with, for each
    placeholder in number order, the offsets of its first occurrence. *)
Theorem Add_accepts_iff t key txt ov t' :
  Add t (IString key) txt ov = Returns (t', None)
  <-> (translations t !! IString key = None \/ ov = true)
      /\ Count txt "{" = Count txt "}"
      /\ (forall i, (i < Count txt "{")%nat -> Index txt (placeholder i) <> -1)
      /\ t' = with_translations t
                (<[IString key :=
                     mkTransText txt (flat_map (span txt) (seq 0 (Count txt "{")))]>
                   (translations t)).
Proof.
  destruct (Add_spec t key txt ov) as (r & Hr & Hres). rewrite Hr.
  assert (Hcomp : forall e, plain_compile txt = Some e ->
            Count txt "{" = Count txt "}"
            /\ (forall i, (i < Count txt "{")%nat -> Index txt (placeholder i) <> -1)
            /\ e = mkTransText txt (flat_map (span txt) (seq 0 (Count txt "{")))).
  { intros e He. pose proof (plain_compile_indexes txt e He) as Hi.
    pose proof (plain_compile_text txt e He) as Ht.
    unfold plain_compile in He.
    destruct (Nat.eqb_spec (Count txt "{") (Count txt "}")) as [E|]; [|done].
    split; [done|]. split.
    - destruct (plain_offsets txt (Count txt "{") 0 []) as [l|] eqn:Ho; [|done].
      intros i Hi'.
      apply (proj1 (plain_offsets_Some_iff txt (Count txt "{") 0 [])); [by eexists|lia].
    - destruct e as [tx ix]. cbn in *. by subst. }
  split.
  - intros H. apply Returns_inj in H as ->.
    inversion Hres as [| | |e Hc He]; subst.
    destruct (Hcomp e He) as (E & Hall & ->). done.
  - intros (Hc & E & Hall & ->). f_equal.
    destruct (proj2 (plain_offsets_Some_iff txt (Count txt "{") 0 [])) as [l Hl].
    { intros j Hj. apply Hall. lia. }
    assert (He : plain_compile txt = Some (mkTransText txt l)).
    { unfold plain_compile. rewrite E, Nat.eqb_refl. rewrite <- E, Hl. done. }
    destruct (Hcomp _ He) as (_ & _ & Hl').
    inversion Hres as [Hs Hov|Hc' Hn|p Hc' Hn Hcomp'|e0 Hc' Hcomp']; subst.
    + destruct Hc as [Hc|Hc]; [|done]. rewrite Hc in Hs. by destruct Hs.
    + done.
    + congruence.
    + rewrite He in Hcomp'. injection Hcomp' as <-. by rewrite Hl'.
Qed.

(** Property X27.  A plural add is accepted exactly when the rule is one
    of the locale's rules for the category, the slot of the rule is empty
    or [override] is set, [{0}] occurs in the text and, for a range,
    [{1}] occurs too.  Nothing else about the text is checked.  It then
    stores the text with the offsets of the first [{0}] (and [{1}]) in
    the slot of the rule. *)
Theorem addPlural_accepts_iff c t key txt rule ov t' :
  wf t ->
  addPlural c t (IString key) txt rule ov = Returns (t', None)
  <-> rule ∈ plurals c (locale t)
      /\ (slot_at c t key rule = None \/ ov = true)
      /\ Index txt paramZero <> -1
      /\ (c = Range -> Index txt paramOne <> -1)
      /\ t' = put_slot c t key rule
                (Some (mkTransText txt
                         (span txt 0 ++ match c with Range => span txt 1 | _ => [] end))).
Proof.
  intros Hwf.
  rewrite (add_to_success_iff (Plural c rule) t key txt ov t' Hwf).
  cbn [rule_ok entry_at compile write]. unfold plural_compile.
  change (placeholder 0) with paramZero. change (placeholder 1) with paramOne.
  split.
  - intros (Hr & Hc & e & He & ->). split; [done|]. split; [done|].
    destruct (Z.eqb_spec (Index txt paramZero) (-1)) as [|H0]; [done|].
    split; [done|]. destruct c.
    + injection He as <-. split; [done|]. by rewrite app_nil_r.
    + injection He as <-. split; [done|]. by rewrite app_nil_r.
    + destruct (Z.eqb_spec (Index txt paramOne) (-1)) as [|H1]; [done|].
      injection He as <-. done.
  - intros (Hr & Hc & H0 & H1 & ->). split; [done|]. split; [done|].
    destruct (Z.eqb_spec (Index txt paramZero) (-1)) as [|_]; [done|].
    destruct c.
    + eexists. split; [reflexivity|]. by rewrite app_nil_r.
    + eexists. split; [reflexivity|]. by rewrite app_nil_r.
    + destruct (Z.eqb_spec (Index txt paramOne) (-1)) as [E|_]; [by destruct H1|].
      eexists. split; reflexivity.
Qed.

Lemma addPlural_accepts_iff_witness :
  addPlural Range t_empty (IString "span") "{0}-{1} days" PluralRuleOther false
  = Returns (t_span, None)
  <-> PluralRuleOther ∈ plurals Range (locale t_empty)
      /\ (slot_at Range t_empty "span" PluralRuleOther = None \/ false = true)
      /\ Index "{0}-{1} days" paramZero <> -1
      /\ (Range = Range -> Index "{0}-{1} days" paramOne <> -1)
      /\ t_span = put_slot Range t_empty "span" PluralRuleOther
                    (Some (mkTransText "{0}-{1} days"
                             (span "{0}-{1} days" 0 ++ span "{0}-{1} days" 1))).
Proof.
  apply (addPlural_accepts_iff Range t_empty "span" "{0}-{1} days" PluralRuleOther
           false t_span (wf_newTranslator en)).
Defined.

(** ** What an import without override leaves alone *)

Lemma do_call_keeps_entry ut cl ua e lc tg key e0 :
  wf_registry ut ->
  call_override cl = false ->
  do_call ut cl = Returns (ua, e) ->
  registry_entry ut lc tg key = Some e0 ->
  registry_entry ua lc tg key = Some e0.
Proof.
  intros Hw Hov Hd He. unfold do_call in Hd.
  destruct (translators ut !! call_locale cl) as [t|] eqn:Ht; [|done].
  destruct (add_to _ _ _ _ _) as [[ta e']|] eqn:HA; [|done].
  cbn [mbind outcome_bind obind] in Hd. apply Returns_pair_inj in Hd as [<- <-].
  unfold registry_entry in *. cbn [translators].
  destruct (decide (lc = call_locale cl)) as [->|Hne].
  2:{ by rewrite lookup_insert_ne. }
  rewrite lookup_insert_eq. rewrite Ht in He. cbn in *.
  destruct (entry_at (call_target cl) t (call_key cl)) as [e1|] eqn:E1.
  - rewrite Hov in HA. rewrite (add_to_conflict _ _ _ _ e1 (Hw _ _ Ht) E1) in HA.
    by apply Returns_pair_inj in HA as [<- _].
  - rewrite (add_to_frame _ _ _ _ _ _ _ tg key (Hw _ _ Ht) HA); [done|].
    intros [= <- <-]. congruence.
Qed.

Lemma run_steps_keeps_entry steps lc tg key e0 : forall ut ua e,
  wf_registry ut ->
  Forall (fun cl => call_override cl = false) (calls steps) ->
  run_steps ut steps = Returns (ua, e) ->
  registry_entry ut lc tg key = Some e0 ->
  registry_entry ua lc tg key = Some e0.
Proof.
  induction steps as [|[cl|err] steps IH]; intros ut ua e Hw Hov Hr He.
  - by apply Returns_pair_inj in Hr as [<- _].
  - cbn [run_steps] in Hr. rewrite calls_cons_call in Hov.
    apply Forall_cons in Hov as [Hov Hall].
    destruct (do_call ut cl) as [[ub e1]|] eqn:Hd; [|done].
    cbn [mbind outcome_bind obind] in Hr.
    pose proof (do_call_keeps_entry _ _ _ _ lc tg key e0 Hw Hov Hd He) as He1.
    destruct e1 as [e1|]; [by apply Returns_pair_inj in Hr as [<- _]|].
    apply (IH ub ua e); [by eapply wf_registry_do_call|done..].
  - cbn [run_steps] in Hr. by apply Returns_pair_inj in Hr as [<- _].
Qed.

(** Property X28.  An import in which no record sets [override] never
    changes or removes a translation that was there before: whatever it
    returns, every plain entry and every plural slot that was filled
    still holds the same text and offsets afterwards. *)
Theorem import_without_override_keeps_entries ut recs ut1 e lc tg key e0 :
  wf_registry ut ->
  Forall (fun kr => OverrideExisting kr.2 = false) recs ->
  ImportFromReader ut recs = Returns (ut1, e) ->
  registry_entry ut lc tg key = Some e0 ->
  registry_entry ut1 lc tg key = Some e0.
Proof.
  intros Hw Hov HI He. rewrite ImportFromReader_plan in HI.
  apply (run_steps_keeps_entry (plan ut recs) lc tg key e0 ut ut1 e Hw); [|done..].
  by apply plan_override.
Qed.

Lemma wf_registry_ut_three : wf_registry ut_three.
Proof.
  apply (wf_registry_run_steps (plan ut_en recs_three) ut_en ut_three None
           (wf_registry_new [en])).
  reflexivity.
Qed.

Lemma import_without_override_keeps_entries_witness :
  registry_entry ut_three "en" (Plural Cardinal PluralRuleOne) "days"
  = Some (mkTransText "{0} day" [0; 3]).
Proof.
  apply (import_without_override_keeps_entries ut_three recs_three' ut_three
           (Some (ErrConflictingTranslation "en" "c" PluralRuleUnknown "never"))
           "en" (Plural Cardinal PluralRuleOne) "days" (mkTransText "{0} day" [0; 3])
           wf_registry_ut_three).
  - by repeat constructor.
  - reflexivity.
  - reflexivity.
Defined.
